(** * expu::darray — a shallow embedding of [include/expu/containers/darray.hpp]

    The container is modelled over an explicit store: a heap of allocation
    blocks whose cells are either uninitialised storage or hold a constructed
    element, two container objects (so that copy / move between containers and
    their aliasing through the heap are visible), and a fault schedule that
    decides which potentially-throwing element operation or allocation throws.

    Member functions are written in a state-and-exception monad whose third
    outcome, [Undefined], stands for leaving the defined fragment of the
    language: reading, assigning or destroying a cell that holds no object,
    constructing into a cell that is not raw storage of a live block, invalid
    pointer arithmetic, or a failed debug verification. *)

From Stdlib Require Import ZArith Lia.
From stdpp Require Import base tactics option list.

Module expu.

(** ** Compile-time traits *)

(** What [darray] asks of its element type through [<type_traits>]: how a
    moved-from object looks, and whether move construction / move assignment
    are declared [noexcept].

    And what an operation on elements leaves behind when it throws half-way,
    which the language leaves to the element type and to the library: the
    value of an object after an assignment to it has thrown
    ([assign_unwind old new]; it is [old] for an [operator=] with the strong
    guarantee); and, for [std::rotate] over [n] elements about position [m],
    the number [rotate_moves m n] of element moves it makes and the
    arrangement [rotate_unwind k m vs] of the values [vs] of the range once
    the move numbered [k] has thrown. Every object of the range is still an
    object then. *)
Class ElementTraits (T : Type) := {
  moved_from : T → T;
  is_nothrow_move_constructible : bool;
  is_nothrow_move_assignable : bool;
  assign_unwind : T → T → T;
  rotate_moves : nat → nat → nat;
  rotate_unwind : nat → nat → list T → list T;
  rotate_unwind_length k m vs : length (rotate_unwind k m vs) = length vs
}.

(** What [darray] asks of [std::allocator_traits<Alloc>]. [max_size] never
    exceeds the largest [difference_type] value. *)
Class AllocTraits := {
  is_always_equal : bool;
  propagate_on_container_copy_assignment : bool;
  propagate_on_container_move_assignment : bool;
  alloc_max_size : nat;
  alloc_max_size_bound : (Z.of_nat alloc_max_size < 2 ^ 63)%Z
}.

(** ** Pointers *)

(** A pointer is null or designates cell [o] of allocation block [b]. *)
Inductive ptr := nullptr | Ptr (b o : nat).

#[global] Instance ptr_eq_dec : EqDecision ptr.
Proof. solve_decision. Defined.

(** [p + n]. *)
Definition ptr_add (p : ptr) (n : nat) : ptr :=
  match p with
  | nullptr => nullptr
  | Ptr b o => Ptr b (o + n)
  end.

(** [p <= q], meaningful inside one block (and between two null pointers). *)
Definition ptr_leb (p q : ptr) : bool :=
  match p, q with
  | nullptr, nullptr => true
  | Ptr b o, Ptr b' o' => (b =? b') && (o <=? o')
  | _, _ => false
  end.

Definition ptr_le (p q : ptr) : Prop := ptr_leb p q = true.

(** ** The [_darray_data] triad and the container object *)

Record _darray_data := mk_data {
  first : ptr;  (* Starting address of container's allocated memory. *)
  last : ptr;   (* Address one past the last element stored. *)
  end_ : ptr    (* One past the end of the allocated memory. *)
}.

(** [compressed_pair<allocator_type, _data_t> _cpair]; an allocator instance
    is identified by a number. *)
Record darray := mk_darray {
  cpair_first : nat;
  cpair_second : _darray_data
}.

(** The two container objects of the store. *)
Inductive var := X | Y.

#[global] Instance var_eq_dec : EqDecision var.
Proof. solve_decision. Defined.

Inductive exn :=
  | bad_alloc
  | bad_array_new_length
  | out_of_range
  | element_exception.

Section darray.
Context {T : Type} {ET : ElementTraits T} {AT : AllocTraits}.

(** ** Store *)

(** A cell is raw storage ([None]) or a constructed element. A block is
    [None] once deallocated. *)
Abbreviation cell := (option T).
Abbreviation block := (list (option T)).

Record state := mk_state {
  heap : list (option block);
  objX : darray;
  objY : darray;
  faults : list bool
}.

Definition get_obj (x : var) (s : state) : darray :=
  match x with X => objX s | Y => objY s end.

Definition set_obj (x : var) (d : darray) (s : state) : state :=
  match x with
  | X => mk_state (heap s) d (objY s) (faults s)
  | Y => mk_state (heap s) (objX s) d (faults s)
  end.

Definition set_heap (h : list (option block)) (s : state) : state :=
  mk_state h (objX s) (objY s) (faults s).

Definition set_faults (f : list bool) (s : state) : state :=
  mk_state (heap s) (objX s) (objY s) f.

Definition heap_block (h : list (option block)) (b : nat) : option block :=
  match h !! b with
  | Some (Some blk) => Some blk
  | _ => None
  end.

Definition heap_cell (h : list (option block)) (p : ptr) : option cell :=
  match p with
  | nullptr => None
  | Ptr b o => blk ← heap_block h b; blk !! o
  end.

Definition heap_store (h : list (option block)) (p : ptr) (c : cell)
  : list (option block) :=
  match p with
  | nullptr => h
  | Ptr b o =>
      match heap_block h b with
      | Some blk => <[b := Some (<[o := c]> blk)]> h
      | None => h
      end
  end.

(** ** The monad: state, exceptions, undefined behaviour *)

Inductive result (A : Type) :=
  | Ok (a : A) (s : state)
  | Throw (e : exn) (s : state)
  | Undefined.
Arguments Ok {A} a s.
Arguments Throw {A} e s.
Arguments Undefined {A}.

Definition M (A : Type) : Type := state → result A.

#[global] Instance M_ret : MRet M := λ A a s, Ok a s.

#[global] Instance M_bind : MBind M := λ A B f m s,
  match m s with
  | Ok a s' => f a s'
  | Throw e s' => Throw e s'
  | Undefined => Undefined
  end.

Definition throw {A} (e : exn) : M A := λ s, Throw e s.
Definition undefined {A} : M A := λ _, Undefined.

(** [try { m } catch (...) { h }], the handler receiving the exception. *)
Definition try_catch {A} (m : M A) (h : exn → M A) : M A := λ s,
  match m s with
  | Throw e s' => h e s'
  | r => r
  end.

(** [try { m } catch (...) { c; throw; }]. *)
Definition try_cleanup {A} (m : M A) (c : M unit) : M A :=
  try_catch m (λ e, c;; throw e).

(** [EXPU_VERIFY_DEBUG(cond, msg)]: a violated precondition is a fatal fault,
    outside the recoverable exceptions. *)
Definition EXPU_VERIFY_DEBUG (cond : bool) : M unit :=
  if cond then mret tt else undefined.

(** The next scheduled fault decides whether a potentially-throwing operation
    throws; an exhausted schedule means no further fault. *)
Definition may_throw (e : exn) : M unit := λ s,
  match faults s with
  | true :: f => Throw e (set_faults f s)
  | false :: f => Ok tt (set_faults f s)
  | [] => Ok tt s
  end.

Definition get_heap : M (list (option block)) := λ s, Ok (heap s) s.
Definition put_heap (h : list (option block)) : M unit := λ s, Ok tt (set_heap h s).

(** ** Pointer arithmetic that can go wrong *)

(** [p - q] as a [size_type], for [q <= p] in one block. *)
Definition ptr_diff (p q : ptr) : M nat :=
  match p, q with
  | nullptr, nullptr => mret 0
  | Ptr b o, Ptr b' o' =>
      if decide (b = b' ∧ o' ≤ o) then mret (o - o') else undefined
  | _, _ => undefined
  end.

(** [p - n]. *)
Definition ptr_sub (p : ptr) (n : nat) : M ptr :=
  match p with
  | nullptr => if decide (n = 0) then mret nullptr else undefined
  | Ptr b o => if decide (n ≤ o) then mret (Ptr b (o - n)) else undefined
  end.

(** The addresses of the range [[p, q)]. *)
Definition range (p q : ptr) : M (list ptr) :=
  match p, q with
  | nullptr, nullptr => mret []
  | Ptr b o, Ptr b' o' =>
      if decide (b = b' ∧ o ≤ o') then mret (Ptr b <$> seq o (o' - o))
      else undefined
  | _, _ => undefined
  end.

(** ** Element operations *)

(** What an iterator dereferences to, or what a constructor is called with:
    a value from outside the heap (constructor arguments, an element of a
    foreign range), an lvalue element of the heap, or an rvalue (moved-from
    afterwards) element of the heap. *)
Inductive source :=
  | Val (v : T)
  | Lvalue (p : ptr)
  | Rvalue (p : ptr).

Definition read (p : ptr) : M T :=
  h ← get_heap;
  match heap_cell h p with
  | Some (Some v) => mret v
  | _ => undefined
  end.

Definition write (p : ptr) (c : cell) : M unit :=
  h ← get_heap; put_heap (heap_store h p c).

Definition fetch (x : source) : M T :=
  match x with
  | Val v => mret v
  | Lvalue p => read p
  | Rvalue p => read p
  end.

(** After a successful move the source holds a moved-from object. *)
Definition consume (x : source) (v : T) : M unit :=
  match x with
  | Rvalue p => write p (Some (moved_from v))
  | _ => mret tt
  end.

Definition construct_may_throw (x : source) : M unit :=
  match x with
  | Rvalue _ =>
      if is_nothrow_move_constructible then mret tt
      else may_throw element_exception
  | _ => may_throw element_exception
  end.

Definition assign_may_throw (x : source) : M unit :=
  match x with
  | Rvalue _ =>
      if is_nothrow_move_assignable then mret tt
      else may_throw element_exception
  | _ => may_throw element_exception
  end.

(** [_alloc_traits::construct(alloc, p, x)]: [p] must be raw storage. *)
Definition construct (p : ptr) (x : source) : M unit :=
  h ← get_heap;
  match heap_cell h p with
  | Some None =>
      v ← fetch x;
      construct_may_throw x;;
      consume x v;;
      write p (Some v)
  | _ => undefined
  end.

(** [*p = x]: [p] must hold an object. An assignment that throws leaves
    the object with what the operator had made of it by then. *)
Definition assign_elem (p : ptr) (x : source) : M unit :=
  h ← get_heap;
  match heap_cell h p with
  | Some (Some old) =>
      v ← fetch x;
      try_cleanup (assign_may_throw x)
                  (write p (Some (assign_unwind old v)));;
      consume x v;;
      write p (Some v)
  | _ => undefined
  end.

(** [_alloc_traits::destroy(alloc, p)]: [p] must hold an object. Destructors
    do not throw. *)
Definition destroy (p : ptr) : M unit :=
  h ← get_heap;
  match heap_cell h p with
  | Some (Some _) => write p None
  | _ => undefined
  end.

(** ** Allocation *)

(** [_alloc_traits::allocate(alloc, n)]: a fresh block of [n] raw cells. *)
Definition allocate (n : nat) : M ptr :=
  if decide (alloc_max_size < n) then throw bad_array_new_length
  else
    may_throw bad_alloc;;
    h ← get_heap;
    put_heap (h ++ [Some (replicate n None)]);;
    mret (Ptr (length h) 0).

(** [_alloc_traits::deallocate(alloc, p, n)]: [p] must be the start of a live
    block of [n] cells. *)
Definition deallocate (p : ptr) (n : nat) : M unit :=
  h ← get_heap;
  match p with
  | Ptr b 0 =>
      match heap_block h b with
      | Some blk =>
          if decide (length blk = n) then put_heap (<[b := None]> h)
          else undefined
      | None => undefined
      end
  | _ => undefined
  end.

(** ** Range primitives

    [expu/mem_utils.hpp] is not part of the sources at hand; its functions are
    modelled after the standard algorithms of the same names, as
    [darray.hpp] relies on them. A range of iterators is the list of what its
    iterators dereference to. *)

Fixpoint for_each {A} (f : A → M unit) (l : list A) : M unit :=
  match l with
  | [] => mret tt
  | a :: l' => f a;; for_each f l'
  end.

(** A pointer range read through plain iterators. *)
Definition lvalues (p q : ptr) : M (list source) :=
  ps ← range p q; mret (Lvalue <$> ps).

(** A pointer range read through [std::move_iterator]s. *)
Definition rvalues (p q : ptr) : M (list source) :=
  ps ← range p q; mret (Rvalue <$> ps).

(** Modelled from the spec: [destroy_range(alloc, first, last)] of
    mem_utils.hpp ("destroy-range"): destroys every element of the range. *)
Definition destroy_range (p q : ptr) : M unit :=
  ps ← range p q; for_each destroy ps.

Fixpoint uninitialised_construct (r : list source) (dest cur : ptr) : M ptr :=
  match r with
  | [] => mret cur
  | x :: r' =>
      try_cleanup (construct cur x) (destroy_range dest cur);;
      uninitialised_construct r' dest (ptr_add cur 1)
  end.

(** Modelled from the spec: [uninitialised_copy(alloc, first, last, dest)] of
    mem_utils.hpp ("uninitialized-copy"): constructs the range into raw
    storage at [dest] and returns the end of what it built; when a
    construction throws, what was built is destroyed and the exception
    propagates. *)
Definition uninitialised_copy (r : list source) (dest : ptr) : M ptr :=
  uninitialised_construct r dest dest.

(** Modelled from the spec: [uninitialised_move(alloc, first, last, dest)] of
    mem_utils.hpp ("uninitialized-move"): as [uninitialised_copy], from
    rvalues. *)
Definition uninitialised_move (p q dest : ptr) : M ptr :=
  r ← rvalues p q; uninitialised_copy r dest.

(** Modelled from the spec: [copy(first, last, dest)] of mem_utils.hpp:
    assigns the range over the objects at [dest], front to back, and returns
    the end of the destination. *)
Fixpoint copy (r : list source) (dest : ptr) : M ptr :=
  match r with
  | [] => mret dest
  | x :: r' => assign_elem dest x;; copy r' (ptr_add dest 1)
  end.

(** Modelled from the spec: [move(first, last, dest)] of mem_utils.hpp:
    as [copy], from rvalues. *)
Definition move (p q dest : ptr) : M ptr :=
  r ← rvalues p q; copy r dest.

(** Assignment back to front: [r] lists the sources last first. *)
Fixpoint assign_backward (r : list source) (d_last : ptr) : M ptr :=
  match r with
  | [] => mret d_last
  | x :: r' =>
      d ← ptr_sub d_last 1;
      assign_elem d x;;
      assign_backward r' d
  end.

(** Modelled from the spec: [backward_move(first, last, d_last)] of
    mem_utils.hpp ("backward-shift-move"): move-assigns the range so that it
    ends at [d_last], back to front; returns the start of the destination. *)
Definition backward_move (p q d_last : ptr) : M ptr :=
  r ← rvalues p q; assign_backward (reverse r) d_last.

(** Modelled from the spec: [backward_copy(first, last, d_last)] of
    mem_utils.hpp ("backward-shift-copy"). *)
Definition backward_copy (p q d_last : ptr) : M ptr :=
  r ← lvalues p q; assign_backward (reverse r) d_last.

Fixpoint copy_onto (r : list source) (ds : list ptr) {struct ds}
  : M (list source) :=
  match ds with
  | [] => mret r
  | d :: ds' =>
      match r with
      | [] => undefined
      | x :: r' => assign_elem d x;; copy_onto r' ds'
      end
  end.

(** Modelled from the spec: [copy_until_sentinel(first, d_first, d_last)] of
    mem_utils.hpp: assigns from [first] onwards over the whole destination
    range and returns the advanced source iterator. *)
Definition copy_until_sentinel (r : list source) (d_first d_last : ptr)
  : M (list source) :=
  ds ← range d_first d_last; copy_onto r ds.

(** Modelled from the spec: [_ctg_duplicate(alloc, first, last, out_first,
    capacity)] of the missing headers ("allocates new buffer of specified
    capacity, copies range into new buffer"): returns the new block, which
    the caller receives through [out_first], and the end of the copy; the
    block is released when a construction throws. *)
Definition _ctg_duplicate (r : list source) (capacity : nat) : M (ptr * ptr) :=
  new_first ← allocate capacity;
  new_last ← try_cleanup (uninitialised_copy r new_first)
                         (deallocate new_first capacity);
  mret (new_first, new_last).

Fixpoint read_all (ps : list ptr) : M (list T) :=
  match ps with
  | [] => mret []
  | p :: ps' => v ← read p; vs ← read_all ps'; mret (v :: vs)
  end.

Fixpoint write_all (ps : list ptr) (vs : list T) : M unit :=
  match ps, vs with
  | p :: ps', v :: vs' => write p (Some v);; write_all ps' vs'
  | _, _ => mret tt
  end.

(** The element moves of a rotation of the values [vs] about position [m],
    from the move numbered [k] on, [n] of them: each is a fault point, and
    the one that throws leaves the range as [rotate_unwind] has it. *)
Fixpoint rotate_steps (ps : list ptr) (m : nat) (vs : list T) (k n : nat)
  : M unit :=
  match n with
  | 0 => mret tt
  | S n' =>
      try_cleanup (may_throw element_exception)
                  (write_all ps (rotate_unwind k m vs));;
      rotate_steps ps m vs (S k) n'
  end.

(** [std::rotate(first, middle, last)], by its postcondition: the element at
    [middle] becomes the first of the range. It moves elements about by move
    construction and move assignment; when both are [noexcept] it does not
    throw. *)
Definition rotate (f m l : ptr) : M unit :=
  ps ← range f l;
  k ← ptr_diff m f;
  vs ← read_all ps;
  (if is_nothrow_move_constructible && is_nothrow_move_assignable
   then mret tt
   else rotate_steps ps k vs 0 (rotate_moves k (length vs)));;
  write_all ps (drop k vs ++ take k vs).

(** ** [size_type] arithmetic: 64 bits, wrapping *)

Definition size_t_add (a b : nat) : nat :=
  Z.to_nat ((Z.of_nat a + Z.of_nat b) mod 2 ^ 64).

Definition size_t_sub (a b : nat) : nat :=
  Z.to_nat ((Z.of_nat a - Z.of_nat b) mod 2 ^ 64).

(** ** Access to the compressed pair *)

Definition _data (this : var) : M _darray_data :=
  λ s, Ok (cpair_second (get_obj this s)) s.

Definition _alloc (this : var) : M nat :=
  λ s, Ok (cpair_first (get_obj this s)) s.

Definition set_data (this : var) (d : _darray_data) : M unit :=
  λ s, Ok tt (set_obj this (mk_darray (cpair_first (get_obj this s)) d) s).

Definition set_alloc (this : var) (a : nat) : M unit :=
  λ s, Ok tt (set_obj this (mk_darray a (cpair_second (get_obj this s))) s).

Definition set_first (this : var) (p : ptr) : M unit :=
  d ← _data this; set_data this (mk_data p (last d) (end_ d)).

Definition set_last (this : var) (p : ptr) : M unit :=
  d ← _data this; set_data this (mk_data (first d) p (end_ d)).

Definition set_end (this : var) (p : ptr) : M unit :=
  d ← _data this; set_data this (mk_data (first d) (last d) p).

(** ** Size getters *)

Definition size (this : var) : M nat :=
  d ← _data this; ptr_diff (last d) (first d).

Definition capacity (this : var) : M nat :=
  d ← _data this; ptr_diff (end_ d) (first d).

Definition max_size : M nat := mret alloc_max_size.

Definition empty (this : var) : M bool :=
  d ← _data this; mret (bool_decide (last d = first d)).

(** ** Range getters; an iterator is modelled by the pointer it wraps *)

Definition begin (this : var) : M ptr := d ← _data this; mret (first d).
Definition cbegin (this : var) : M ptr := d ← _data this; mret (first d).
Definition end' (this : var) : M ptr := d ← _data this; mret (last d).
Definition cend (this : var) : M ptr := d ← _data this; mret (last d).

Definition get_allocator (this : var) : M nat := _alloc this.

(** ** [_darray_data::steal] *)

(** [std::exchange(other.field, nullptr)] for each field in turn. *)
Definition steal (this other : var) : M unit :=
  o ← _data other; set_first other nullptr;; set_first this (first o);;
  o ← _data other; set_last other nullptr;; set_last this (last o);;
  o ← _data other; set_end other nullptr;; set_end this (end_ o).

(** ** Special constructors *)

Definition null_data : _darray_data := mk_data nullptr nullptr nullptr.

(** Initialisation of [_cpair] by a constructor. *)
Definition init_cpair (this : var) (a : nat) (d : _darray_data) : M unit :=
  λ s, Ok tt (set_obj this (mk_darray a d) s).

(** [darray()]: a default-constructed allocator is instance [0]. *)
Definition darray_default (this : var) : M unit :=
  init_cpair this 0 null_data.

(** [darray(const Alloc&)]. *)
Definition darray_alloc (this : var) (new_alloc : nat) : M unit :=
  init_cpair this new_alloc null_data.

Definition _clear_dealloc (this : var) : M unit :=
  d ← _data this;
  if decide (first d ≠ nullptr) then
    destroy_range (first d) (last d);;
    c ← capacity this;
    deallocate (first d) c
  else mret tt.

Definition _replace (this : var) (new_first new_last : ptr) (new_capacity : nat)
  : M unit :=
  _clear_dealloc this;;
  set_first this new_first;;
  set_last this new_last;;
  set_end this (ptr_add new_first new_capacity).

Definition _unallocated_assign (this : var) (r : list source) (capacity : nat)
  : M unit :=
  '(new_first, new_last) ← _ctg_duplicate r capacity;
  set_first this new_first;;
  set_last this new_last;;
  d ← _data this;
  set_end this (ptr_add (first d) capacity).

Definition _resize_assign (this : var) (alloc : nat) (r : list source)
    (new_capacity : nat) : M unit :=
  '(new_first, new_last) ← _ctg_duplicate r new_capacity;
  _replace this new_first new_last new_capacity.

(** [~darray()]. *)
Definition darray_destroy (this : var) : M unit := _clear_dealloc this.

(** The constructors that delegate to [darray(alloc)]: the object is complete
    once the target constructor has returned, so that an exception leaving
    the body of the delegating constructor runs [~darray()]. *)

(** [darray(const darray&, const Alloc&)]. *)
Definition darray_copy_alloc (this other : var) (alloc : nat) : M unit :=
  darray_alloc this alloc;;
  try_cleanup
    (o ← _data other;
     c ← capacity other;
     r ← lvalues (first o) (last o);
     _unallocated_assign this r c)
    (darray_destroy this).

(** [darray(const darray&)];
    [select_on_container_copy_construction] returns its argument. *)
Definition darray_copy (this other : var) : M unit :=
  a ← _alloc other; darray_copy_alloc this other a.

(** [darray(darray&&, const Alloc&)]. *)
Definition darray_move_alloc (this other : var) (alloc : nat) : M unit :=
  darray_alloc this alloc;;
  try_cleanup
    (a ← _alloc this;
     oa ← _alloc other;
     if negb is_always_equal && negb (a =? oa) then
       o ← _data other;
       c ← capacity other;
       r ← rvalues (first o) (last o);
       _unallocated_assign this r c
     else steal this other)
    (darray_destroy this).

(** [darray(darray&&)]. *)
Definition darray_move (this other : var) : M unit :=
  oa ← _alloc other;
  o ← _data other; set_first other nullptr;;
  let f := first o in
  o ← _data other; set_last other nullptr;;
  let l := last o in
  o ← _data other; set_end other nullptr;;
  let e := end_ o in
  init_cpair this oa (mk_data f l e).

(** ** Assignment of a multi-pass range *)

Definition _alt_alloc_assign (this : var) (alt_alloc : nat) (r : list source)
  : M unit :=
  let range_size := length r in
  c ← capacity this;
  sz ← size this;
  (* Case 1: Not enough capacity to fit new range, resize. *)
  if decide (c < range_size) then _resize_assign this alt_alloc r range_size
  (* Case 2: Enough capacity, but new range greater than size. *)
  else if decide (sz < range_size) then
    d ← _data this;
    r' ← copy_until_sentinel r (first d) (last d);
    d ← _data this;
    new_last ← uninitialised_copy r' (last d);
    set_last this new_last
  (* Case 3: New range smaller than size. *)
  else
    d ← _data this;
    new_last ← copy r (first d);
    d ← _data this;
    destroy_range new_last (last d);;
    set_last this new_last.

(** ** Erase *)

Definition erase (this : var) (first_ last_ : ptr) : M unit :=
  let naked_first := first_ in
  destroy_range naked_first last_;;
  set_last this naked_first.

(** ** Growth *)

Definition _calculate_growth (this : var) (min_capacity : nat) : M nat :=
  m ← max_size;
  if decide (m < min_capacity) then throw bad_array_new_length
  else
    sz ← size this;
    let half_size := Nat.shiftr sz 1 in
    m ← max_size;
    sz ← size this;
    if decide (size_t_sub m half_size < sz) then max_size
    else
      sz ← size this;
      mret (Nat.max min_capacity (size_t_add sz half_size)).

(** ** Emplacement *)

(** Unchecked emplace_back. *)
Definition u_emplace_back (this : var) (x : source) : M unit :=
  d ← _data this;
  EXPU_VERIFY_DEBUG (bool_decide (last d ≠ end_ d));;
  d ← _data this;
  construct (last d) x;;
  d ← _data this;
  set_last this (ptr_add (last d) 1).

Definition upush_back (this : var) (other : source) : M unit :=
  u_emplace_back this other.

Definition _reversible_uninitialised_move (p q output : ptr) : M ptr :=
  if is_nothrow_move_constructible then uninitialised_move p q output
  else r ← lvalues p q; uninitialised_copy r output.

(** [emplace(at, args...)]; [x] is what the element is constructed from. In the
    reallocating branch the handler of the second [try] block reads
    [new_last] as it stands when the exception is thrown, hence one handler
    per value the variable takes. *)
Definition emplace (this : var) (at_ : ptr) (x : source) : M ptr :=
  let naked_at := at_ in
  d ← _data this;
  if decide (last d ≠ end_ d) then
    d ← _data this;
    (if decide (naked_at = last d) then u_emplace_back this x
     else
       d ← _data this;
       before_last ← ptr_sub (last d) 1;
       (* If failure to move into uninitialised space, provide strong guarantee *)
       (if is_nothrow_move_constructible
        then u_emplace_back this (Rvalue before_last)
        else u_emplace_back this (Lvalue before_last));;
       post_at ← backward_move naked_at before_last (ptr_add before_last 1);
       destroy naked_at;;
       try_catch (construct naked_at x) (λ e,
         (* Try to move previously shifted object back one. *)
         try_catch (construct naked_at (Rvalue post_at)) (λ e',
           d ← _data this;
           destroy_range post_at (last d);;
           set_last this naked_at;;
           throw e');;
         d ← _data this;
         move (ptr_add post_at 1) (last d) post_at;;
         d ← _data this;
         l ← ptr_sub (last d) 1;
         set_last this l;;
         destroy l;;
         throw e));;
    mret naked_at
  (* Provide strong guarantee on resize *)
  else
    c ← capacity this;
    new_capacity ← _calculate_growth this (size_t_add c 1);
    new_first ← allocate new_capacity;
    d ← _data this;
    off ← ptr_diff naked_at (first d);
    let construct_at := ptr_add new_first off in
    let new_last := new_first in
    try_cleanup (construct construct_at x) (deallocate new_first new_capacity);;
    let unwind (new_last : ptr) : M unit :=
      destroy_range new_first new_last;;
      destroy construct_at;;
      deallocate new_first new_capacity in
    d ← _data this;
    new_last ←
      (if decide (naked_at = last d) then
         new_last ← try_cleanup
           (_reversible_uninitialised_move (first d) (last d) new_first)
           (unwind new_last);
         mret (ptr_add new_last 1)
       else
         new_last ← try_cleanup
           (_reversible_uninitialised_move (first d) naked_at new_first)
           (unwind new_last);
         let new_last := ptr_add new_last 1 in
         try_cleanup
           (_reversible_uninitialised_move naked_at (last d) new_last)
           (unwind new_last));
    _replace this new_first new_last new_capacity;;
    mret construct_at.

Definition emplace_back (this : var) (x : source) : M ptr :=
  e ← cend this; emplace this e x.

Definition push_back (this : var) (other : source) : M unit :=
  emplace_back this other;; mret tt.

(** ** Range constructors *)

(** [darray(InputIt first, Sentinel last, const Alloc&)], single-pass. *)
Definition darray_from_input (this : var) (r : list source) (alloc : nat)
  : M unit :=
  darray_alloc this alloc;;
  try_cleanup (for_each (λ x, emplace_back this x;; mret tt) r)
              (darray_destroy this).

(** [darray(FwdIt first, Sentinel last, const Alloc&)], multi-pass. *)
Definition darray_from_forward (this : var) (r : list source) (alloc : nat)
  : M unit :=
  darray_alloc this alloc;;
  try_cleanup (_unallocated_assign this r (length r)) (darray_destroy this).

(** ** [assign] *)

(** The first loop of case 4: overwrite while both sides have elements. *)
Fixpoint assign_overwrite (this : var) (r : list source) (new_last : ptr)
  : M (ptr * list source) :=
  d ← _data this;
  if decide (new_last = last d) then mret (new_last, r)
  else
    match r with
    | [] => mret (new_last, r)
    | x :: r' =>
        assign_elem new_last x;;
        assign_overwrite this r' (ptr_add new_last 1)
    end.

(** [assign(first, last)] for a multi-pass range. *)
Definition assign_forward (this : var) (r : list source) : M unit :=
  a ← _alloc this; _alt_alloc_assign this a r.

(** [assign(first, last)] for a single-pass range. *)
Definition assign_input (this : var) (r : list source) : M unit :=
  (* Case 4: Range size cannot be deduced *)
  d ← _data this;
  '(new_last, r') ← assign_overwrite this r (first d);
  d ← _data this;
  destroy_range new_last (last d);;
  set_last this new_last;;
  for_each (λ x, emplace_back this x;; mret tt) r'.

(** [operator=(const darray&)]. *)
Definition copy_assign (this other : var) : M unit :=
  let tail : M unit :=
    o ← _data other;
    r ← lvalues (first o) (end_ o);
    assign_forward this r in
  if propagate_on_container_copy_assignment then
    if negb is_always_equal then
      a ← _alloc this;
      oa ← _alloc other;
      if negb (a =? oa) then
        o ← _data other;
        r ← lvalues (first o) (last o);
        _alt_alloc_assign this oa r;;
        oa ← _alloc other;
        set_alloc this oa
      else
        oa ← _alloc other;
        set_alloc this oa;;
        tail
    else
      oa ← _alloc other;
      set_alloc this oa;;
      tail
  else tail.

(** [operator=(darray&&)]. A [std::move_iterator] is a single-pass iterator,
    so the element-wise branch goes through case 4 of [assign]. *)
Definition move_assign (this other : var) : M unit :=
  let steal_tail : M unit := steal this other in
  if negb propagate_on_container_move_assignment then
    if negb is_always_equal then
      a ← _alloc this;
      oa ← _alloc other;
      if negb (a =? oa) then
        o ← _data other;
        r ← rvalues (first o) (last o);
        assign_input this r
      else
        _clear_dealloc this;;
        steal_tail
    else
      _clear_dealloc this;;
      steal_tail
  else
    _clear_dealloc this;;
    oa ← _alloc other;
    set_alloc this oa;;
    steal_tail.

(** ** [insert] *)

(** [insert(at, first, last)] for a single-pass range. *)
Definition insert_input (this : var) (at_ : ptr) (r : list source) : M unit :=
  d ← _data this;
  at_index ← ptr_diff at_ (first d);
  prev_size ← size this;
  for_each (λ x, emplace_back this x;; mret tt) r;;
  (* If insertion occurs at end, do not rotate. *)
  if decide (at_index ≠ prev_size) then
    d ← _data this;
    rotate (ptr_add (first d) at_index) (ptr_add (first d) prev_size) (last d)
  else mret tt.

(** [insert(at, first, last)] for a multi-pass range. As in [emplace], a
    handler sees the local pointers as they stand when the exception is
    thrown. *)
Definition insert_forward (this : var) (at_ : ptr) (r : list source) : M unit :=
  let naked_at := at_ in
  d ← _data this;
  EXPU_VERIFY_DEBUG (ptr_leb (first d) naked_at && ptr_leb naked_at (last d));;
  let range_size := length r in
  d ← _data this;
  unused_capacity ← ptr_diff (end_ d) (last d);
  (* Avoid invalidating iterators *)
  if decide (range_size = 0) then mret tt
  (* Need to reallocate *)
  else if decide (unused_capacity < range_size) then
    sz ← size this;
    new_capacity ← _calculate_growth this (size_t_add sz range_size);
    new_first ← allocate new_capacity;
    d ← _data this;
    off ← ptr_diff naked_at (first d);
    let constructed_last := ptr_add new_first off in
    new_last ← try_cleanup (uninitialised_copy r constructed_last)
                           (deallocate new_first new_capacity);
    d ← _data this;
    try_cleanup
      (_reversible_uninitialised_move (first d) naked_at new_first)
      ((* Destroy partially constructed range *)
       destroy_range constructed_last new_last;;
       deallocate new_first new_capacity);;
    let constructed_last := new_first in
    d ← _data this;
    new_last ← try_cleanup
      (_reversible_uninitialised_move naked_at (last d) new_last)
      (destroy_range constructed_last new_last;;
       deallocate new_first new_capacity);
    _replace this new_first new_last new_capacity
  else
    d ← _data this;
    shift_count ← ptr_diff (last d) naked_at;
    new_last ←
      (* Insert range does not overlap uninitialised space. *)
      (if decide (range_size < shift_count) then
         d ← _data this;
         uninit_shift_begin ← ptr_sub (last d) range_size;
         (* Shift as many elements as possible into uninitialised space *)
         new_last ← _reversible_uninitialised_move
                      uninit_shift_begin (last d) (last d);
         (* Shift elements by assignment starting from previous last element. *)
         insert_end ←
           (if is_nothrow_move_assignable then
              backward_move naked_at uninit_shift_begin (last d)
            else
              try_catch (backward_copy naked_at uninit_shift_begin (last d))
                (λ e,
                   d ← _data this;
                   try_catch (move (last d) new_last uninit_shift_begin;; mret tt)
                     (λ e',
                        (* Provide weak-guarantee *)
                        set_last this new_last;;
                        throw e');;
                   d ← _data this;
                   destroy_range (last d) new_last;;
                   throw e));
         try_catch (copy r naked_at;; mret tt)
           (λ e,
              try_catch (move insert_end new_last naked_at;; mret tt)
                (λ e',
                   (* Provide weak-guarantee *)
                   set_last this new_last;;
                   throw e');;
              d ← _data this;
              destroy_range (last d) new_last;;
              throw e);;
         mret new_last
       else
         let uninit_shift_dest := ptr_add naked_at range_size in
         d ← _data this;
         new_last ← _reversible_uninitialised_move
                      naked_at (last d) uninit_shift_dest;
         try_catch
           ((* Assign as much as possible *)
            d ← _data this;
            r' ← copy_until_sentinel r naked_at (last d);
            (* Uninitialised copy rest *)
            d ← _data this;
            uninitialised_copy r' (last d);;
            mret tt)
           (λ e,
              try_catch (move uninit_shift_dest new_last naked_at;; mret tt)
                (λ _, (* Provide weak-guarantee. *) mret tt);;
              destroy_range uninit_shift_dest new_last;;
              throw e);;
         mret new_last);
    set_last this new_last.

(** ** Reserve and shrink *)

Definition _unchecked_grow_exactly (this : var) (new_capacity : nat) : M unit :=
  if is_nothrow_move_constructible then
    new_first ← allocate new_capacity;
    d ← _data this;
    new_last ← uninitialised_move (first d) (last d) new_first;
    _replace this new_first new_last new_capacity
  else
    a ← _alloc this;
    d ← _data this;
    r ← lvalues (first d) (end_ d);
    _resize_assign this a r new_capacity.

Definition _grow_geometric (this : var) (min_capacity : nat) : M unit :=
  c ← _calculate_growth this min_capacity;
  _unchecked_grow_exactly this c.

Definition reserve (this : var) (size_ : nat) : M unit :=
  c ← capacity this;
  if decide (c < size_) then _unchecked_grow_exactly this size_
  else mret tt.

(** The handler's [deallocate] is given the allocator it lacks in the
    source. *)
Definition shrink_to_fit (this : var) : M unit :=
  d ← _data this;
  (* In the case where no shrinking can be done, avoid invalidating iterators *)
  if decide (last d ≠ end_ d) then
    sz ← size this;
    new_first ← allocate sz;
    d ← _data this;
    new_last ← try_cleanup
      (_reversible_uninitialised_move (first d) (last d) new_first)
      (sz ← size this; deallocate new_first sz);
    sz ← size this;
    _replace this new_first new_last sz
  else mret tt.

(** ** Indexing functions; a reference is modelled by the value it denotes *)

Definition index (this : var) (i : nat) : M T :=
  sz ← size this;
  EXPU_VERIFY_DEBUG (bool_decide (i < sz));;
  d ← _data this;
  read (ptr_add (first d) i).

Definition unchecked_front (this : var) : M T :=
  e ← empty this;
  EXPU_VERIFY_DEBUG (negb e);;
  d ← _data this;
  read (first d).

Definition unchecked_back (this : var) : M T :=
  e ← empty this;
  EXPU_VERIFY_DEBUG (negb e);;
  d ← _data this;
  p ← ptr_sub (last d) 1;
  read p.

Definition front (this : var) : M T :=
  e ← empty this;
  if negb e then unchecked_front this
  else throw out_of_range.

Definition back (this : var) : M T :=
  e ← empty this;
  if negb e then unchecked_back this
  else throw out_of_range.

(** ** The public interface as data *)

(** One constructor per public member function ([this] and, where the
    function takes another container, [other] are fixed by [exec]). *)
Inductive operation :=
  | op_darray_default
  | op_darray_alloc (a : nat)
  | op_darray_copy
  | op_darray_copy_alloc (a : nat)
  | op_darray_move
  | op_darray_move_alloc (a : nat)
  | op_darray_from_input (r : list source) (a : nat)
  | op_darray_from_forward (r : list source) (a : nat)
  | op_alt_alloc_assign (a : nat) (r : list source)
  | op_assign_forward (r : list source)
  | op_assign_input (r : list source)
  | op_copy_assign
  | op_move_assign
  | op_erase (first_ last_ : ptr)
  | op_u_emplace_back (x : source)
  | op_upush_back (x : source)
  | op_emplace (at_ : ptr) (x : source)
  | op_emplace_back (x : source)
  | op_push_back (x : source)
  | op_insert_input (at_ : ptr) (r : list source)
  | op_insert_forward (at_ : ptr) (r : list source)
  | op_reserve (n : nat)
  | op_shrink_to_fit
  | op_index (i : nat)
  | op_unchecked_front
  | op_unchecked_back
  | op_front
  | op_back
  | op_size
  | op_capacity
  | op_max_size
  | op_empty
  | op_begin
  | op_end
  | op_get_allocator.

Definition exec (this other : var) (op : operation) : M unit :=
  match op with
  | op_darray_default => darray_default this
  | op_darray_alloc a => darray_alloc this a
  | op_darray_copy => darray_copy this other
  | op_darray_copy_alloc a => darray_copy_alloc this other a
  | op_darray_move => darray_move this other
  | op_darray_move_alloc a => darray_move_alloc this other a
  | op_darray_from_input r a => darray_from_input this r a
  | op_darray_from_forward r a => darray_from_forward this r a
  | op_alt_alloc_assign a r => _alt_alloc_assign this a r
  | op_assign_forward r => assign_forward this r
  | op_assign_input r => assign_input this r
  | op_copy_assign => copy_assign this other
  | op_move_assign => move_assign this other
  | op_erase a b => erase this a b
  | op_u_emplace_back x => u_emplace_back this x
  | op_upush_back x => upush_back this x
  | op_emplace a x => emplace this a x;; mret tt
  | op_emplace_back x => emplace_back this x;; mret tt
  | op_push_back x => push_back this x
  | op_insert_input a r => insert_input this a r
  | op_insert_forward a r => insert_forward this a r
  | op_reserve n => reserve this n
  | op_shrink_to_fit => shrink_to_fit this
  | op_index i => index this i;; mret tt
  | op_unchecked_front => unchecked_front this;; mret tt
  | op_unchecked_back => unchecked_back this;; mret tt
  | op_front => front this;; mret tt
  | op_back => back this;; mret tt
  | op_size => size this;; mret tt
  | op_capacity => capacity this;; mret tt
  | op_max_size => max_size;; mret tt
  | op_empty => empty this;; mret tt
  | op_begin => begin this;; mret tt
  | op_end => end' this;; mret tt
  | op_get_allocator => get_allocator this;; mret tt
  end.

(** ** Specification vocabulary *)

Definition data_of (this : var) (s : state) : _darray_data :=
  cpair_second (get_obj this s).

(** The layout invariant of [_darray_data]: [first <= last <= end], a null
    [first] forces null [last] and [end]; and the capacity stays within what
    the allocator can address. *)
Definition layout_invariant (d : _darray_data) : Prop :=
  ptr_le (first d) (last d) ∧
  ptr_le (last d) (end_ d) ∧
  (first d = nullptr → last d = nullptr ∧ end_ d = nullptr) ∧
  (∀ b o b' o', first d = Ptr b o → end_ d = Ptr b' o' →
                o' - o ≤ alloc_max_size).

(** A position [p] of the container: [begin() <= p <= end()]. *)
Definition valid_position (d : _darray_data) (p : ptr) : Prop :=
  ptr_le (first d) p ∧ ptr_le p (last d).

(** What the caller owes the operations that take iterators, beyond what the
    debug verifications check: iterators are positions of [this], an iterator
    pair is ordered, and a multi-pass range is shorter than the address
    space. *)
Definition op_valid (this : var) (op : operation) (s : state) : Prop :=
  match op with
  | op_erase a b =>
      valid_position (data_of this s) a ∧ valid_position (data_of this s) b ∧
      ptr_le a b
  | op_emplace a _ => valid_position (data_of this s) a
  | op_insert_forward _ r => (Z.of_nat (length r) < 2 ^ 63)%Z
  | _ => True
  end.

(** [holds this s l c]: container [this] owns a block of capacity [c] whose
    first [length l] cells hold the values [l] and whose other cells are raw
    storage; or it owns nothing and is empty. *)
Definition holds (this : var) (s : state) (l : list T) (c : nat) : Prop :=
  (data_of this s = null_data ∧ l = [] ∧ c = 0) ∨
  (∃ b, data_of this s = mk_data (Ptr b 0) (Ptr b (length l)) (Ptr b c) ∧
        heap_block (heap s) b
          = Some ((Some <$> l) ++ replicate (c - length l) None) ∧
        length l ≤ c ∧ c ≤ alloc_max_size).

(** The values of the live range [[first, last)], when every cell of it holds
    an object. *)
Definition contents (this : var) (s : state) : option (list T) :=
  let d := data_of this s in
  match first d, last d with
  | nullptr, nullptr => Some []
  | Ptr b o, Ptr b' o' =>
      if decide (b = b') then
        mapM (λ i, c ← heap_cell (heap s) (Ptr b i); c) (seq o (o' - o))
      else None
  | _, _ => None
  end.

(** Outcome-indexed postconditions: [wp U m s Q E] holds when running [m]
    from [s] returns a value satisfying [Q], or throws in a state satisfying
    [E]; [U] says whether leaving the defined fragment is tolerated. *)
Definition wp {A} (U : Prop) (m : M A) (s : state)
    (Q : A → state → Prop) (E : exn → state → Prop) : Prop :=
  match m s with
  | Ok a s' => Q a s'
  | Throw e s' => E e s'
  | Undefined => U
  end.

(** ** Reasoning about the container objects alone *)

(** The two container objects of a state. Operations on the heap leave them
    alone; member functions update them. *)
Definition objs : Type := darray * darray.

Definition objs_of (s : state) : objs := (objX s, objY s).

Definition pick (v : var) (o : objs) : darray :=
  match v with X => o.1 | Y => o.2 end.

Definition put (v : var) (d : darray) (o : objs) : objs :=
  match v with X => (d, o.2) | Y => (o.1, d) end.

(** [owp m o Q E]: from any state whose objects are [o], [m] returns a value
    and objects satisfying [Q] or throws with objects satisfying [E]. *)
Definition owp {A} (m : M A) (o : objs)
    (Q : A → objs → Prop) (E : exn → objs → Prop) : Prop :=
  ∀ s, objs_of s = o →
    wp True m s (λ a s', Q a (objs_of s')) (λ e s', E e (objs_of s')).

(** [frame m φ]: [m] leaves the objects alone and returns a value
    satisfying [φ]. *)
Definition frame {A} (m : M A) (φ : A → Prop) : Prop :=
  ∀ o, owp m o (λ a o', o' = o ∧ φ a) (λ _ o', o' = o).

Definition all_layout (o : objs) : Prop :=
  ∀ v, layout_invariant (cpair_second (pick v o)).

(** What the algorithms over a pointer range [[p, q)] return: the
    destination advanced by the length of the range. *)
Definition advanced (p q dest res : ptr) : Prop :=
  ∃ n, q = ptr_add p n ∧ (p = nullptr → n = 0) ∧ res = ptr_add dest n.

(** The backward algorithms return the start of the destination. *)
Definition retreated (p q d_last res : ptr) : Prop :=
  ∃ n, q = ptr_add p n ∧ (p = nullptr → n = 0) ∧ d_last = ptr_add res n.

(** [m] re-establishes the layout invariants of both objects, whether it
    returns or throws. *)
Definition keeps_layout {A} (m : M A) (o : objs) : Prop :=
  owp m o (λ _ o', all_layout o') (λ _ o', all_layout o').

(** The fault schedule: whether the next potentially-throwing operation
    throws, and the state once it has been consulted. *)
Definition throws_next (s : state) : bool :=
  match faults s with
  | true :: _ => true
  | _ => false
  end.

Definition tick (s : state) : state := set_faults (tail (faults s)) s.


(** ** Cells, pointwise *)

(** The cell a pointer designates; [None] outside the live blocks. *)
Definition cell_at (s : state) (p : ptr) : option cell := heap_cell (heap s) p.

(** The index of [x] within the range [[p, p + n)]. *)
Definition offset_in (p : ptr) (n : nat) (x : ptr) : option nat :=
  match p, x with
  | Ptr b j, Ptr b' o =>
      if decide (b = b' ∧ j ≤ o < j + n) then Some (o - j) else None
  | _, _ => None
  end.

(** [same_shape s s']: the container objects are the same and every block
    has kept its size; only cells and the fault schedule may differ. *)
Definition same_shape (s s' : state) : Prop :=
  objX s' = objX s ∧ objY s' = objY s ∧
  length (heap s') = length (heap s) ∧
  ∀ b, length <$> heap_block (heap s') b = length <$> heap_block (heap s) b.

(** [same_blocks s s']: every block has kept its size. *)
Definition same_blocks (s s' : state) : Prop :=
  length (heap s') = length (heap s) ∧
  ∀ b, length <$> heap_block (heap s') b = length <$> heap_block (heap s) b.

(** ** Runs without faults *)

(** [calm m s]: from a state [s] in which no fault is scheduled, [m] does
    not throw, and no fault is scheduled afterwards. *)
Definition calm {A} (m : M A) (s : state) : Prop :=
  faults s = [] →
  match m s with
  | Ok _ s' => faults s' = []
  | Throw _ _ => False
  | Undefined => True
  end.

(** [serene m]: [m] is calm from every state. *)
Definition serene {A} (m : M A) : Prop := ∀ s, calm m s.
End darray.

Arguments Ok {T A} a s.
Arguments Throw {T A} e s.
Arguments Undefined {T A}.
Arguments Val {T} v.
Arguments Lvalue {T} p.
Arguments Rvalue {T} p.


(** * expu::seq_iter — [include/expu/iterators/seq_iter.hpp]

    [seq_iter<IntType, DiffType>] for an unsigned [IntType] of [w] bits that
    integer promotion leaves alone, and [DiffType] the signed type of the
    same width ([std::make_signed_t<IntType>], the default). Values of
    [IntType] are the integers of [[0, 2^w)], values of [DiffType] those of
    [[-2^(w-1), 2^(w-1))]. *)
Module iterators.

(** Conversion to [IntType]: modulo [2^w]. *)
Definition to_unsigned (w z : Z) : Z := (z mod 2 ^ w)%Z.

(** Conversion of an [IntType] value to [DiffType]: the value of the same
    bit pattern. *)
Definition to_signed (w z : Z) : Z :=
  (if z <? 2 ^ (w - 1) then z else z - 2 ^ w)%Z.

Record seq_iter := mk_seq_iter { _curr : Z }.

(** [seq_iter()] and [seq_iter(IntType value)]. *)
Definition seq_iter_default : seq_iter := mk_seq_iter 0.
Definition seq_iter_value (value : Z) : seq_iter := mk_seq_iter value.

(** An iterator whose counter is a value of [IntType]. *)
Definition in_range (w : Z) (it : seq_iter) : Prop :=
  (0 ≤ _curr it < 2 ^ w)%Z.

(** [operator*]. *)
Definition deref (it : seq_iter) : Z := _curr it.

(** [operator[]]: [static_cast<value_type>(_curr + n)]. *)
Definition subscript (w : Z) (it : seq_iter) (n : Z) : Z :=
  to_unsigned w (_curr it + n).

(** [operator++()] and [operator--()]: the iterator after the call. *)
Definition pre_increment (w : Z) (it : seq_iter) : seq_iter :=
  mk_seq_iter (to_unsigned w (_curr it + 1)).

Definition pre_decrement (w : Z) (it : seq_iter) : seq_iter :=
  mk_seq_iter (to_unsigned w (_curr it - 1)).

(** [operator++(int)] and [operator--(int)]: the copy returned and the
    iterator after the call. *)
Definition post_increment (w : Z) (it : seq_iter) : seq_iter * seq_iter :=
  let copy := seq_iter_value (_curr it) in
  (copy, mk_seq_iter (to_unsigned w (_curr it + 1))).

Definition post_decrement (w : Z) (it : seq_iter) : seq_iter * seq_iter :=
  let copy := seq_iter_value (_curr it) in
  (copy, mk_seq_iter (to_unsigned w (_curr it - 1))).

(** [operator+=] and [operator-=]. *)
Definition add_assign (w : Z) (it : seq_iter) (n : Z) : seq_iter :=
  mk_seq_iter (to_unsigned w (_curr it + n)).

Definition sub_assign (w : Z) (it : seq_iter) (n : Z) : seq_iter :=
  mk_seq_iter (to_unsigned w (_curr it - n)).

(** [swap]: the two iterators after the call. *)
Definition swap (this other : seq_iter) : seq_iter * seq_iter :=
  (mk_seq_iter (_curr other), mk_seq_iter (_curr this)).

(** [operator<=>] and [operator==]. *)
Definition compare (lhs rhs : seq_iter) : comparison :=
  (deref lhs ?= deref rhs)%Z.

Definition equal (lhs rhs : seq_iter) : bool :=
  (deref lhs =? deref rhs)%Z.

(** [operator+(lhs, n)], [operator+(n, rhs)] and [operator-(lhs, n)]. *)
Definition plus (w : Z) (lhs : seq_iter) (n : Z) : seq_iter :=
  add_assign w lhs n.

Definition plus_left (w : Z) (n : Z) (rhs : seq_iter) : seq_iter :=
  add_assign w rhs n.

Definition minus (w : Z) (lhs : seq_iter) (n : Z) : seq_iter :=
  sub_assign w lhs n.

(** [operator-(lhs, rhs)]: [*lhs - *rhs], returned as a [DiffType]. *)
Definition difference (w : Z) (lhs rhs : seq_iter) : Z :=
  to_signed w (to_unsigned w (deref lhs - deref rhs)).

End iterators.

(** ** Instances and states used by the examples *)

(** An element type whose moves do not throw, such as [int]. *)
Definition trivial_element : ElementTraits nat :=
  {| moved_from := λ v, v;
     is_nothrow_move_constructible := true;
     is_nothrow_move_assignable := true;
     assign_unwind := λ old _, old;
     rotate_moves := λ _ n, n;
     rotate_unwind := λ _ _ vs, vs;
     rotate_unwind_length := λ _ _ _, eq_refl |}.

(** [std::rotate] is the library's. On pointers to elements that are not
    trivially copyable, GNU libstdc++ rotates a range of [n] elements about
    its offset [k] by exchanging pairs of elements with [std::iter_swap].
    [rotate_exchanges] lists the pairs of offsets its loop exchanges, in
    order, for the range of [n] elements at offset [p]: forwards over the
    first [n - k] elements when the left part is the shorter one, backwards
    over the last [k] ones otherwise, and then again on the part that is
    not yet in place. *)
Fixpoint rotate_exchanges (fuel p n k : nat) : list (nat * nat) :=
  match fuel with
  | 0 => []
  | S fuel' =>
      if decide (k < n - k) then
        ((λ i, (p + i, p + k + i)) <$> seq 0 (n - k)) ++
        (if decide (n mod k = 0) then []
         else rotate_exchanges fuel' (p + (n - k)) k (k - n mod k))
      else
        let k' := n - k in
        ((λ i, (p + n - k' - 1 - i, p + n - 1 - i)) <$> seq 0 (n - k')) ++
        (if decide (n mod k' = 0) then []
         else rotate_exchanges fuel' p k' (n mod k'))
  end.

(** The exchanges of [std::rotate(first, first + k, first + n)]: none when
    one of the two parts is empty, those of [std::swap_ranges] when the
    parts are equally long, and those of the loop otherwise. *)
Definition std_rotate_exchanges (k n : nat) : list (nat * nat) :=
  if decide (k = 0 ∨ k = n) then []
  else if decide (k = n - k) then (λ i, (i, k + i)) <$> seq 0 k
  else rotate_exchanges n 0 n k.

(** [std::swap(a, b)] for a type whose moves are copies:
    [T tmp(a); a = b; b = tmp;]. *)
Definition exchange (vs : list nat) (ab : nat * nat) : list nat :=
  match vs !! ab.1, vs !! ab.2 with
  | Some va, Some vb => <[ab.2 := va]> (<[ab.1 := vb]> vs)
  | _, _ => vs
  end.

(** An exchange whose operation [j] throws. When the construction of the
    temporary or the assignment to [a] throws, nothing has been written.
    When the assignment to [b] throws, [a] has the value of [b] already,
    and the temporary, which holds the old value of [a], is destroyed by
    the unwinding. *)
Definition exchange_interrupted (j : nat) (vs : list nat) (ab : nat * nat)
  : list nat :=
  match j, vs !! ab.2 with
  | 2, Some vb => <[ab.1 := vb]> vs
  | _, _ => vs
  end.

(** The range [vs] when element operation [step] of its rotation about [k]
    throws: three operations for each exchange. *)
Definition std_rotate_unwind (step k : nat) (vs : list nat) : list nat :=
  let xs := std_rotate_exchanges k (length vs) in
  let vs' := foldl exchange vs (take (step / 3) xs) in
  match xs !! (step / 3) with
  | Some ab => exchange_interrupted (step mod 3) vs' ab
  | None => vs'
  end.

Lemma exchange_length vs ab : length (exchange vs ab) = length vs.
Proof.
  unfold exchange. destruct (vs !! ab.1), (vs !! ab.2); try done.
  by rewrite !length_insert.
Qed.

Lemma foldl_exchange_length xs vs : length (foldl exchange vs xs) = length vs.
Proof.
  revert vs. induction xs as [|ab xs IH]; intros vs; [done|].
  simpl. by rewrite IH, exchange_length.
Qed.

Lemma std_rotate_unwind_length step k vs :
  length (std_rotate_unwind step k vs) = length vs.
Proof.
  unfold std_rotate_unwind.
  destruct (std_rotate_exchanges k (length vs) !! (step / 3)) as [ab|];
    [|apply foldl_exchange_length].
  unfold exchange_interrupted.
  destruct (step mod 3) as [|[|[|j]]]; try apply foldl_exchange_length.
  destruct (foldl exchange vs _ !! ab.2); [|apply foldl_exchange_length].
  by rewrite length_insert, foldl_exchange_length.
Qed.

(** An element type whose copy operations may throw and which has no move
    operations of its own: a move is a copy, and migration into a new block
    goes by copy. A copy assignment that throws leaves its target as it
    was, and [std::rotate] is the one of GNU libstdc++. *)
Definition throwing_element : ElementTraits nat :=
  {| moved_from := λ v, v;
     is_nothrow_move_constructible := false;
     is_nothrow_move_assignable := false;
     assign_unwind := λ old _, old;
     rotate_moves := λ k n, 3 * length (std_rotate_exchanges k n);
     rotate_unwind := std_rotate_unwind;
     rotate_unwind_length := std_rotate_unwind_length |}.

(** The traits of [std::allocator], with a small [max_size]. *)
Definition std_allocator : AllocTraits :=
  {| is_always_equal := true;
     propagate_on_container_copy_assignment := false;
     propagate_on_container_move_assignment := true;
     alloc_max_size := 1000;
     alloc_max_size_bound := eq_refl |}.

(** The traits of an allocator with state: two allocators may differ, and
    assignment of containers does not carry them over. *)
Definition stateful_allocator : AllocTraits :=
  {| is_always_equal := false;
     propagate_on_container_copy_assignment := false;
     propagate_on_container_move_assignment := false;
     alloc_max_size := 1000;
     alloc_max_size_bound := eq_refl |}.

(** A state whose object [X] holds the values [l] in block [0] of capacity
    [length l + spare], whose object [Y] is empty, with fault schedule
    [f]. *)
Definition state_with (l : list nat) (spare : nat) (f : list bool)
  : state (T:=nat) :=
  mk_state [Some ((Some <$> l) ++ replicate spare None)]
           (mk_darray 0 (mk_data (Ptr 0 0) (Ptr 0 (length l))
                                 (Ptr 0 (length l + spare))))
           (mk_darray 0 null_data)
           f.


(** * Proofs *)

Section proofs.
Context {T : Type} {ET : ElementTraits T} {AT : AllocTraits}.
Implicit Types (s : state (T:=T)) (p q : ptr) (d : _darray_data).
Implicit Types (r : list (source (T:=T))) (x : source (T:=T)).

(** ** Rules of the object-level logic *)

Lemma owp_ret {A} (a : A) (o : objs) (Q : A → objs → Prop) E :
  Q a o → owp (T:=T) (mret a) o Q E.
Proof. intros HQ s Hs. subst o. exact HQ. Qed.

Lemma owp_bind {A B} (m : M A) (f : A → M B) (o : objs) Q E :
  owp m o (λ a o', owp (f a) o' Q E) E → owp (T:=T) (m ≫= f) o Q E.
Proof.
  intros H s Hs. specialize (H s Hs). unfold wp, mbind, M_bind in *.
  destruct (m s) as [a s'|e s'|]; [|done..].
  by apply H.
Qed.

Lemma owp_mono {A} (m : M A) (o : objs) (Q Q' : A → objs → Prop) (E E' : exn → objs → Prop) :
  owp (T:=T) m o Q E →
  (∀ a o', Q a o' → Q' a o') → (∀ e o', E e o' → E' e o') →
  owp m o Q' E'.
Proof.
  intros H HQ HE s Hs. specialize (H s Hs). unfold wp in *.
  destruct (m s); auto.
Qed.

Lemma owp_throw {A} e (o : objs) (Q : A → objs → Prop) (E : exn → objs → Prop) :
  E e o → owp (T:=T) (throw e) o Q E.
Proof. intros HE s Hs. subst o. exact HE. Qed.

Lemma owp_undefined {A} (o : objs) (Q : A → objs → Prop) E :
  owp (T:=T) (A:=A) undefined o Q E.
Proof. by intros s _. Qed.

Lemma owp_try_catch {A} (m : M A) h (o : objs) Q E :
  owp m o Q (λ e o', owp (h e) o' Q E) → owp (T:=T) (try_catch m h) o Q E.
Proof.
  intros H s Hs. specialize (H s Hs). unfold wp, try_catch in *.
  destruct (m s) as [a s'|e s'|]; [done| |done].
  by apply H.
Qed.

Lemma owp_try_cleanup {A} (m : M A) c (o : objs) Q E :
  owp m o Q (λ e o', owp c o' (λ _ o'', E e o'') E) →
  owp (T:=T) (try_cleanup m c) o Q E.
Proof.
  intros H. apply owp_try_catch. eapply owp_mono; [exact H|done|].
  intros e o' Hc. apply owp_bind. eapply owp_mono; [exact Hc| |done].
  intros ? o'' HE. by apply owp_throw.
Qed.

Lemma owp_data this (o : objs) (Q : _darray_data → objs → Prop) E :
  Q (cpair_second (pick this o)) o → owp (T:=T) (_data this) o Q E.
Proof. intros HQ s Hs. subst o. by destruct this. Qed.

Lemma owp_alloc this (o : objs) (Q : nat → objs → Prop) E :
  Q (cpair_first (pick this o)) o → owp (T:=T) (_alloc this) o Q E.
Proof. intros HQ s Hs. subst o. by destruct this. Qed.

Lemma owp_set_data this d (o : objs) (Q : unit → objs → Prop) E :
  Q tt (put this (mk_darray (cpair_first (pick this o)) d) o) →
  owp (T:=T) (set_data this d) o Q E.
Proof. intros HQ s Hs. subst o. by destruct this. Qed.

Lemma owp_set_alloc this a (o : objs) (Q : unit → objs → Prop) E :
  Q tt (put this (mk_darray a (cpair_second (pick this o))) o) →
  owp (T:=T) (set_alloc this a) o Q E.
Proof. intros HQ s Hs. subst o. by destruct this. Qed.

Lemma owp_init_cpair this a d (o : objs) (Q : unit → objs → Prop) E :
  Q tt (put this (mk_darray a d) o) →
  owp (T:=T) (init_cpair this a d) o Q E.
Proof. intros HQ s Hs. subst o. by destruct this. Qed.

Lemma owp_frame {A} (m : M A) φ (o : objs) (Q : A → objs → Prop) (E : exn → objs → Prop) :
  frame (T:=T) m φ → (∀ a, φ a → Q a o) → (∀ e, E e o) → owp m o Q E.
Proof.
  intros Hm HQ HE. eapply owp_mono; [apply Hm| |].
  - intros a o' [-> Ha]. by apply HQ.
  - intros e o' ->. apply HE.
Qed.

(** ** Operations that leave the objects alone *)

Lemma frame_ret {A} (a : A) (φ : A → Prop) : φ a → frame (T:=T) (mret a) φ.
Proof. intros Ha o. by apply owp_ret. Qed.

Lemma frame_bind {A B} (m : M A) (f : A → M B) φ ψ :
  frame m φ → (∀ a, φ a → frame (f a) ψ) → frame (T:=T) (m ≫= f) ψ.
Proof.
  intros Hm Hf o. apply owp_bind. eapply owp_mono; [apply Hm| |done].
  intros a o' [-> Ha]. by apply Hf.
Qed.

Lemma frame_weaken {A} (m : M A) (φ ψ : A → Prop) :
  frame (T:=T) m φ → (∀ a, φ a → ψ a) → frame m ψ.
Proof.
  intros Hm Himp o. eapply owp_mono; [apply Hm| |done].
  intros a o' [-> Ha]. auto.
Qed.

Lemma frame_throw {A} e (φ : A → Prop) : frame (T:=T) (throw e) φ.
Proof. intros o. by apply owp_throw. Qed.

Lemma frame_undefined {A} (φ : A → Prop) : frame (T:=T) undefined φ.
Proof. intros o. apply owp_undefined. Qed.

Lemma frame_try_catch {A} (m : M A) h (φ : A → Prop) :
  frame m φ → (∀ e, frame (h e) φ) → frame (T:=T) (try_catch m h) φ.
Proof.
  intros Hm Hh o. apply owp_try_catch. eapply owp_mono; [apply Hm|done|].
  intros e o' ->. apply Hh.
Qed.

Lemma frame_try_cleanup {A} (m : M A) c (φ : A → Prop) (ψ : unit → Prop) :
  frame m φ → frame c ψ → frame (T:=T) (try_cleanup m c) φ.
Proof.
  intros Hm Hc. apply frame_try_catch; [done|]. intros e.
  eapply frame_bind; [exact Hc|]. intros _ _. apply frame_throw.
Qed.

Lemma frame_get_heap : frame (T:=T) get_heap (λ _, True).
Proof. by intros o s <-. Qed.

Lemma frame_put_heap h : frame (T:=T) (put_heap h) (λ _, True).
Proof. by intros o s <-. Qed.

Lemma frame_may_throw e : frame (T:=T) (may_throw e) (λ _, True).
Proof.
  intros o s <-. unfold wp, may_throw.
  destruct (faults s) as [|[] f]; done.
Qed.

Lemma frame_verify b : frame (T:=T) (EXPU_VERIFY_DEBUG b) (λ _, b = true).
Proof. destruct b; [by apply frame_ret | apply frame_undefined]. Qed.

(** ** Pointer arithmetic *)

Lemma ptr_add_0 p : ptr_add p 0 = p.
Proof. destruct p; simpl; f_equal; lia. Qed.

Lemma ptr_add_add p n m : ptr_add (ptr_add p n) m = ptr_add p (n + m).
Proof. destruct p; simpl; f_equal; lia. Qed.

Lemma ptr_le_refl p : ptr_le p p.
Proof.
  destruct p as [|b o]; [done|]. unfold ptr_le; simpl.
  apply andb_true_intro. split; [apply Nat.eqb_refl | by apply Nat.leb_le].
Qed.

Lemma ptr_le_Ptr (b o b' o' : nat) : ptr_le (Ptr b o) (Ptr b' o') ↔ b = b' ∧ o ≤ o'.
Proof.
  unfold ptr_le; simpl. rewrite andb_true_iff, Nat.eqb_eq, Nat.leb_le. done.
Qed.

Lemma frame_ptr_diff p q :
  frame (T:=T) (ptr_diff p q) (λ n, p = ptr_add q n ∧ (q = nullptr → n = 0)).
Proof.
  destruct p as [|b o], q as [|b' o']; simpl;
    try apply frame_undefined.
  - by apply frame_ret.
  - case_decide as H; [|apply frame_undefined]. destruct H as [-> H].
    apply frame_ret. split; [simpl; f_equal; lia | done].
Qed.

Lemma frame_ptr_sub p n :
  frame (T:=T) (ptr_sub p n)
    (λ res, p = ptr_add res n ∧ (p = nullptr → n = 0)).
Proof.
  destruct p as [|b o]; simpl; case_decide; try apply frame_undefined;
    apply frame_ret; split; try done.
  simpl. f_equal. lia.
Qed.

Lemma frame_range p q :
  frame (T:=T) (range p q)
    (λ ps, q = ptr_add p (length ps) ∧ (p = nullptr → length ps = 0)).
Proof.
  destruct p as [|b o], q as [|b' o']; simpl;
    try apply frame_undefined.
  - by apply frame_ret.
  - case_decide as H; [|apply frame_undefined]. destruct H as [-> H].
    apply frame_ret. rewrite length_fmap, length_seq.
    split; [simpl; f_equal; lia | done].
Qed.

Lemma frame_lvalues p q :
  frame (T:=T) (lvalues p q)
    (λ r, q = ptr_add p (length r) ∧ (p = nullptr → length r = 0)).
Proof.
  eapply frame_bind; [apply frame_range|]. intros ps [H1 H2].
  apply frame_ret. by rewrite length_fmap.
Qed.

Lemma frame_rvalues p q :
  frame (T:=T) (rvalues p q)
    (λ r, q = ptr_add p (length r) ∧ (p = nullptr → length r = 0)).
Proof.
  eapply frame_bind; [apply frame_range|]. intros ps [H1 H2].
  apply frame_ret. by rewrite length_fmap.
Qed.

(** ** Element operations and allocation *)

Lemma frame_read p : frame (T:=T) (read p) (λ _, True).
Proof.
  eapply frame_bind; [apply frame_get_heap|]. intros h _.
  destruct (heap_cell h p) as [[v|]|]; try apply frame_undefined.
  by apply frame_ret.
Qed.

Lemma frame_write p c : frame (T:=T) (write p c) (λ _, True).
Proof.
  eapply frame_bind; [apply frame_get_heap|]. intros h _. apply frame_put_heap.
Qed.

Lemma frame_fetch x : frame (T:=T) (fetch x) (λ _, True).
Proof. destruct x; simpl; [by apply frame_ret | apply frame_read..]. Qed.

Lemma frame_consume x v : frame (T:=T) (consume x v) (λ _, True).
Proof. destruct x; simpl; [by apply frame_ret..| apply frame_write]. Qed.

Lemma frame_construct_may_throw x :
  frame (T:=T) (construct_may_throw x) (λ _, True).
Proof.
  destruct x; simpl; try apply frame_may_throw.
  destruct is_nothrow_move_constructible;
    [by apply frame_ret | apply frame_may_throw].
Qed.

Lemma frame_assign_may_throw x :
  frame (T:=T) (assign_may_throw x) (λ _, True).
Proof.
  destruct x; simpl; try apply frame_may_throw.
  destruct is_nothrow_move_assignable;
    [by apply frame_ret | apply frame_may_throw].
Qed.

Lemma frame_construct p x : frame (T:=T) (construct p x) (λ _, True).
Proof.
  eapply frame_bind; [apply frame_get_heap|]. intros h _.
  destruct (heap_cell h p) as [[v|]|]; try apply frame_undefined.
  eapply frame_bind; [apply frame_fetch|]. intros v _.
  eapply frame_bind; [apply frame_construct_may_throw|]. intros _ _.
  eapply frame_bind; [apply frame_consume|]. intros _ _.
  apply frame_write.
Qed.

Lemma frame_assign_elem p x : frame (T:=T) (assign_elem p x) (λ _, True).
Proof.
  eapply frame_bind; [apply frame_get_heap|]. intros h _.
  destruct (heap_cell h p) as [[v|]|]; try apply frame_undefined.
  eapply frame_bind; [apply frame_fetch|]. intros v' _.
  eapply frame_bind.
  { eapply frame_try_cleanup; [apply frame_assign_may_throw|].
    apply frame_write. }
  intros _ _.
  eapply frame_bind; [apply frame_consume|]. intros _ _.
  apply frame_write.
Qed.

Lemma frame_destroy p : frame (T:=T) (destroy p) (λ _, True).
Proof.
  eapply frame_bind; [apply frame_get_heap|]. intros h _.
  destruct (heap_cell h p) as [[v|]|]; try apply frame_undefined.
  apply frame_write.
Qed.

Lemma frame_allocate n :
  frame (T:=T) (allocate n)
    (λ p, ∃ b, p = Ptr b 0 ∧ n ≤ alloc_max_size).
Proof.
  unfold allocate. case_decide; [apply frame_throw|].
  eapply frame_bind; [apply frame_may_throw|]. intros _ _.
  eapply frame_bind; [apply frame_get_heap|]. intros h _.
  eapply frame_bind; [apply frame_put_heap|]. intros _ _.
  apply frame_ret. eexists. split; [done | lia].
Qed.

Lemma frame_deallocate p n : frame (T:=T) (deallocate p n) (λ _, True).
Proof.
  eapply frame_bind; [apply frame_get_heap|]. intros h _.
  destruct p as [|b [|o]]; try apply frame_undefined.
  destruct (heap_block h b); [|apply frame_undefined].
  case_decide; [apply frame_put_heap | apply frame_undefined].
Qed.

(** ** Range primitives *)

Lemma frame_for_each {A} (f : A → M unit) (l : list A) :
  (∀ a, frame (f a) (λ _, True)) → frame (T:=T) (for_each f l) (λ _, True).
Proof.
  intros Hf. induction l as [|a l IH]; simpl; [by apply frame_ret|].
  eapply frame_bind; [apply Hf|]. intros _ _. exact IH.
Qed.

Lemma frame_destroy_range p q : frame (T:=T) (destroy_range p q) (λ _, True).
Proof.
  eapply frame_bind; [apply frame_range|]. intros ps _.
  apply frame_for_each, frame_destroy.
Qed.

Lemma frame_uninitialised_construct r dest cur :
  frame (T:=T) (uninitialised_construct r dest cur)
    (λ res, res = ptr_add cur (length r)).
Proof.
  revert cur. induction r as [|x r IH]; intros cur; simpl.
  - apply frame_ret. by rewrite ptr_add_0.
  - eapply frame_bind.
    { eapply frame_try_cleanup; [apply frame_construct | apply frame_destroy_range]. }
    intros _ _. eapply frame_weaken; [apply IH|].
    intros res ->. by rewrite ptr_add_add.
Qed.

Lemma frame_uninitialised_copy r dest :
  frame (T:=T) (uninitialised_copy r dest)
    (λ res, res = ptr_add dest (length r)).
Proof. apply frame_uninitialised_construct. Qed.

Lemma frame_uninitialised_move p q dest :
  frame (T:=T) (uninitialised_move p q dest) (advanced p q dest).
Proof.
  eapply frame_bind; [apply frame_rvalues|]. intros r [H1 H2].
  eapply frame_weaken; [apply frame_uninitialised_copy|].
  intros res ->. by exists (length r).
Qed.

Lemma frame_reversible_uninitialised_move p q dest :
  frame (T:=T) (_reversible_uninitialised_move p q dest) (advanced p q dest).
Proof.
  unfold _reversible_uninitialised_move.
  destruct is_nothrow_move_constructible; [apply frame_uninitialised_move|].
  eapply frame_bind; [apply frame_lvalues|]. intros r [H1 H2].
  eapply frame_weaken; [apply frame_uninitialised_copy|].
  intros res ->. by exists (length r).
Qed.

Lemma frame_copy r dest :
  frame (T:=T) (copy r dest) (λ res, res = ptr_add dest (length r)).
Proof.
  revert dest. induction r as [|x r IH]; intros dest; simpl.
  - apply frame_ret. by rewrite ptr_add_0.
  - eapply frame_bind; [apply frame_assign_elem|]. intros _ _.
    eapply frame_weaken; [apply IH|].
    intros res ->. by rewrite ptr_add_add.
Qed.

Lemma frame_move p q dest :
  frame (T:=T) (move p q dest) (advanced p q dest).
Proof.
  eapply frame_bind; [apply frame_rvalues|]. intros r [H1 H2].
  eapply frame_weaken; [apply frame_copy|].
  intros res ->. by exists (length r).
Qed.

Lemma frame_assign_backward r d_last :
  frame (T:=T) (assign_backward r d_last)
    (λ res, d_last = ptr_add res (length r)).
Proof.
  revert d_last. induction r as [|x r IH]; intros d_last; simpl.
  - apply frame_ret. by rewrite ptr_add_0.
  - eapply frame_bind; [apply frame_ptr_sub|]. intros d [-> _].
    eapply frame_bind; [apply frame_assign_elem|]. intros _ _.
    eapply frame_weaken; [apply IH|].
    intros res ->. rewrite ptr_add_add. f_equal. lia.
Qed.

Lemma frame_backward_move p q d_last :
  frame (T:=T) (backward_move p q d_last) (retreated p q d_last).
Proof.
  eapply frame_bind; [apply frame_rvalues|]. intros r [H1 H2].
  eapply frame_weaken; [apply frame_assign_backward|].
  intros res ->. exists (length r). by rewrite length_reverse.
Qed.

Lemma frame_backward_copy p q d_last :
  frame (T:=T) (backward_copy p q d_last) (retreated p q d_last).
Proof.
  eapply frame_bind; [apply frame_lvalues|]. intros r [H1 H2].
  eapply frame_weaken; [apply frame_assign_backward|].
  intros res ->. exists (length r). by rewrite length_reverse.
Qed.

Lemma frame_copy_onto r (ds : list ptr) :
  frame (T:=T) (copy_onto r ds) (λ r', length r = length ds + length r').
Proof.
  revert r. induction ds as [|d ds IH]; intros r; simpl.
  - by apply frame_ret.
  - destruct r as [|x r]; [apply frame_undefined|].
    eapply frame_bind; [apply frame_assign_elem|]. intros _ _.
    eapply frame_weaken; [apply IH|]. intros r' Hr'. simpl in *. lia.
Qed.

Lemma frame_copy_until_sentinel r d_first d_last :
  frame (T:=T) (copy_until_sentinel r d_first d_last)
    (λ r', ∃ n, d_last = ptr_add d_first n ∧ (d_first = nullptr → n = 0) ∧
                length r = n + length r').
Proof.
  eapply frame_bind; [apply frame_range|]. intros ds [H1 H2].
  eapply frame_weaken; [apply frame_copy_onto|].
  intros r' Hr'. by exists (length ds).
Qed.

Lemma frame_ctg_duplicate r capacity :
  frame (T:=T) (_ctg_duplicate r capacity)
    (λ '(new_first, new_last),
       ∃ b, new_first = Ptr b 0 ∧ new_last = Ptr b (length r) ∧
            capacity ≤ alloc_max_size).
Proof.
  eapply frame_bind; [apply frame_allocate|]. intros new_first (b & -> & Hc).
  eapply frame_bind.
  { eapply frame_try_cleanup;
      [apply frame_uninitialised_copy | apply frame_deallocate]. }
  intros new_last ->. apply frame_ret. by exists b.
Qed.

Lemma frame_read_all (ps : list ptr) : frame (T:=T) (read_all ps) (λ _, True).
Proof.
  induction ps as [|p ps IH]; simpl; [by apply frame_ret|].
  eapply frame_bind; [apply frame_read|]. intros v _.
  eapply frame_bind; [apply IH|]. intros vs _. by apply frame_ret.
Qed.

Lemma frame_write_all (ps : list ptr) (vs : list T) :
  frame (T:=T) (write_all ps vs) (λ _, True).
Proof.
  revert vs. induction ps as [|p ps IH]; intros [|v vs]; simpl;
    try by apply frame_ret.
  eapply frame_bind; [apply frame_write|]. intros _ _. apply IH.
Qed.

Lemma frame_rotate_steps ps m (vs : list T) k n :
  frame (T:=T) (rotate_steps ps m vs k n) (λ _, True).
Proof.
  revert k. induction n as [|n IH]; intros k; simpl; [by apply frame_ret|].
  eapply frame_bind; [|intros _ _; apply IH].
  eapply frame_try_cleanup; [apply frame_may_throw|apply frame_write_all].
Qed.

Lemma frame_rotate f m l : frame (T:=T) (rotate f m l) (λ _, True).
Proof.
  eapply frame_bind; [apply frame_range|]. intros ps _.
  eapply frame_bind; [apply frame_ptr_diff|]. intros k _.
  eapply frame_bind; [apply frame_read_all|]. intros vs _.
  eapply (frame_bind _ _ (λ _, True)); [|intros _ _; apply frame_write_all].
  destruct (is_nothrow_move_constructible && is_nothrow_move_assignable);
    [by apply frame_ret|apply frame_rotate_steps].
Qed.

(** ** Symbolic execution of member functions over the objects *)

Lemma size_t_add_small (a b : nat) :
  (Z.of_nat a + Z.of_nat b < 2 ^ 64)%Z → size_t_add a b = a + b.
Proof.
  intros H. unfold size_t_add. rewrite Z.mod_small by lia. lia.
Qed.

Lemma max_size_small : (Z.of_nat alloc_max_size < 2 ^ 63)%Z.
Proof. apply alloc_max_size_bound. Qed.

Lemma owp_clear_dealloc this (o : objs) (Q : unit → objs → Prop)
    (E : exn → objs → Prop) :
  Q tt o → (∀ e, E e o) → owp (T:=T) (_clear_dealloc this) o Q E.
Proof.
  intros HQ HE. unfold _clear_dealloc. apply owp_bind, owp_data.
  case_decide; [|by apply owp_ret].
  apply owp_bind.
  eapply owp_frame; [apply frame_destroy_range| |done]. intros _ _.
  apply owp_bind. unfold capacity. apply owp_bind, owp_data.
  eapply owp_frame; [apply frame_ptr_diff| |done]. intros c _.
  eapply owp_frame; [apply frame_deallocate| |done]. by intros [] _.
Qed.

Create HintDb frames discriminated.

#[local] Hint Resolve frame_ptr_diff frame_ptr_sub frame_range frame_lvalues
  frame_rvalues frame_read frame_write frame_construct frame_assign_elem
  frame_destroy frame_allocate frame_deallocate frame_destroy_range
  frame_uninitialised_copy frame_uninitialised_move
  frame_reversible_uninitialised_move frame_copy frame_move
  frame_backward_move frame_backward_copy frame_copy_until_sentinel
  frame_ctg_duplicate frame_rotate frame_verify : frames.

Ltac owp_simpl :=
  cbn [pick put fst snd cpair_first cpair_second first last end_ null_data] in *.

Ltac owp_step :=
  lazymatch goal with
  | |- owp (mret _) _ _ _ => apply owp_ret
  | |- owp (_ ≫= _) _ _ _ => apply owp_bind
  | |- owp (throw _) _ _ _ => apply owp_throw
  | |- owp undefined _ _ _ => apply owp_undefined
  | |- owp (try_cleanup _ _) _ _ _ => apply owp_try_cleanup
  | |- owp (try_catch _ _) _ _ _ => apply owp_try_catch
  | |- owp (_data _) _ _ _ => apply owp_data
  | |- owp (_alloc _) _ _ _ => apply owp_alloc
  | |- owp (set_data _ _) _ _ _ => apply owp_set_data
  | |- owp (set_alloc _ _) _ _ _ => apply owp_set_alloc
  | |- owp (init_cpair _ _ _) _ _ _ => apply owp_init_cpair
  | |- owp (set_first _ _) _ _ _ => unfold set_first
  | |- owp (set_last _ _) _ _ _ => unfold set_last
  | |- owp (set_end _ _) _ _ _ => unfold set_end
  | |- owp (size _) _ _ _ => unfold size
  | |- owp (capacity _) _ _ _ => unfold capacity
  | |- owp max_size _ _ _ => unfold max_size
  | |- owp (empty _) _ _ _ => unfold empty
  | |- owp (begin _) _ _ _ => unfold begin
  | |- owp (cbegin _) _ _ _ => unfold cbegin
  | |- owp (end' _) _ _ _ => unfold end'
  | |- owp (cend _) _ _ _ => unfold cend
  | |- owp (get_allocator _) _ _ _ => unfold get_allocator
  | |- owp (darray_destroy _) _ _ _ => unfold darray_destroy
  | |- owp (_clear_dealloc _) _ _ _ => apply owp_clear_dealloc; [|intros ?]
  | |- owp (_replace _ _ _ _) _ _ _ => unfold _replace
  | |- owp (_unallocated_assign _ _ _) _ _ _ => unfold _unallocated_assign
  | |- owp (_resize_assign _ _ _ _) _ _ _ => unfold _resize_assign
  | |- owp (_calculate_growth _ _) _ _ _ => unfold _calculate_growth
  | |- owp (u_emplace_back _ _) _ _ _ => unfold u_emplace_back
  | |- owp (upush_back _ _) _ _ _ => unfold upush_back
  | |- owp (darray_alloc _ _) _ _ _ => unfold darray_alloc
  | |- owp (darray_default _) _ _ _ => unfold darray_default
  | |- owp (if decide _ then _ else _) _ _ _ =>
      case_decide; try done; try congruence
  | |- owp (if ?b then _ else _) _ _ _ => destruct b eqn:?
  | |- owp (let '(_, _) := ?p in _) _ _ _ => destruct p
  | |- owp _ _ _ _ =>
      eapply owp_frame; [solve [eauto with frames] | intros ? ? | intros ?]
  end; owp_simpl.

Ltac owp_go := repeat owp_step.

(** Exposes the layout invariants as arithmetic on block offsets. *)
Ltac ptr_cases :=
  repeat match goal with
  | H : advanced _ _ _ _ |- _ => destruct H as (? & ? & ? & ?)
  | H : retreated _ _ _ _ |- _ => destruct H as (? & ? & ? & ?)
  | H : ∃ _, _ |- _ => destruct H
  | H : _ ∧ _ |- _ => destruct H
  | H : bool_decide _ = true |- _ => apply bool_decide_eq_true in H
  | H : ¬ (_ ≠ _) |- _ => apply dec_stable in H
  | H : _ && _ = true |- _ => apply andb_true_iff in H
  | H : ptr_leb _ _ = true |- _ => change (ptr_le _ _) in H
  end;
  subst;
  repeat match goal with
  | p : ptr |- _ => destruct p
  end;
  simpl in *; simplify_eq;
  repeat match goal with
  | H : ptr_le nullptr (Ptr _ _) |- _ => by (unfold ptr_le in H; simpl in H)
  | H : ptr_le (Ptr _ _) nullptr |- _ => by (unfold ptr_le in H; simpl in H)
  | H : ptr_le (Ptr _ _) (Ptr _ _) |- _ => apply ptr_le_Ptr in H; destruct H
  | H : ?P → _, H' : ?P |- _ => specialize (H H')
  | H : nullptr = nullptr → _ |- _ => specialize (H eq_refl)
  | H : Ptr _ _ = nullptr → _ |- _ => clear H
  | H : nullptr = Ptr _ _ → _ |- _ => clear H
  | H : _ ∧ _ |- _ => destruct H
  | H : Ptr ?b ?a ≠ Ptr ?b ?c |- _ =>
      assert (a ≠ c) by (intros ?; apply H; by f_equal); clear H
  | H : Ptr _ _ ≠ nullptr |- _ => clear H
  | H : nullptr ≠ Ptr _ _ |- _ => clear H
  | H : nullptr ≠ nullptr |- _ => by destruct H
  end;
  subst; simplify_eq.

Lemma layout_null : layout_invariant null_data.
Proof. by repeat split. Qed.

Lemma layout_block (b o l e : nat) :
  o ≤ l → l ≤ e → e - o ≤ alloc_max_size →
  layout_invariant (mk_data (Ptr b o) (Ptr b l) (Ptr b e)).
Proof.
  intros. repeat split; simpl; try by apply ptr_le_Ptr.
  - done.
  - done.
  - intros ???? [= <- <-] [= <- <-]. done.
Qed.

Lemma layout_cases (d : _darray_data) :
  layout_invariant d →
  d = null_data ∨
  ∃ b o l e, d = mk_data (Ptr b o) (Ptr b l) (Ptr b e) ∧
             o ≤ l ∧ l ≤ e ∧ e - o ≤ alloc_max_size.
Proof.
  destruct d as [[|b o] [|b1 l] [|b2 e]]; intros (H1 & H2 & H3 & H4);
    unfold ptr_le in *; simpl in *; try discriminate.
  - by left.
  - apply ptr_le_Ptr in H1 as [<- ?]. apply ptr_le_Ptr in H2 as [<- ?].
    right. exists b, o, l, e. repeat split; try done. by eapply H4.
Qed.

(** Splits the invariant of an object into its null and block forms. *)
Ltac layout_split H :=
  apply layout_cases in H as [-> | (? & ? & ? & ? & -> & ? & ? & ?)].

(** Fixes which object is [this] and splits its invariant. *)
Ltac layout_start H this :=
  match type of H with
  | all_layout ?o =>
      let HX := fresh "HX" in
      let HY := fresh "HY" in
      destruct o as [[? ?] [? ?]];
      pose proof (H X) as HX; pose proof (H Y) as HY; clear H;
      destruct this; owp_simpl;
      [layout_split HX | layout_split HY]
  end.

(** The same when a second object takes part. *)
Ltac layout_start2 H this other :=
  match type of H with
  | all_layout ?o =>
      let HX := fresh "HX" in
      let HY := fresh "HY" in
      destruct o as [[? ?] [? ?]];
      pose proof (H X) as HX; pose proof (H Y) as HY; clear H;
      destruct this, other; owp_simpl;
      [layout_split HX | layout_split HX; layout_split HY
      |layout_split HX; layout_split HY | layout_split HY]
  end.

Ltac layout_arith :=
  pose proof max_size_small;
  repeat match goal with
  | H : context [size_t_add _ _] |- _ => rewrite size_t_add_small in H by lia
  | |- context [size_t_add _ _] => rewrite size_t_add_small by lia
  end;
  lia.

Ltac layout_done :=
  ptr_cases;
  let v := fresh "v" in
  intros v; destruct v; owp_simpl; simpl;
  first [ assumption | apply layout_null | apply layout_block; layout_arith ].

Ltac layout_auto := owp_go; try layout_done.

Lemma erase_keeps_layout this (a b : ptr) (o : objs) :
  all_layout o →
  valid_position (cpair_second (pick this o)) a →
  valid_position (cpair_second (pick this o)) b →
  ptr_le a b →
  keeps_layout (T:=T) (erase this a b) o.
Proof.
  intros H [Ha1 Ha2] [Hb1 Hb2] Hab. unfold keeps_layout, erase.
  layout_start H this; layout_auto.
Qed.

Lemma u_emplace_back_keeps_layout this x (o : objs) :
  all_layout o → keeps_layout (T:=T) (u_emplace_back this x) o.
Proof.
  intros H. unfold keeps_layout.
  layout_start H this; layout_auto.
Qed.

Lemma emplace_keeps_layout this (at_ : ptr) x (o : objs) :
  all_layout o →
  valid_position (cpair_second (pick this o)) at_ →
  keeps_layout (T:=T) (emplace this at_ x) o.
Proof.
  intros H [Ha1 Ha2]. unfold keeps_layout, emplace.
  layout_start H this; layout_auto.
Qed.

Lemma all_layout_valid_end this (o : objs) :
  all_layout o →
  valid_position (cpair_second (pick this o))
                 (last (cpair_second (pick this o))).
Proof.
  intros H. destruct (H this) as (H1 & _). split; [done | apply ptr_le_refl].
Qed.

Lemma emplace_back_keeps_layout this x (o : objs) :
  all_layout o → keeps_layout (T:=T) (emplace_back this x) o.
Proof.
  intros H. unfold keeps_layout, emplace_back. owp_go.
  by apply emplace_keeps_layout, all_layout_valid_end.
Qed.

Lemma push_back_keeps_layout this x (o : objs) :
  all_layout o → keeps_layout (T:=T) (push_back this x) o.
Proof.
  intros H. unfold keeps_layout, push_back. apply owp_bind.
  eapply owp_mono; [by apply emplace_back_keeps_layout| |done].
  intros ? o' H'. by apply owp_ret.
Qed.

Lemma for_each_emplace_back_keeps_layout this r (o : objs) :
  all_layout o →
  keeps_layout (T:=T) (for_each (λ x, emplace_back this x;; mret tt) r) o.
Proof.
  revert o. induction r as [|x r IH]; intros o H; unfold keeps_layout; simpl.
  - by apply owp_ret.
  - apply owp_bind. apply owp_bind.
    eapply owp_mono; [by apply emplace_back_keeps_layout| |done].
    intros ? o' H'. apply owp_ret. by apply IH.
Qed.

Lemma all_layout_set_alloc this a (o : objs) :
  all_layout o →
  all_layout (put this (mk_darray a (cpair_second (pick this o))) o).
Proof.
  intros H v. specialize (H v). by destruct this, v.
Qed.

Lemma alt_alloc_assign_keeps_layout this a r (o : objs) :
  all_layout o → keeps_layout (T:=T) (_alt_alloc_assign this a r) o.
Proof.
  intros H. unfold keeps_layout, _alt_alloc_assign.
  layout_start H this; layout_auto.
Qed.

Lemma assign_forward_keeps_layout this r (o : objs) :
  all_layout o → keeps_layout (T:=T) (assign_forward this r) o.
Proof.
  intros H. unfold keeps_layout, assign_forward.
  apply owp_bind, owp_alloc. by apply alt_alloc_assign_keeps_layout.
Qed.

(** The overwriting loop of [assign] stops between where it starts and
    [last]. *)
Lemma owp_assign_overwrite this r (p : ptr) (o : objs)
    (Q : ptr * list source → objs → Prop) (E : exn → objs → Prop) :
  ptr_le p (last (cpair_second (pick this o))) →
  (∀ nl r', ptr_le p nl → ptr_le nl (last (cpair_second (pick this o))) →
            Q (nl, r') o) →
  (∀ e, E e o) →
  owp (T:=T) (assign_overwrite this r p) o Q E.
Proof.
  revert p. induction r as [|x r IH]; intros p Hp HQ HE; simpl.
  - apply owp_bind, owp_data. case_decide as Heq.
    + apply owp_ret. apply HQ; [apply ptr_le_refl | done].
    + apply owp_ret. apply HQ; [apply ptr_le_refl | done].
  - apply owp_bind, owp_data. case_decide as Heq.
    + apply owp_ret. apply HQ; [apply ptr_le_refl | done].
    + apply owp_bind.
      eapply owp_frame; [apply frame_assign_elem| |done]. intros _ _.
      destruct p as [|b i], (last (cpair_second (pick this o))) as [|b' l] eqn:El;
        try done.
      apply ptr_le_Ptr in Hp as [<- Hp].
      assert (i ≠ l) by congruence.
      apply IH.
      * apply ptr_le_Ptr. split; [done | lia].
      * intros nl r' H1 H2. apply HQ; [|done].
        destruct nl as [|bn n]; [done|].
        apply ptr_le_Ptr in H1 as [<- H1]. apply ptr_le_Ptr. split; [done | lia].
      * done.
Qed.

Lemma assign_input_keeps_layout this r (o : objs) :
  all_layout o → keeps_layout (T:=T) (assign_input this r) o.
Proof.
  intros H. unfold keeps_layout, assign_input.
  apply owp_bind, owp_data. apply owp_bind.
  apply owp_assign_overwrite; [by destruct (H this)| |done].
  intros nl r' H1 H2.
  layout_start H this; owp_go;
    try (apply for_each_emplace_back_keeps_layout); layout_done.
Qed.

Lemma insert_input_keeps_layout this (at_ : ptr) r (o : objs) :
  all_layout o → keeps_layout (T:=T) (insert_input this at_ r) o.
Proof.
  intros H. unfold keeps_layout, insert_input.
  apply owp_bind, owp_data. apply owp_bind.
  eapply owp_frame; [apply frame_ptr_diff| |done]. intros at_index _.
  apply owp_bind. unfold size. apply owp_bind, owp_data.
  eapply owp_frame; [apply frame_ptr_diff| |done]. intros prev_size _.
  apply owp_bind.
  eapply owp_mono; [by apply for_each_emplace_back_keeps_layout| |done].
  intros ? o' H'. owp_go; done.
Qed.

Lemma darray_from_input_keeps_layout this r a (o : objs) :
  all_layout o → keeps_layout (T:=T) (darray_from_input this r a) o.
Proof.
  intros H. unfold keeps_layout, darray_from_input.
  owp_go. eapply owp_mono.
  - apply for_each_emplace_back_keeps_layout.
    destruct o as [[? ?] [? ?]].
    pose proof (H X); pose proof (H Y).
    intros v; destruct this, v; owp_simpl; done || apply layout_null.
  - done.
  - intros e o' Ho'. owp_go; done.
Qed.

Lemma copy_assign_keeps_layout this other (o : objs) :
  all_layout o → keeps_layout (T:=T) (copy_assign this other) o.
Proof.
  intros H. unfold keeps_layout, copy_assign.
  owp_go; try done; try (by apply all_layout_set_alloc);
    try (apply assign_forward_keeps_layout; by try apply all_layout_set_alloc).
  eapply owp_mono; [by apply alt_alloc_assign_keeps_layout| |done].
  intros ? o' H'. owp_go; try done. by apply all_layout_set_alloc.
Qed.

Lemma steal_keeps_layout this other (o : objs) :
  all_layout o → keeps_layout (T:=T) (steal this other) o.
Proof.
  intros H. unfold keeps_layout, steal.
  destruct o as [[ax [fx lx ex]] [ay [fy ly ey]]].
  pose proof (H X) as HX. pose proof (H Y) as HY.
  destruct this, other; owp_go;
    intros []; owp_simpl; done || apply layout_null.
Qed.

Lemma move_assign_keeps_layout this other (o : objs) :
  all_layout o → keeps_layout (T:=T) (move_assign this other) o.
Proof.
  intros H. unfold keeps_layout, move_assign.
  owp_go;
    lazymatch goal with
    | |- owp (assign_input _ _) _ _ _ => by apply assign_input_keeps_layout
    | |- owp (steal _ _) _ _ _ =>
        apply steal_keeps_layout; assumption || by apply all_layout_set_alloc
    | |- all_layout _ => assumption
    end.
Qed.

Lemma darray_default_keeps_layout this (o : objs) :
  all_layout o → keeps_layout (T:=T) (darray_default this) o.
Proof.
  intros H. unfold keeps_layout. layout_start H this; layout_auto.
Qed.

Lemma darray_alloc_keeps_layout this a (o : objs) :
  all_layout o → keeps_layout (T:=T) (darray_alloc this a) o.
Proof.
  intros H. unfold keeps_layout. layout_start H this; layout_auto.
Qed.

Lemma darray_copy_alloc_keeps_layout this other a (o : objs) :
  all_layout o → keeps_layout (T:=T) (darray_copy_alloc this other a) o.
Proof.
  intros H. unfold keeps_layout, darray_copy_alloc.
  layout_start2 H this other; layout_auto.
Qed.

Lemma darray_copy_keeps_layout this other (o : objs) :
  all_layout o → keeps_layout (T:=T) (darray_copy this other) o.
Proof.
  intros H. unfold keeps_layout, darray_copy. owp_go.
  by apply darray_copy_alloc_keeps_layout.
Qed.

Lemma darray_move_alloc_keeps_layout this other a (o : objs) :
  all_layout o → keeps_layout (T:=T) (darray_move_alloc this other a) o.
Proof.
  intros H. unfold keeps_layout, darray_move_alloc.
  owp_go;
    lazymatch goal with
    | |- owp (steal _ _) _ _ _ => apply steal_keeps_layout
    | |- _ => idtac
    end.
  all: layout_start2 H this other; layout_auto.
Qed.

Lemma darray_move_keeps_layout this other (o : objs) :
  all_layout o → keeps_layout (T:=T) (darray_move this other) o.
Proof.
  intros H. unfold keeps_layout, darray_move.
  layout_start2 H this other; layout_auto.
Qed.

Lemma darray_from_forward_keeps_layout this r a (o : objs) :
  all_layout o → keeps_layout (T:=T) (darray_from_forward this r a) o.
Proof.
  intros H. unfold keeps_layout, darray_from_forward.
  layout_start H this; layout_auto.
Qed.

Lemma reserve_keeps_layout this n (o : objs) :
  all_layout o → keeps_layout (T:=T) (reserve this n) o.
Proof.
  intros H. unfold keeps_layout, reserve, _unchecked_grow_exactly.
  layout_start H this; layout_auto.
Qed.

Lemma shrink_to_fit_keeps_layout this (o : objs) :
  all_layout o → keeps_layout (T:=T) (shrink_to_fit this) o.
Proof.
  intros H. unfold keeps_layout, shrink_to_fit.
  layout_start H this; layout_auto.
Qed.

Lemma index_keeps_layout this i (o : objs) :
  all_layout o → keeps_layout (T:=T) (index this i) o.
Proof. intros H. unfold keeps_layout, index. owp_go; assumption. Qed.

Lemma unchecked_front_keeps_layout this (o : objs) :
  all_layout o → keeps_layout (T:=T) (unchecked_front this) o.
Proof. intros H. unfold keeps_layout, unchecked_front. owp_go; assumption. Qed.

Lemma unchecked_back_keeps_layout this (o : objs) :
  all_layout o → keeps_layout (T:=T) (unchecked_back this) o.
Proof. intros H. unfold keeps_layout, unchecked_back. owp_go; assumption. Qed.

Lemma front_keeps_layout this (o : objs) :
  all_layout o → keeps_layout (T:=T) (front this) o.
Proof.
  intros H. unfold keeps_layout, front, unchecked_front. owp_go; assumption.
Qed.

Lemma back_keeps_layout this (o : objs) :
  all_layout o → keeps_layout (T:=T) (back this) o.
Proof.
  intros H. unfold keeps_layout, back, unchecked_back. owp_go; assumption.
Qed.

Lemma insert_forward_keeps_layout this (at_ : ptr) r (o : objs) :
  all_layout o → (Z.of_nat (length r) < 2 ^ 63)%Z →
  keeps_layout (T:=T) (insert_forward this at_ r) o.
Proof.
  intros H Hr. unfold keeps_layout, insert_forward.
  layout_start H this; layout_auto.
Qed.

Lemma keeps_layout_discard {A} (m : M A) (o : objs) :
  keeps_layout (T:=T) m o → keeps_layout (m;; mret tt) o.
Proof.
  intros H. unfold keeps_layout. apply owp_bind.
  eapply owp_mono; [exact H| |done]. intros ? o' H'. by apply owp_ret.
Qed.

Lemma all_layout_data s :
  (∀ v, layout_invariant (data_of v s)) ↔ all_layout (objs_of s).
Proof. split; intros H v; specialize (H v); by destruct v. Qed.

Lemma exec_keeps_layout this other op (o : objs) :
  all_layout o →
  (∀ s, objs_of s = o → op_valid (T:=T) this op s) →
  keeps_layout (exec this other op) o.
Proof.
  intros H Hv.
  assert (Hs : ∃ s : state (T:=T), objs_of s = o).
  { by exists (mk_state [] o.1 o.2 []); destruct o. }
  destruct Hs as [s0 Hs0]. specialize (Hv s0 Hs0).
  assert (Hd : data_of this s0 = cpair_second (pick this o)).
  { subst o. by destruct this. }
  destruct op; simpl in *.
  - by apply darray_default_keeps_layout.
  - by apply darray_alloc_keeps_layout.
  - by apply darray_copy_keeps_layout.
  - by apply darray_copy_alloc_keeps_layout.
  - by apply darray_move_keeps_layout.
  - by apply darray_move_alloc_keeps_layout.
  - by apply darray_from_input_keeps_layout.
  - by apply darray_from_forward_keeps_layout.
  - by apply alt_alloc_assign_keeps_layout.
  - by apply assign_forward_keeps_layout.
  - by apply assign_input_keeps_layout.
  - by apply copy_assign_keeps_layout.
  - by apply move_assign_keeps_layout.
  - rewrite Hd in Hv. destruct Hv as (? & ? & ?). by apply erase_keeps_layout.
  - by apply u_emplace_back_keeps_layout.
  - by apply u_emplace_back_keeps_layout.
  - rewrite Hd in Hv. by apply keeps_layout_discard, emplace_keeps_layout.
  - by apply keeps_layout_discard, emplace_back_keeps_layout.
  - by apply push_back_keeps_layout.
  - by apply insert_input_keeps_layout.
  - by apply insert_forward_keeps_layout.
  - by apply reserve_keeps_layout.
  - by apply shrink_to_fit_keeps_layout.
  - by apply keeps_layout_discard, index_keeps_layout.
  - by apply keeps_layout_discard, unchecked_front_keeps_layout.
  - by apply keeps_layout_discard, unchecked_back_keeps_layout.
  - by apply keeps_layout_discard, front_keeps_layout.
  - by apply keeps_layout_discard, back_keeps_layout.
  - unfold keeps_layout. owp_go; assumption.
  - unfold keeps_layout. owp_go; assumption.
  - unfold keeps_layout. owp_go; assumption.
  - unfold keeps_layout. owp_go; assumption.
  - unfold keeps_layout. owp_go; assumption.
  - unfold keeps_layout. owp_go; assumption.
  - unfold keeps_layout. owp_go; assumption.
Qed.

(** C4. Every public operation of [darray], run on objects that satisfy the
    layout invariant ([first <= last <= end]; null [first] forces null [last]
    and [end]; capacity within [max_size]) with iterator arguments that are
    positions of the container, leaves both objects satisfying it, whether
    the operation returns or throws. *)
Theorem public_operations_preserve_layout this other op s :
  (∀ v, layout_invariant (data_of v s)) →
  op_valid (T:=T) this op s →
  match exec this other op s with
  | Ok _ s' | Throw _ s' => ∀ v, layout_invariant (data_of v s')
  | Undefined => True
  end.
Proof.
  intros H Hv. apply all_layout_data in H.
  assert (Hk : keeps_layout (exec this other op) (objs_of s)).
  { apply exec_keeps_layout; [done|]. intros s' Hs'.
    destruct op; simpl in *; try done.
    - replace (data_of this s') with (data_of this s); [done|].
      unfold data_of, objs_of in *. injection Hs' as HX HY.
      destruct this; simpl; congruence.
    - replace (data_of this s') with (data_of this s); [done|].
      unfold data_of, objs_of in *. injection Hs' as HX HY.
      destruct this; simpl; congruence. }
  specialize (Hk s eq_refl). unfold wp in Hk.
  destruct (exec this other op s); [| |done]; by apply all_layout_data.
Qed.

(** ** Running the monad *)

Arguments read : simpl never.
Arguments write : simpl never.
Arguments construct : simpl never.
Arguments assign_elem : simpl never.
Arguments destroy : simpl never.
Arguments allocate : simpl never.
Arguments deallocate : simpl never.
Arguments destroy_range : simpl never.
Arguments may_throw : simpl never.

Lemma bind_ok {A B} (m : M A) (f : A → M B) s a s' :
  m s = Ok a s' → (m ≫= f) s = f a s'.
Proof. intros H. unfold mbind, M_bind. by rewrite H. Qed.

Lemma bind_throw {A B} (m : M A) (f : A → M B) s e s' :
  m s = Throw e s' → (m ≫= f) s = Throw e s'.
Proof. intros H. unfold mbind, M_bind. by rewrite H. Qed.

Lemma size_t_sub_small (a b : nat) :
  b ≤ a → (Z.of_nat a < 2 ^ 64)%Z → size_t_sub a b = a - b.
Proof.
  intros H1 H2. unfold size_t_sub. rewrite Z.mod_small by lia. lia.
Qed.

(** C5. With [sz] the size of the container, at most [max_size()]:
    [_calculate_growth(min_capacity)] throws [bad_array_new_length] when
    [max_size() < min_capacity]; otherwise it returns [max_size()] when
    [sz + sz/2] exceeds [max_size()], and [max(min_capacity, sz + sz/2)]
    when it does not; the state is left as it was. *)
Theorem calculate_growth_spec this s (sz min_capacity : nat) :
  size (T:=T) this s = Ok sz s →
  sz ≤ alloc_max_size →
  _calculate_growth this min_capacity s =
    if decide (alloc_max_size < min_capacity)
    then Throw bad_array_new_length s
    else if decide (alloc_max_size < sz + sz / 2)
         then Ok alloc_max_size s
         else Ok (Nat.max min_capacity (sz + sz / 2)) s.
Proof.
  intros Hsz Hle. pose proof max_size_small as Hmax.
  unfold _calculate_growth, max_size.
  rewrite (bind_ok (mret alloc_max_size) _ s alloc_max_size s) by done.
  case_decide as Hmin; [done|].
  rewrite (bind_ok _ _ _ _ _ Hsz).
  rewrite (bind_ok (mret alloc_max_size) _ s alloc_max_size s) by done.
  rewrite (bind_ok _ _ _ _ _ Hsz).
  rewrite Nat.shiftr_div_pow2. change (2 ^ 1) with 2.
  assert (Hhalf : sz / 2 ≤ sz) by (apply Nat.Div0.div_le_upper_bound; lia).
  rewrite size_t_sub_small by lia.
  case_decide as H1; case_decide as H2; try lia; [done|].
  rewrite (bind_ok _ _ _ _ _ Hsz).
  rewrite size_t_add_small by lia. done.
Qed.

(** ** Containers that hold a list of values *)

Lemma holds_data this s (l : list T) c :
  holds this s l c →
  (l = [] ∧ c = 0 ∧ data_of this s = null_data) ∨
  ∃ b, data_of this s = mk_data (Ptr b 0) (Ptr b (length l)) (Ptr b c) ∧
       heap_block (heap s) b
         = Some ((Some <$> l) ++ replicate (c - length l) None) ∧
       length l ≤ c ∧ c ≤ alloc_max_size.
Proof. intros [(? & ? & ?)|H]; [by left | by right]. Qed.

Lemma data_run this s : _data (T:=T) this s = Ok (data_of this s) s.
Proof. done. Qed.

Lemma read_live s b i (blk : list (option T)) (v : T) :
  heap_block (heap s) b = Some blk → blk !! i = Some (Some v) →
  read (Ptr b i) s = Ok v s.
Proof.
  intros Hb Hi. unfold read, get_heap, mbind, M_bind, heap_cell.
  rewrite Hb. simpl. by rewrite Hi.
Qed.

(** C6. On a container holding the values [l], [front()] and [back()] throw
    [out_of_range] exactly when [l] is empty, and otherwise return the first
    and the last value of [l]; in every case the state is left as it was. *)
Theorem front_back_spec this s (l : list T) c :
  holds this s l c →
  front this s = match l with
                 | [] => Throw out_of_range s
                 | v :: _ => Ok v s
                 end ∧
  back this s = match reverse l with
                | [] => Throw out_of_range s
                | v :: _ => Ok v s
                end.
Proof.
  intros H. apply holds_data in H as [(-> & -> & Hd)|(b & Hd & Hb & Hlc & Hc)];
    unfold data_of in Hd;
    unfold front, back, unchecked_front, unchecked_back, empty, _data,
      mbind, M_bind; simpl; rewrite ?Hd; simpl.
  - split; reflexivity.
  - destruct l as [|v l]; simpl.
    { rewrite bool_decide_eq_true_2 by done. split; reflexivity. }
    repeat (rewrite bool_decide_eq_false_2 by done; simpl; rewrite ?Hd; simpl).
    split.
    + by erewrite read_live.
    + destruct (reverse (v :: l)) as [|w l'] eqn:Hrev.
      { apply (f_equal length) in Hrev. rewrite length_reverse in Hrev. done. }
      assert (Hw : (v :: l) !! length l = Some w).
      { pose proof (head_reverse (v :: l)) as Hh. rewrite Hrev in Hh.
        rewrite last_lookup in Hh. done. }
      replace (length l - 0) with (length l) by lia.
      erewrite read_live; [done|exact Hb|].
      rewrite lookup_app_l by (rewrite length_fmap; simpl; lia).
      by rewrite list_lookup_fmap, Hw.
Qed.

(** C10. Inserting an empty multi-pass range at a position of the container
    returns without any effect: the whole state (both objects, every block
    of the heap and the fault schedule) is what it was. *)
Theorem insert_forward_empty this s (at_ : ptr) :
  valid_position (data_of this s) at_ →
  ptr_le (last (data_of this s)) (end_ (data_of this s)) →
  insert_forward (T:=T) this at_ [] s = Ok tt s.
Proof.
  intros [H1 H2] H3. unfold insert_forward, _data, mbind, M_bind.
  unfold data_of, ptr_le in *. rewrite H1, H2. simpl.
  destruct (last (cpair_second (get_obj this s))) as [|b l],
           (end_ (cpair_second (get_obj this s))) as [|b' e];
    try done; simpl.
  apply ptr_le_Ptr in H3 as [-> H3].
  by rewrite decide_True.
Qed.

(** ** The heap *)

Lemma heap_block_lt (h : list (option (list (option T)))) b blk :
  heap_block h b = Some blk → b < length h.
Proof.
  unfold heap_block. destruct (h !! b) as [[?|]|] eqn:E; try done.
  intros _. by eapply lookup_lt_Some.
Qed.

Lemma heap_block_lookup (h : list (option (list (option T)))) b blk :
  heap_block h b = Some blk ↔ h !! b = Some (Some blk).
Proof.
  unfold heap_block. destruct (h !! b) as [[?|]|]; split; congruence.
Qed.

Lemma heap_block_insert_eq (h : list (option (list (option T)))) b blk :
  b < length h → heap_block (<[b := Some blk]> h) b = Some blk.
Proof.
  intros H. apply heap_block_lookup. by apply list_lookup_insert_eq.
Qed.

Lemma heap_block_insert_ne (h : list (option (list (option T)))) b b'
    (x : option (list (option T))) :
  b ≠ b' → heap_block (<[b := x]> h) b' = heap_block h b'.
Proof.
  intros H. unfold heap_block. by rewrite list_lookup_insert_ne.
Qed.

Lemma heap_block_app_new (h : list (option (list (option T)))) blk :
  heap_block (h ++ [Some blk]) (length h) = Some blk.
Proof. apply heap_block_lookup. by apply list_lookup_middle. Qed.

Lemma heap_block_app_old (h : list (option (list (option T))))
    (x : option (list (option T))) b blk :
  heap_block h b = Some blk → heap_block (h ++ [x]) b = Some blk.
Proof.
  intros H. apply heap_block_lookup. apply heap_block_lookup in H.
  by apply lookup_app_l_Some.
Qed.

Lemma get_obj_set_heap v h s : get_obj v (set_heap h s) = get_obj v s.
Proof. by destruct v. Qed.

Lemma get_obj_tick v s : get_obj v (tick s) = get_obj v s.
Proof. by destruct v. Qed.

Lemma state_eta s : mk_state (heap s) (objX s) (objY s) (faults s) = s.
Proof. by destruct s. Qed.

Lemma set_heap_id s : set_heap (heap s) s = s.
Proof. by destruct s. Qed.

Lemma may_throw_run e s :
  may_throw e s = if throws_next s then Throw e (tick s) else Ok tt (tick s).
Proof.
  unfold may_throw, throws_next, tick. destruct s as [h dx dy [|[] f]]; done.
Qed.

Lemma write_run s p (c : option T) :
  write p c s = Ok tt (set_heap (heap_store (heap s) p c) s).
Proof. done. Qed.

Lemma heap_store_block (h : list (option (list (option T)))) b i blk c :
  heap_block h b = Some blk →
  heap_store h (Ptr b i) c = <[b := Some (<[i := c]> blk)]> h.
Proof. intros H. unfold heap_store. by rewrite H. Qed.

Lemma destroy_run s b i (blk : list (option T)) v :
  heap_block (heap s) b = Some blk → blk !! i = Some (Some v) →
  destroy (Ptr b i) s
  = Ok tt (set_heap (<[b := Some (<[i := None]> blk)]> (heap s)) s).
Proof.
  intros Hb Hi. unfold destroy, get_heap, mbind, M_bind, heap_cell.
  rewrite Hb. simpl. rewrite Hi. rewrite write_run.
  by erewrite heap_store_block.
Qed.

Lemma range_run s b i n :
  range (T:=T) (Ptr b i) (Ptr b (i + n)) s = Ok (Ptr b <$> seq i n) s.
Proof.
  unfold range. rewrite decide_True by (split; [done | lia]).
  by replace (i + n - i) with n by lia.
Qed.

Lemma replicate_cons_middle {A} k (x : A) (l : list A) :
  replicate k x ++ x :: l = x :: replicate k x ++ l.
Proof. induction k as [|k IH]; simpl; [done|]. by rewrite IH. Qed.

(** Destroying the objects that follow [k] destroyed cells. *)
Lemma destroy_cells_run s b k (pre : list T) (tail : list (option T)) :
  heap_block (heap s) b = Some (replicate k None ++ (Some <$> pre) ++ tail) →
  for_each destroy (Ptr b <$> seq k (length pre)) s
  = Ok tt (set_heap (<[b := Some (replicate (k + length pre) None ++ tail)]>
                       (heap s)) s).
Proof.
  revert k s. induction pre as [|v pre IH]; intros k s Hb; simpl.
  - rewrite Nat.add_0_r. rewrite list_insert_id; [by rewrite set_heap_id|].
    by apply heap_block_lookup.
  - erewrite bind_ok; last first.
    { eapply destroy_run; [exact Hb|].
      apply list_lookup_middle. by rewrite length_replicate. }
    rewrite (IH (S k)); simpl.
    + rewrite list_insert_insert_eq.
      by replace (k + S (length pre)) with (S (k + length pre)) by lia.
    + rewrite heap_block_insert_eq by by eapply heap_block_lt.
      f_equal. rewrite insert_app_r_alt by (rewrite length_replicate; lia).
      rewrite length_replicate, Nat.sub_diag. simpl.
      apply replicate_cons_middle.
Qed.

Lemma destroy_range_run s b k (pre : list T) (tail : list (option T)) :
  heap_block (heap s) b = Some (replicate k None ++ (Some <$> pre) ++ tail) →
  destroy_range (Ptr b k) (Ptr b (k + length pre)) s
  = Ok tt (set_heap (<[b := Some (replicate (k + length pre) None ++ tail)]>
                       (heap s)) s).
Proof.
  intros Hb. unfold destroy_range. erewrite bind_ok by apply range_run.
  by apply destroy_cells_run.
Qed.

Lemma deallocate_run s b (blk : list (option T)) n :
  heap_block (heap s) b = Some blk → length blk = n →
  deallocate (Ptr b 0) n s
  = Ok tt (set_heap (<[b := None]> (heap s)) s).
Proof.
  intros Hb Hn. unfold deallocate, get_heap, mbind, M_bind. rewrite Hb.
  by rewrite decide_True.
Qed.

Lemma allocate_run s n :
  n ≤ alloc_max_size →
  allocate n s
  = if throws_next s then Throw bad_alloc (tick s)
    else Ok (Ptr (length (heap s)) 0)
            (set_heap (heap s ++ [Some (replicate n None)]) (tick s)).
Proof.
  intros Hn. unfold allocate. rewrite decide_False by lia.
  unfold mbind, M_bind. rewrite may_throw_run.
  by destruct (throws_next s).
Qed.

(** The block a container owns is released by [_clear_dealloc], cell by cell
    and then as a whole; no other block is touched. *)
Lemma clear_dealloc_run this s (l : list T) c :
  holds this s l c →
  ∃ h', _clear_dealloc this s = Ok tt (set_heap h' s) ∧
        length h' = length (heap s) ∧
        ∀ b, first (data_of this s) ≠ Ptr b 0 → h' !! b = heap s !! b.
Proof.
  intros H. apply holds_data in H as [(-> & -> & Hd)|(b & Hd & Hb & Hlc & Hc)];
    unfold data_of in Hd; unfold _clear_dealloc, capacity, _data, mbind, M_bind;
    rewrite ?Hd; simpl.
  - exists (heap s). by rewrite set_heap_id.
  - pose proof (destroy_range_run s b 0 l _ Hb) as Hdr. simpl in Hdr.
    rewrite Hdr. simpl. rewrite !get_obj_set_heap, Hd. simpl. rewrite decide_True by (split; [done|lia]). simpl.
    pose proof (heap_block_lt _ _ _ Hb) as Hlt.
    erewrite deallocate_run; simpl.
    + eexists. split; [reflexivity|]. rewrite !length_insert. split; [done|].
      intros b' Hb'. unfold data_of in Hb'. rewrite Hd in Hb'. simpl in Hb'.
      rewrite !list_lookup_insert_ne; congruence.
    + by rewrite heap_block_insert_eq.
    + rewrite length_app, !length_replicate. lia.
Qed.

(** ** Moving a container *)

Lemma steal_run this other s :
  this ≠ other →
  steal (T:=T) this other s
  = Ok tt (set_obj other
             (mk_darray (cpair_first (get_obj other s)) null_data)
             (set_obj this
                (mk_darray (cpair_first (get_obj this s))
                           (cpair_second (get_obj other s))) s)).
Proof.
  intros Hne. destruct s as [h [ax [fx lx ex]] [ay [fy ly ey]] f].
  by destruct this, other.
Qed.

Lemma darray_move_run this other s :
  this ≠ other →
  darray_move (T:=T) this other s
  = Ok tt (set_obj this
             (mk_darray (cpair_first (get_obj other s))
                        (cpair_second (get_obj other s)))
             (set_obj other
                (mk_darray (cpair_first (get_obj other s)) null_data) s)).
Proof.
  intros Hne. destruct s as [h [ax [fx lx ex]] [ay [fy ly ey]] f].
  by destruct this, other.
Qed.

(** X23. Moving container [other] into a distinct container [this], by move
    construction or by move assignment when the allocator propagates on move
    or the two allocators compare equal, returns normally; afterwards [this]
    has the triad [other] had, [other]'s three pointers are null, so that it
    is empty and its destructor does nothing; no element operation is run on
    the transferred block: the fault schedule is not consulted and, apart
    from the block [this] owned before a move assignment, no block of the
    heap changes. *)
Theorem move_transfers_block this other s (l : list T) c :
  this ≠ other →
  holds this s l c →
  propagate_on_container_move_assignment = true ∨ is_always_equal = true ∨
    cpair_first (get_obj this s) = cpair_first (get_obj other s) →
  (∃ s', darray_move this other s = Ok tt s' ∧
         data_of this s' = data_of other s ∧
         data_of other s' = null_data ∧
         heap s' = heap s ∧ faults s' = faults s ∧
         size other s' = Ok 0 s' ∧ darray_destroy other s' = Ok tt s') ∧
  (∃ s', move_assign this other s = Ok tt s' ∧
         data_of this s' = data_of other s ∧
         data_of other s' = null_data ∧
         (∀ b, first (data_of this s) ≠ Ptr b 0 → heap s' !! b = heap s !! b) ∧
         faults s' = faults s ∧
         size other s' = Ok 0 s' ∧ darray_destroy other s' = Ok tt s').
Proof.
  intros Hne Hh Htr. split.
  - eexists. split; [by apply darray_move_run|].
    destruct s as [h [ax dx] [ay dy] f]. by destruct this, other.
  - destruct (clear_dealloc_run _ _ _ _ Hh) as (h' & Hclr & Hlen & Hother).
    unfold move_assign.
    assert (Hsteal : ∃ s', (_clear_dealloc this;; steal this other) s = Ok tt s' ∧
         data_of this s' = data_of other s ∧
         data_of other s' = null_data ∧
         (∀ b, first (data_of this s) ≠ Ptr b 0 → heap s' !! b = heap s !! b) ∧
         faults s' = faults s ∧
         size other s' = Ok 0 s' ∧ darray_destroy other s' = Ok tt s').
    { erewrite bind_ok by exact Hclr. rewrite steal_run by done.
      eexists. split; [reflexivity|].
      destruct s as [h [ax dx] [ay dy] f]. by destruct this, other. }
    destruct propagate_on_container_move_assignment eqn:Hp; simpl.
    + erewrite bind_ok by exact Hclr.
      erewrite bind_ok by reflexivity. erewrite bind_ok by reflexivity.
      rewrite steal_run by done.
      eexists. split; [reflexivity|].
      destruct s as [h [ax dx] [ay dy] f]. by destruct this, other.
    + destruct is_always_equal eqn:Hae; simpl; [done|].
      destruct Htr as [?|[?|Heq]]; try done.
      erewrite bind_ok by reflexivity. erewrite bind_ok by reflexivity.
      by rewrite Heq, Nat.eqb_refl.
Qed.

(** ** Construction into raw storage *)

Arguments heap_store : simpl never.
Arguments heap_cell : simpl never.
Arguments heap_block : simpl never.

Lemma heap_cell_block (h : list (option (list (option T)))) b i blk :
  heap_block h b = Some blk → heap_cell h (Ptr b i) = blk !! i.
Proof. intros H. unfold heap_cell. by rewrite H. Qed.

Lemma construct_val_run s b i (blk : list (option T)) v :
  heap_block (heap s) b = Some blk → blk !! i = Some None →
  construct (Ptr b i) (Val v) s
  = if throws_next s then Throw element_exception (tick s)
    else Ok tt (set_heap (<[b := Some (<[i := Some v]> blk)]> (heap s))
                         (tick s)).
Proof.
  intros Hb Hi. unfold construct, get_heap, mbind, M_bind.
  rewrite (heap_cell_block _ _ _ _ Hb), Hi. simpl.
  rewrite may_throw_run. destruct (throws_next s); [done|]. simpl.
  rewrite write_run. simpl. by erewrite heap_store_block.
Qed.

Lemma construct_lvalue_run s nb i (nblk : list (option T)) ob j oblk v :
  heap_block (heap s) nb = Some nblk → nblk !! i = Some None →
  heap_block (heap s) ob = Some oblk → oblk !! j = Some (Some v) →
  construct (Ptr nb i) (Lvalue (Ptr ob j)) s
  = if throws_next s then Throw element_exception (tick s)
    else Ok tt (set_heap (<[nb := Some (<[i := Some v]> nblk)]> (heap s))
                         (tick s)).
Proof.
  intros Hb Hi Hob Hj. unfold construct, get_heap, mbind, M_bind.
  rewrite (heap_cell_block _ _ _ _ Hb), Hi. simpl.
  erewrite read_live by done.
  rewrite may_throw_run. destruct (throws_next s); [done|]. simpl.
  rewrite write_run. simpl. by erewrite heap_store_block.
Qed.

Lemma construct_rvalue_run s nb i (nblk : list (option T)) ob j oblk v :
  is_nothrow_move_constructible = true → ob ≠ nb →
  heap_block (heap s) nb = Some nblk → nblk !! i = Some None →
  heap_block (heap s) ob = Some oblk → oblk !! j = Some (Some v) →
  construct (Ptr nb i) (Rvalue (Ptr ob j)) s
  = Ok tt (set_heap (<[nb := Some (<[i := Some v]> nblk)]>
                       (<[ob := Some (<[j := Some (moved_from v)]> oblk)]>
                          (heap s))) s).
Proof.
  intros Hnt Hne Hb Hi Hob Hj. unfold construct, get_heap, mbind, M_bind.
  rewrite (heap_cell_block _ _ _ _ Hb), Hi. simpl.
  erewrite read_live by done. rewrite Hnt. simpl.
  rewrite !write_run. simpl.
  erewrite (heap_store_block _ ob) by done.
  erewrite heap_store_block; [done|].
  by rewrite heap_block_insert_ne.
Qed.

Lemma tick_set_heap h s : tick (set_heap h s) = set_heap h (tick s).
Proof. done. Qed.

Lemma throw_run {A} e s : throw (A:=A) e s = Throw e s.
Proof. done. Qed.

Lemma try_cleanup_ok {A} (m : M A) c s a s' :
  m s = Ok a s' → try_cleanup m c s = Ok a s'.
Proof. intros H. unfold try_cleanup, try_catch. by rewrite H. Qed.

Lemma try_cleanup_throw {A} (m : M A) c s e s' s'' :
  m s = Throw e s' → c s' = Ok tt s'' → try_cleanup m c s = Throw e s''.
Proof.
  intros H Hc. unfold try_cleanup, try_catch. rewrite H.
  by erewrite bind_ok by exact Hc.
Qed.

(** Copying the objects [l2] of block [ob] behind the copies [l1] already
    built in block [nb]: either all of [l2] is built, or a copy throws and
    the whole destination is raw storage again. Block [ob] is only read. *)
Lemma uninitialised_copy_loop s ob nb (l1 l2 : list T)
    (otail ntail : list (option T)) :
  ob ≠ nb →
  heap_block (heap s) ob = Some ((Some <$> l1 ++ l2) ++ otail) →
  heap_block (heap s) nb
    = Some ((Some <$> l1) ++ replicate (length l2) None ++ ntail) →
  (∃ f, uninitialised_construct
          (Lvalue <$> (Ptr ob <$> seq (length l1) (length l2)))
          (Ptr nb 0) (Ptr nb (length l1)) s
        = Ok (Ptr nb (length l1 + length l2))
             (set_faults f
                (set_heap (<[nb := Some ((Some <$> l1 ++ l2) ++ ntail)]>
                             (heap s)) s))) ∨
  (∃ e f, uninitialised_construct
            (Lvalue <$> (Ptr ob <$> seq (length l1) (length l2)))
            (Ptr nb 0) (Ptr nb (length l1)) s
          = Throw e
              (set_faults f
                 (set_heap
                    (<[nb := Some (replicate (length l1 + length l2) None
                                   ++ ntail)]> (heap s)) s))).
Proof.
  intros Hne. revert l1 s. induction l2 as [|v l2 IH]; intros l1 s Hob Hnb.
  - left. exists (faults s). simpl. rewrite Nat.add_0_r, app_nil_r.
    simpl in Hnb. rewrite list_insert_id by by apply heap_block_lookup.
    by destruct s.
  - simpl.
    assert (Hcell : ((Some <$> l1) ++ replicate (length (v :: l2)) None ++ ntail)
                      !! length l1 = Some None).
    { apply list_lookup_middle. by rewrite length_fmap. }
    assert (Hsrc : ((Some <$> l1 ++ v :: l2) ++ otail) !! length l1
                   = Some (Some v)).
    { rewrite fmap_app, <- app_assoc. apply list_lookup_middle.
      by rewrite length_fmap. }
    pose proof (construct_lvalue_run s nb (length l1) _ ob (length l1) _ v
                  Hnb Hcell Hob Hsrc) as Hc.
    pose proof (heap_block_lt _ _ _ Hnb) as Hlt.
    destruct (throws_next s) eqn:Hthrow.
    + (* the copy throws: destroy what was built *)
      right. exists element_exception, (tail (faults s)).
      pose proof (destroy_range_run (tick s) nb 0 l1
        (replicate (length (v :: l2)) None ++ ntail) Hnb) as Hd.
      simpl in Hd.
      erewrite bind_throw; [reflexivity|].
      erewrite try_cleanup_throw; [|exact Hc|exact Hd].
      rewrite replicate_add. simpl. by rewrite <- app_assoc.
    + (* the copy is built: go on with one more element in place *)
      erewrite bind_ok by (eapply try_cleanup_ok; exact Hc).
      assert (Hins : <[length l1:=Some v]>
                ((Some <$> l1) ++ replicate (length (v :: l2)) None ++ ntail)
              = (Some <$> l1 ++ [v]) ++ replicate (length l2) None ++ ntail).
      { rewrite insert_app_r_alt by (rewrite length_fmap; lia).
        rewrite length_fmap, Nat.sub_diag. simpl.
        by rewrite fmap_app, <- app_assoc. }
      rewrite Hins.
      match goal with
      | |- context [uninitialised_construct _ _ _ ?st] => set (s1 := st)
      end.
      replace (length l1 + 1) with (length (l1 ++ [v]))
        by (rewrite length_app; simpl; lia).
      replace (S (length l1)) with (length (l1 ++ [v]))
        by (rewrite length_app; simpl; lia).
      replace (length l1 + S (length l2))
        with (length (l1 ++ [v]) + length l2)
        by (rewrite length_app; simpl; lia).
      destruct (IH (l1 ++ [v]) s1) as [(f & Hf)|(e & f & Hf)].
      * subst s1. simpl. rewrite heap_block_insert_ne by done.
        by rewrite <- (app_assoc l1 [v] l2).
      * subst s1. simpl. by rewrite heap_block_insert_eq.
      * left. exists f. etrans; [exact Hf|]. subst s1. simpl.
        by rewrite list_insert_insert_eq, <- (app_assoc l1 [v] l2).
      * right. exists e, f. etrans; [exact Hf|]. subst s1. simpl.
        by rewrite list_insert_insert_eq.
Qed.

(** Moving the objects [l2] of block [ob] behind the objects [l1] already
    built in block [nb], for an element type whose move constructor does not
    throw: all of [l2] is built and the sources are left moved-from. *)
Lemma uninitialised_move_loop s ob nb (l1' l1 l2 : list T)
    (otail ntail : list (option T)) :
  is_nothrow_move_constructible = true → ob ≠ nb → length l1' = length l1 →
  heap_block (heap s) ob = Some ((Some <$> l1' ++ l2) ++ otail) →
  heap_block (heap s) nb
    = Some ((Some <$> l1) ++ replicate (length l2) None ++ ntail) →
  uninitialised_construct
    (Rvalue <$> (Ptr ob <$> seq (length l1) (length l2)))
    (Ptr nb 0) (Ptr nb (length l1)) s
  = Ok (Ptr nb (length l1 + length l2))
       (set_heap
          (<[nb := Some ((Some <$> l1 ++ l2) ++ ntail)]>
             (<[ob := Some ((Some <$> l1' ++ (moved_from <$> l2)) ++ otail)]>
                (heap s))) s).
Proof.
  intros Hnt Hne. revert l1' l1 s.
  induction l2 as [|v l2 IH]; intros l1' l1 s Hlen Hob Hnb.
  - simpl. rewrite Nat.add_0_r, !app_nil_r. simpl in Hnb.
    rewrite app_nil_r in Hob.
    rewrite (list_insert_id _ ob) by by apply heap_block_lookup.
    rewrite list_insert_id by by apply heap_block_lookup.
    by rewrite set_heap_id.
  - assert (Hcell : ((Some <$> l1) ++ replicate (length (v :: l2)) None ++ ntail)
                      !! length l1 = Some None).
    { apply list_lookup_middle. by rewrite length_fmap. }
    assert (Hsrc : ((Some <$> l1' ++ v :: l2) ++ otail) !! length l1
                   = Some (Some v)).
    { rewrite fmap_app, <- app_assoc. apply list_lookup_middle.
      by rewrite length_fmap. }
    pose proof (construct_rvalue_run s nb (length l1) _ ob (length l1) _ v
                  Hnt Hne Hnb Hcell Hob Hsrc) as Hc.
    pose proof (heap_block_lt _ _ _ Hnb) as Hlt.
    pose proof (heap_block_lt _ _ _ Hob) as Hlt'.
    cbn [fmap list_fmap seq length uninitialised_construct].
    erewrite bind_ok by (eapply try_cleanup_ok; exact Hc).
    assert (Hins : <[length l1:=Some v]>
              ((Some <$> l1) ++ replicate (length (v :: l2)) None ++ ntail)
            = (Some <$> l1 ++ [v]) ++ replicate (length l2) None ++ ntail).
    { rewrite insert_app_r_alt by (rewrite length_fmap; lia).
      rewrite length_fmap, Nat.sub_diag. simpl.
      by rewrite fmap_app, <- app_assoc. }
    assert (Hins' : <[length l1:=Some (moved_from v)]>
              ((Some <$> l1' ++ v :: l2) ++ otail)
            = (Some <$> (l1' ++ [moved_from v]) ++ l2) ++ otail).
    { rewrite !fmap_app, <- !app_assoc.
      rewrite insert_app_r_alt by (rewrite length_fmap; lia).
      rewrite length_fmap, Hlen, Nat.sub_diag. done. }
    rewrite Hins, Hins'.
    match goal with
    | |- context [uninitialised_construct _ _ _ ?st] => set (s1 := st)
    end.
    simpl ptr_add.
    replace (length l1 + 1) with (length (l1 ++ [v]))
      by (rewrite length_app; simpl; lia).
    replace (S (length l1)) with (length (l1 ++ [v]))
      by (rewrite length_app; simpl; lia).
    replace (length l1 + S (length l2))
      with (length (l1 ++ [v]) + length l2)
      by (rewrite length_app; simpl; lia).
    etrans; [apply (IH (l1' ++ [moved_from v]) (l1 ++ [v]) s1)|].
    + rewrite !length_app. simpl. lia.
    + subst s1. simpl. rewrite heap_block_insert_ne by done.
      rewrite heap_block_insert_eq by done. done.
    + subst s1. simpl. rewrite heap_block_insert_eq; [done|].
      by rewrite length_insert.
    + subst s1. simpl.
      rewrite (list_insert_insert_ne _ ob nb) by done.
      rewrite !list_insert_insert_eq.
      rewrite <- !(app_assoc l1 [v] l2), <- (app_assoc l1' [moved_from v]).
      done.
Qed.

(** Migrating all the values [l] of a block into a fresh block whose first
    [length l] cells are raw: either they are all built there, the old cells
    still holding objects, or a copy throws and the heap is as before. *)
Lemma reversible_uninitialised_move_run s ob nb (l : list T)
    (otail ntail : list (option T)) :
  ob ≠ nb →
  heap_block (heap s) ob = Some ((Some <$> l) ++ otail) →
  heap_block (heap s) nb = Some (replicate (length l) None ++ ntail) →
  (∃ f l', length l' = length l ∧
     _reversible_uninitialised_move (Ptr ob 0) (Ptr ob (length l)) (Ptr nb 0) s
     = Ok (Ptr nb (length l))
          (set_faults f
             (set_heap (<[nb := Some ((Some <$> l) ++ ntail)]>
                          (<[ob := Some ((Some <$> l') ++ otail)]> (heap s)))
                s))) ∨
  (∃ e f,
     _reversible_uninitialised_move (Ptr ob 0) (Ptr ob (length l)) (Ptr nb 0) s
     = Throw e (set_faults f s)).
Proof.
  intros Hne Hob Hnb. unfold _reversible_uninitialised_move.
  destruct is_nothrow_move_constructible eqn:Hnt.
  - left. exists (faults s), (moved_from <$> l). split; [by rewrite length_fmap|].
    unfold uninitialised_move, rvalues.
    erewrite bind_ok; last first.
    { erewrite bind_ok by apply (range_run s ob 0 (length l)). reflexivity. }
    unfold uninitialised_copy.
    etrans; [apply (uninitialised_move_loop s ob nb [] [] l otail ntail);
             done|].
    simpl. by destruct s.
  - unfold lvalues.
    assert (Hrun : (ps ← range (T:=T) (Ptr ob 0) (Ptr ob (length l));
                    mret (Lvalue (T:=T) <$> ps)) s
                   = Ok (Lvalue (T:=T) <$> (Ptr ob <$> seq 0 (length l))) s).
    { erewrite bind_ok by apply (range_run s ob 0 (length l)). reflexivity. }
    rewrite (bind_ok _ _ _ _ _ Hrun). unfold uninitialised_copy.
    destruct (uninitialised_copy_loop s ob nb [] l otail ntail Hne Hob Hnb)
      as [(f & Hf)|(e & f & Hf)].
    + left. exists f, l. split; [done|]. etrans; [exact Hf|]. simpl.
      by rewrite (list_insert_id _ ob) by by apply heap_block_lookup.
    + right. exists e, f. etrans; [exact Hf|]. simpl.
      rewrite list_insert_id by by apply heap_block_lookup.
      by rewrite set_heap_id.
Qed.

(** ** Appending to a container *)

Arguments _calculate_growth : simpl never.
Arguments _reversible_uninitialised_move : simpl never.
Arguments _clear_dealloc : simpl never.
Arguments _replace : simpl never.
Arguments size_t_add : simpl never.
Arguments tick : simpl never.
Arguments throws_next : simpl never.

Lemma holds_frame this s s' (l : list T) c :
  holds this s l c →
  data_of this s' = data_of this s →
  (∀ b, first (data_of this s) = Ptr b 0 →
        heap_block (heap s') b = heap_block (heap s) b) →
  holds this s' l c.
Proof.
  intros [(Hd & -> & ->)|(b & Hd & Hb & Hlc & Hc)] Hd' Hh.
  - left. by rewrite Hd'.
  - right. exists b. rewrite Hd', Hh by by rewrite Hd. done.
Qed.

Lemma holds_tick this s (l : list T) c : holds this s l c → holds this (tick s) l c.
Proof.
  intros H. eapply holds_frame; [exact H| |done]. by destruct this.
Qed.

Lemma size_run this s (l : list T) c :
  holds this s l c → size this s = Ok (length l) s.
Proof.
  intros H. apply holds_data in H as [(-> & -> & Hd)|(b & Hd & Hb & Hlc & Hc)];
    unfold data_of in Hd; unfold size, _data, mbind, M_bind; rewrite Hd; simpl.
  - done.
  - rewrite decide_True by (split; [done|lia]). by rewrite Nat.sub_0_r.
Qed.

Lemma capacity_run this s (l : list T) c :
  holds this s l c → capacity this s = Ok c s.
Proof.
  intros H. apply holds_data in H as [(-> & -> & Hd)|(b & Hd & Hb & Hlc & Hc)];
    unfold data_of in Hd; unfold capacity, _data, mbind, M_bind; rewrite Hd;
    simpl.
  - done.
  - rewrite decide_True by (split; [done|lia]). by rewrite Nat.sub_0_r.
Qed.

Lemma holds_bounds this s (l : list T) c :
  holds this s l c → length l ≤ c ∧ c ≤ alloc_max_size.
Proof.
  intros H. apply holds_data in H as [(-> & -> & Hd)|(b & Hd & Hb & Hlc & Hc)];
    simpl; lia.
Qed.

(** Growth for one more element in a full container: it throws and leaves
    the state alone, or returns a capacity that fits one more element and is
    within what the allocator can address. *)
Lemma calculate_growth_one this s (l : list T) c :
  holds this s l c →
  _calculate_growth this (size_t_add c 1) s = Throw bad_array_new_length s ∨
  ∃ nc, _calculate_growth this (size_t_add c 1) s = Ok nc s ∧
        c + 1 ≤ nc ∧ nc ≤ alloc_max_size.
Proof.
  intros H. pose proof (holds_bounds _ _ _ _ H) as [Hlc Hc].
  pose proof max_size_small.
  rewrite size_t_add_small by lia.
  pose proof (size_run _ _ l c H) as Hsz.
  unfold _calculate_growth, max_size.
  rewrite (bind_ok (mret alloc_max_size) _ s alloc_max_size s) by done.
  case_decide as Hmin; [by left|]. right.
  rewrite (bind_ok _ _ _ _ _ Hsz).
  rewrite (bind_ok (mret alloc_max_size) _ s alloc_max_size s) by done.
  rewrite (bind_ok _ _ _ _ _ Hsz).
  rewrite Nat.shiftr_div_pow2. change (2 ^ 1) with 2.
  assert (Hhalf : length l / 2 ≤ length l)
    by (apply Nat.Div0.div_le_upper_bound; lia).
  rewrite size_t_sub_small by lia.
  case_decide as H1; [eexists; split; [reflexivity|lia]|].
  rewrite (bind_ok _ _ _ _ _ Hsz).
  rewrite size_t_add_small by lia.
  eexists; split; [reflexivity|lia].
Qed.

Lemma replace_run this s (l : list T) c nf nl nc :
  holds this s l c →
  ∃ h', _replace this nf nl nc s
        = Ok tt (set_obj this
                   (mk_darray (cpair_first (get_obj this s))
                              (mk_data nf nl (ptr_add nf nc)))
                   (set_heap h' s)) ∧
        length h' = length (heap s) ∧
        ∀ b, first (data_of this s) ≠ Ptr b 0 → h' !! b = heap s !! b.
Proof.
  intros H. destruct (clear_dealloc_run _ _ _ _ H) as (h' & Hclr & Hlen & Hh).
  exists h'. split; [|done]. unfold _replace.
  erewrite bind_ok by exact Hclr.
  destruct s as [h [ax [fx lx ex]] [ay [fy ly ey]] f]. by destruct this.
Qed.

Lemma block_append (l : list T) (v : T) c :
  length l < c →
  <[length l := Some v]> ((Some <$> l) ++ replicate (c - length l) None)
  = (Some <$> l ++ [v]) ++ replicate (c - length (l ++ [v])) None.
Proof.
  intros H. rewrite insert_app_r_alt by (rewrite length_fmap; lia).
  rewrite length_fmap, Nat.sub_diag, length_app. simpl.
  destruct (c - length l) as [|k] eqn:E; [lia|]. simpl.
  rewrite fmap_app, <- app_assoc. simpl. do 3 f_equal. lia.
Qed.

Lemma get_obj_set_faults v f s : get_obj v (set_faults f s) = get_obj v s.
Proof. by destruct v. Qed.

Lemma get_obj_set_obj v (d : darray) s : get_obj v (set_obj v d s) = d.
Proof. by destruct v. Qed.

Lemma heap_set_obj v (d : darray) s : heap (set_obj v d s) = heap s.
Proof. by destruct v. Qed.

Lemma heap_tick s : heap (tick s) = heap s.
Proof. done. Qed.

Lemma heap_set_heap h s : heap (set_heap h s) = h.
Proof. done. Qed.

Lemma heap_set_faults f s : heap (set_faults f s) = heap s.
Proof. done. Qed.

Ltac state_simpl :=
  repeat first
    [ rewrite get_obj_set_obj | rewrite heap_set_obj
    | rewrite get_obj_set_heap | rewrite get_obj_tick
    | rewrite get_obj_set_faults | rewrite heap_tick
    | rewrite heap_set_heap | rewrite heap_set_faults ].

(** ** Rules of the state-level logic *)

Lemma wp_ret {A} U (a : A) s (Q : A → state → Prop) E :
  Q a s → wp U (mret a) s Q E.
Proof. done. Qed.

Lemma wp_bind {A B} U (m : M A) (f : A → M B) s Q E :
  wp U m s (λ a s', wp U (f a) s' Q E) E → wp U (m ≫= f) s Q E.
Proof.
  unfold wp, mbind, M_bind. by destruct (m s).
Qed.

Lemma wp_throw {A} U e s (Q : A → state → Prop) (E : exn → state → Prop) :
  E e s → wp U (throw e) s Q E.
Proof. done. Qed.

Lemma wp_try_catch {A} U (m : M A) h s Q E :
  wp U m s Q (λ e s', wp U (h e) s' Q E) → wp U (try_catch m h) s Q E.
Proof. unfold wp, try_catch. by destruct (m s). Qed.

Lemma wp_try_cleanup {A} U (m : M A) c s Q E :
  wp U m s Q (λ e s', wp U c s' (λ _ s'', E e s'') E) →
  wp U (try_cleanup m c) s Q E.
Proof.
  intros H. apply wp_try_catch. unfold wp in *.
  destruct (m s) as [a s'|e s'|]; [done| |done].
  unfold mbind, M_bind. by destruct (c s').
Qed.

Lemma wp_data U this s (Q : _darray_data → state → Prop) E :
  Q (cpair_second (get_obj this s)) s → wp U (_data this) s Q E.
Proof. done. Qed.

Lemma wp_set_data U this d s (Q : unit → state → Prop) E :
  Q tt (set_obj this (mk_darray (cpair_first (get_obj this s)) d) s) →
  wp U (set_data this d) s Q E.
Proof. done. Qed.

(** A step whose outcome is known. *)
Lemma wp_run {A} U (m : M A) s (res : result A) Q E :
  m s = res →
  match res with
  | Ok a s' => Q a s'
  | Throw e s' => E e s'
  | Undefined => U
  end →
  wp U m s Q E.
Proof. intros <-. done. Qed.

Lemma wp_mono {A} U (m : M A) s (Q Q' : A → state → Prop)
    (E E' : exn → state → Prop) :
  wp U m s Q E →
  (∀ a s', Q a s' → Q' a s') → (∀ e s', E e s' → E' e s') →
  wp U m s Q' E'.
Proof. unfold wp. destruct (m s); auto. Qed.

Lemma wp_verify_true U s (Q : unit → state → Prop) E :
  Q tt s → wp U (EXPU_VERIFY_DEBUG true) s Q E.
Proof. done. Qed.

Ltac wp_pure :=
  repeat (lazymatch goal with
          | |- wp _ (_ ≫= _) _ _ _ => apply wp_bind
          | |- wp _ (_data _) _ _ _ => apply wp_data
          | |- wp _ (set_data _ _) _ _ _ => apply wp_set_data
          | |- wp _ (mret _) _ _ _ => apply wp_ret
          | |- wp _ (throw _) _ _ _ => apply wp_throw
          | |- wp _ (EXPU_VERIFY_DEBUG true) _ _ _ => apply wp_verify_true
          end);
  cbn [first last end_ cpair_first cpair_second].

(** Appending where a raw cell is left: the element is built in place. *)
Lemma emplace_back_in_place this s (l : list T) c b v :
  cpair_second (get_obj this s)
    = mk_data (Ptr b 0) (Ptr b (length l)) (Ptr b c) →
  heap_block (heap s) b = Some ((Some <$> l) ++ replicate (c - length l) None) →
  length l < c → c ≤ alloc_max_size →
  wp False (emplace_back this (Val v)) s
    (λ _ s', holds this s' (l ++ [v]) c ∧
             first (data_of this s') = Ptr b 0 ∧
             length (heap s') = length (heap s))
    (λ _ s', holds this s' l c).
Proof.
  intros Hd Hb Hlc Hc.
  assert (Hcell : ((Some <$> l) ++ replicate (c - length l) None) !! length l
                  = Some None).
  { rewrite lookup_app_r by (rewrite length_fmap; lia).
    rewrite length_fmap, Nat.sub_diag. apply lookup_replicate_2. lia. }
  unfold emplace_back, cend. wp_pure. rewrite Hd. cbn [first last end_].
  unfold emplace. cbv zeta. wp_pure. rewrite Hd. cbn [first last end_].
  rewrite decide_True by (intros [=]; lia).
  wp_pure. rewrite Hd. cbn [first last end_].
  rewrite decide_True by done.
  unfold u_emplace_back. wp_pure. rewrite Hd. cbn [first last end_].
  rewrite bool_decide_eq_true_2 by (intros [=]; lia).
  wp_pure. rewrite Hd. cbn [first last end_].
  eapply wp_run; [exact (construct_val_run _ _ _ _ _ Hb Hcell)|].
  destruct (throws_next s).
  - apply holds_tick. right. exists b. repeat split; try done. lia.
  - wp_pure. unfold set_last. wp_pure.
    pose proof (heap_block_lt _ _ _ Hb) as Hlt.
    split; [|split].
    + right. exists b.
      unfold data_of. state_simpl. rewrite Hd. cbn [first last end_ ptr_add].
      rewrite heap_block_insert_eq by done.
      rewrite block_append by done.
      rewrite length_app; simpl.
      repeat split; try done; lia.
    + unfold data_of. state_simpl. by rewrite Hd.
    + state_simpl. by rewrite length_insert.
Qed.

Lemma emplace_back_spare this s (l : list T) c b v :
  cpair_second (get_obj this s)
    = mk_data (Ptr b 0) (Ptr b (length l)) (Ptr b c) →
  heap_block (heap s) b = Some ((Some <$> l) ++ replicate (c - length l) None) →
  length l < c → c ≤ alloc_max_size →
  wp False (emplace_back this (Val v)) s
    (λ _ s', ∃ c', holds this s' (l ++ [v]) c')
    (λ _ s', holds this s' l c).
Proof.
  intros Hd Hb Hlc Hc.
  eapply wp_mono; [by apply (emplace_back_in_place this s l c b v)|..]; cbv beta.
  - intros _ s' (H & _). by exists c.
  - done.
Qed.

Lemma ptr_diff_run s b i j :
  j ≤ i → ptr_diff (T:=T) (Ptr b i) (Ptr b j) s = Ok (i - j) s.
Proof. intros H. unfold ptr_diff. by rewrite decide_True. Qed.

Lemma destroy_range_empty s p :
  p ≠ nullptr → destroy_range (T:=T) p p s = Ok tt s.
Proof.
  intros Hp. destruct p as [|b k]; [done|]. unfold destroy_range, range.
  rewrite decide_True by done. rewrite Nat.sub_diag. done.
Qed.

Lemma insert_replicate_raw (v : T) n nc :
  n < nc →
  <[n := Some v]> (replicate nc None)
  = replicate n None ++ Some v :: replicate (nc - S n) None.
Proof.
  intros H. replace nc with (n + S (nc - S n)) at 1 by lia.
  rewrite replicate_add. rewrite insert_app_r_alt by (rewrite length_replicate; lia).
  by rewrite length_replicate, Nat.sub_diag.
Qed.

Lemma holds_heap_frame this s s' (l : list T) c :
  holds this s l c →
  get_obj this s' = get_obj this s →
  length (heap s) ≤ length (heap s') →
  (∀ b, b < length (heap s) → heap s' !! b = heap s !! b) →
  holds this s' l c.
Proof.
  intros H Hd Hlen Hh. eapply holds_frame; [exact H|by unfold data_of; rewrite Hd|].
  intros b Hb. unfold heap_block.
  destruct H as [(Hn & _)|(b' & Hd' & Hb' & _)].
  - rewrite Hn in Hb. done.
  - rewrite Hd' in Hb. simpl in Hb. injection Hb as <-.
    rewrite Hh; [done|]. by eapply heap_block_lt.
Qed.

Lemma insert_last_block {A} (h : list A) (x y : A) :
  <[length h := x]> (h ++ [y]) = h ++ [x].
Proof. rewrite insert_app_r_alt by lia. by rewrite Nat.sub_diag. Qed.

Lemma emplace_back_full this s (l : list T) b v :
  cpair_second (get_obj this s)
    = mk_data (Ptr b 0) (Ptr b (length l)) (Ptr b (length l)) →
  heap_block (heap s) b = Some (Some <$> l) →
  length l ≤ alloc_max_size →
  wp False (emplace_back this (Val v)) s
    (λ _ s', ∃ c', holds this s' (l ++ [v]) c')
    (λ _ s', holds this s' l (length l)).
Proof.
  intros Hd Hb Hc.
  assert (Hh : holds this s l (length l)).
  { right. exists b. rewrite Nat.sub_diag, app_nil_r. done. }
  pose proof (heap_block_lt _ _ _ Hb) as Hlt.
  unfold emplace_back, cend. wp_pure. rewrite Hd. cbn [first last end_].
  unfold emplace. cbv zeta. wp_pure. rewrite Hd. cbn [first last end_].
  rewrite decide_False by (intros H; by apply H).
  apply wp_bind. eapply wp_run; [eapply capacity_run; exact Hh|]. cbv beta.
  apply wp_bind.
  destruct (calculate_growth_one _ _ _ _ Hh) as [Hg|(nc & Hg & Hnc1 & Hnc2)];
    (eapply wp_run; [exact Hg|]); cbv beta iota; [done|].
  apply wp_bind. eapply wp_run; [apply allocate_run; lia|].
  destruct (throws_next s) eqn:Hthrow; cbv beta iota; [by apply holds_tick|].
  set (nb := length (heap s)).
  wp_pure. state_simpl. rewrite Hd. cbn [first last end_].
  eapply wp_run; [apply ptr_diff_run; lia|]. cbv beta iota.
  rewrite Nat.sub_0_r. cbn [ptr_add]. rewrite Nat.add_0_l.
  apply wp_bind, wp_try_cleanup.
  eapply wp_run.
  { eapply (construct_val_run _ nb (length l) (replicate nc None)).
    - state_simpl. apply heap_block_app_new.
    - apply lookup_replicate_2. lia. }
  state_simpl.
  set (s1 := set_heap (heap s ++ [Some (replicate nc None)]) (tick s)).
  assert (Hs1 : holds this s1 l (length l)).
  { eapply holds_heap_frame; [exact Hh| | |]; subst s1; state_simpl.
    - done.
    - rewrite length_app. lia.
    - intros b' Hb'. by rewrite lookup_app_l. }
  destruct (throws_next s1); cbv beta iota.
  - (* the new element's constructor throws *)
    eapply wp_run.
    { eapply (deallocate_run _ nb (replicate nc None)).
      - state_simpl. subst s1. state_simpl. apply heap_block_app_new.
      - apply length_replicate. }
    cbv beta iota.
    eapply holds_heap_frame; [exact Hh| | |]; subst s1; state_simpl.
    + done.
    + rewrite length_insert, length_app. lia.
    + intros b' Hb'. rewrite list_lookup_insert_ne by (subst nb; lia).
      by rewrite lookup_app_l.
  - (* the new element is built: migrate the old ones *)
    subst s1 nb. rewrite insert_last_block, insert_replicate_raw by lia.
    set (nb := length (heap s)).
    set (ntail := Some v :: replicate (nc - S (length l)) None).
    set (s2 := set_heap _ _).
    assert (Hnb2 : heap_block (heap s2) nb
                   = Some (replicate (length l) None ++ ntail)).
    { subst s2. state_simpl. apply heap_block_app_new. }
    assert (Hb2 : heap_block (heap s2) b = Some ((Some <$> l) ++ [])).
    { subst s2. state_simpl. rewrite app_nil_r. by apply heap_block_app_old. }
    assert (Hd2 : cpair_second (get_obj this s2)
                  = mk_data (Ptr b 0) (Ptr b (length l)) (Ptr b (length l))).
    { subst s2. by state_simpl. }
    assert (Hne : b ≠ nb) by (subst nb; lia).
    wp_pure. rewrite Hd2. cbn [first last end_].
    rewrite decide_True by done.
    apply wp_bind, wp_try_cleanup.
    destruct (reversible_uninitialised_move_run s2 b nb l [] ntail Hne Hb2 Hnb2)
      as [(f & l' & Hl' & Hm)|(e & f & Hm)];
      (eapply wp_run; [exact Hm|]); cbv beta iota.
    + (* migrated: install the new block *)
      wp_pure.
      set (s3 := set_faults f _).
      assert (Hlt2 : b < length (heap s2)) by by eapply heap_block_lt.
      assert (Hlt2' : nb < length (heap s2)) by by eapply heap_block_lt.
      assert (Hh3 : holds this s3 l' (length l)).
      { right. exists b. unfold data_of. subst s3. state_simpl.
        rewrite Hd2, Hl', Nat.sub_diag. split; [done|]. split; [|lia].
        rewrite heap_block_insert_ne by done.
        by rewrite heap_block_insert_eq. }
      destruct (replace_run this s3 l' (length l) (Ptr nb 0)
                  (ptr_add (Ptr nb (length l)) 1) nc Hh3)
        as (h' & Hr & Hlen & Hh').
      eapply wp_run; [exact Hr|]. cbv beta iota. wp_pure.
      exists nc. right. exists nb. unfold data_of. state_simpl.
      cbn [cpair_second ptr_add]. rewrite length_app. simpl.
      split; [done|]. split; [|lia].
      apply heap_block_lookup. rewrite Hh'; last first.
      { unfold data_of. subst s3. state_simpl. rewrite Hd2. simpl. congruence. }
      subst s3. state_simpl.
      rewrite list_lookup_insert_eq by by rewrite length_insert.
      subst ntail. rewrite fmap_app, <- app_assoc. simpl.
      do 5 f_equal. lia.
    + (* a copy throws: unwind *)
      apply wp_bind.
      eapply wp_run; [by apply destroy_range_empty|]. cbv beta iota.
      apply wp_bind.
      eapply wp_run.
      { eapply (destroy_run _ nb (length l)); [state_simpl; exact Hnb2|].
        apply list_lookup_middle. by rewrite length_replicate. }
      cbv beta iota.
      eapply wp_run.
      { eapply (deallocate_run _ nb); [state_simpl|].
        - apply heap_block_insert_eq. by eapply heap_block_lt.
        - rewrite length_insert, length_app, length_replicate. subst ntail.
          simpl. rewrite length_replicate. lia. }
      cbv beta iota.
      eapply holds_heap_frame; [exact Hh| | |]; subst s2; state_simpl.
      * done.
      * rewrite !length_insert, length_app. lia.
      * intros b' Hb'. rewrite !list_lookup_insert_ne by (subst nb; lia).
        by rewrite lookup_app_l.
Qed.

Lemma reversible_uninitialised_move_null s dest :
  _reversible_uninitialised_move (T:=T) nullptr nullptr dest s = Ok dest s.
Proof.
  unfold _reversible_uninitialised_move.
  by destruct is_nothrow_move_constructible.
Qed.

Lemma emplace_back_null this s v :
  cpair_second (get_obj this s) = null_data →
  wp False (emplace_back this (Val v)) s
    (λ _ s', ∃ c', holds this s' ([] ++ [v]) c')
    (λ _ s', holds this s' [] 0).
Proof.
  intros Hd.
  assert (Hh : holds this s [] 0) by by left.
  unfold emplace_back, cend. wp_pure. rewrite Hd. cbn [first last end_ null_data].
  unfold emplace. cbv zeta. wp_pure. rewrite Hd. cbn [first last end_ null_data].
  rewrite decide_False by (intros H; by apply H).
  apply wp_bind. eapply wp_run; [eapply capacity_run; exact Hh|]. cbv beta.
  apply wp_bind.
  destruct (calculate_growth_one _ _ _ _ Hh) as [Hg|(nc & Hg & Hnc1 & Hnc2)];
    (eapply wp_run; [exact Hg|]); cbv beta iota; [done|].
  apply wp_bind. eapply wp_run; [apply allocate_run; lia|].
  destruct (throws_next s) eqn:Hthrow; cbv beta iota; [by apply holds_tick|].
  set (nb := length (heap s)).
  wp_pure. state_simpl. rewrite Hd. cbn [first last end_ null_data].
  eapply (wp_run _ _ _ (Ok 0 _)); [reflexivity|]. cbv beta iota.
  cbn [ptr_add Nat.add].
  apply wp_bind, wp_try_cleanup.
  eapply wp_run.
  { eapply (construct_val_run _ nb 0 (replicate nc None)).
    - state_simpl. apply heap_block_app_new.
    - apply lookup_replicate_2. lia. }
  state_simpl.
  set (s1 := set_heap (heap s ++ [Some (replicate nc None)]) (tick s)).
  destruct (throws_next s1); cbv beta iota.
  - eapply wp_run.
    { eapply (deallocate_run _ nb (replicate nc None)).
      - state_simpl. subst s1. state_simpl. apply heap_block_app_new.
      - apply length_replicate. }
    cbv beta iota. left. unfold data_of. subst s1. by state_simpl.
  - subst s1 nb. rewrite insert_last_block, (insert_replicate_raw v 0) by lia.
    set (nb := length (heap s)).
    set (s2 := set_heap _ _).
    assert (Hd2 : cpair_second (get_obj this s2) = null_data).
    { subst s2. by state_simpl. }
    wp_pure. rewrite Hd2. cbn [first last end_ null_data].
    rewrite decide_True by done.
    apply wp_bind, wp_try_cleanup.
    eapply wp_run; [apply reversible_uninitialised_move_null|]. cbv beta iota.
    wp_pure.
    assert (Hh2 : holds this s2 [] 0) by by left.
    destruct (replace_run this s2 [] 0 (Ptr nb 0) (ptr_add (Ptr nb 0) 1) nc Hh2)
      as (h' & Hr & Hlen & Hh').
    eapply wp_run; [exact Hr|]. cbv beta iota. wp_pure.
    exists nc. right. exists nb. unfold data_of. state_simpl.
    cbn [cpair_second ptr_add]. simpl.
    split; [done|]. split; [|lia].
    apply heap_block_lookup. rewrite Hh'; last first.
    { unfold data_of. rewrite Hd2. done. }
    subst s2. state_simpl. subst nb.
    rewrite list_lookup_middle by done.
    first [done | repeat f_equal; lia].
Qed.

(** Appending one value: the container then holds one more value, or the
    operation throws and the container holds what it held. *)
Lemma emplace_back_run this s (l : list T) c v :
  holds this s l c →
  wp False (emplace_back this (Val v)) s
    (λ _ s', ∃ c', holds this s' (l ++ [v]) c')
    (λ _ s', holds this s' l c).
Proof.
  intros H. apply holds_data in H as [(-> & -> & Hd)|(b & Hd & Hb & Hlc & Hc)].
  - by apply emplace_back_null.
  - destruct (decide (length l = c)) as [<-|Hne].
    + apply (emplace_back_full _ _ _ b); try done.
      by rewrite Nat.sub_diag, app_nil_r in Hb.
    + apply (emplace_back_spare _ _ _ _ b); try done. lia.
Qed.

(** ** Inserting a single-pass range *)

Arguments emplace_back : simpl never.
Arguments rotate : simpl never.

(** Appending the values [vs] one at a time: all get in, or the append of
    some value throws once the values before it are in. *)
Lemma append_all_run this s (l vs : list T) c :
  holds this s l c →
  wp False (for_each (λ x, emplace_back this x;; mret tt) (Val <$> vs)) s
    (λ _ s', ∃ c', holds this s' (l ++ vs) c')
    (λ _ s', ∃ c' k, k < length vs ∧ holds this s' (l ++ take k vs) c').
Proof.
  revert l s c. induction vs as [|v vs IH]; intros l s c H.
  - simpl. apply wp_ret. exists c. by rewrite app_nil_r.
  - cbn [fmap list_fmap for_each]. apply wp_bind, wp_bind.
    eapply wp_mono; [by apply emplace_back_run|..]; cbv beta.
    + intros _ s1 (c1 & H1). apply wp_ret.
      eapply wp_mono; [by apply (IH (l ++ [v]) s1 c1)|..]; cbv beta.
      * intros _ s2 (c2 & H2). exists c2. by rewrite <- app_assoc in H2.
      * intros _ s2 (c2 & k & Hk & H2). exists c2, (S k). split; [simpl; lia|].
        by rewrite <- app_assoc in H2.
    + intros _ s1 H1. exists c, 0. split; [simpl; lia|].
      by rewrite app_nil_r.
Qed.

Lemma read_all_run s b (pre post : list (option T)) (vs : list T) :
  heap_block (heap s) b = Some (pre ++ (Some <$> vs) ++ post) →
  read_all (Ptr b <$> seq (length pre) (length vs)) s = Ok vs s.
Proof.
  revert pre. induction vs as [|v vs IH]; intros pre Hb; [done|].
  cbn [length seq fmap list_fmap read_all].
  erewrite bind_ok; last first.
  { eapply read_live; [exact Hb|]. by apply list_lookup_middle. }
  erewrite bind_ok; [reflexivity|].
  replace (S (length pre)) with (length (pre ++ [Some v]))
    by (rewrite length_app; simpl; lia).
  apply IH. by rewrite <- app_assoc.
Qed.

Lemma write_all_run s b (pre old post : list (option T)) (vs : list T) :
  heap_block (heap s) b = Some (pre ++ old ++ post) →
  length old = length vs →
  write_all (Ptr b <$> seq (length pre) (length vs)) vs s
  = Ok tt (set_heap (<[b := Some (pre ++ (Some <$> vs) ++ post)]> (heap s)) s).
Proof.
  revert pre old s. induction vs as [|v vs IH]; intros pre old s Hb Hlen.
  - destruct old; [|done]. simpl.
    rewrite list_insert_id by by apply heap_block_lookup.
    by rewrite set_heap_id.
  - destruct old as [|c old]; [done|]. simpl in Hlen.
    cbn [length seq fmap list_fmap write_all].
    erewrite bind_ok by apply write_run.
    erewrite heap_store_block by exact Hb.
    replace (S (length pre)) with (length (pre ++ [Some v]))
      by (rewrite length_app; simpl; lia).
    erewrite (IH (pre ++ [Some v]) old); [| |lia].
    + state_simpl. rewrite list_insert_insert_eq.
      by rewrite <- app_assoc.
    + state_simpl. rewrite heap_block_insert_eq by by eapply heap_block_lt.
      rewrite insert_app_r_alt by lia. rewrite Nat.sub_diag. simpl.
      by rewrite <- app_assoc.
Qed.

Lemma set_faults_set_faults f f' s :
  set_faults f (set_faults f' s) = set_faults f s.
Proof. done. Qed.

Lemma set_faults_id s : set_faults (faults s) s = s.
Proof. by destruct s. Qed.

(** The moves of a rotation over the values [vs] of a block: they all go
    through, and only the fault schedule has changed; or one throws and the
    range is left holding the arrangement of the library, as many values as
    before. *)
Lemma rotate_steps_run s b (pre post : list (option T)) (vs : list T) m k n :
  heap_block (heap s) b = Some (pre ++ (Some <$> vs) ++ post) →
  wp False
    (rotate_steps (Ptr b <$> seq (length pre) (length vs)) m vs k n) s
    (λ _ s', ∃ f, s' = set_faults f s)
    (λ _ s', ∃ f l', length l' = length vs ∧
       s' = set_faults f
              (set_heap (<[b := Some (pre ++ (Some <$> l') ++ post)]> (heap s))
                 s)).
Proof.
  intros Hb. revert k s Hb. induction n as [|n IH]; intros k s Hb.
  - apply wp_ret. exists (faults s). by rewrite set_faults_id.
  - cbn [rotate_steps]. apply wp_bind, wp_try_cleanup.
    eapply wp_run; [apply may_throw_run|].
    destruct (throws_next s).
    + pose proof (rotate_unwind_length k m vs) as Hlen.
      rewrite <- Hlen.
      eapply wp_run.
      { eapply (write_all_run (tick s) b pre (Some <$> vs) post).
        - exact Hb.
        - by rewrite length_fmap. }
      cbv beta iota. exists (tail (faults s)), (rotate_unwind k m vs).
      split; [done|]. by destruct s.
    + eapply wp_mono; [apply (IH (S k) (tick s)); exact Hb|..]; cbv beta.
      * intros _ s' [f ->]. by exists f.
      * intros _ s' (f & l' & Hl' & ->). by exists f, l'.
Qed.

(** [rotate] on the tail of a container's values: the tail from [i] on is
    rotated about [j]; or, for an element type whose moves may throw, a move
    throws and the tail holds as many values as before. *)
Lemma rotate_run s b (l : list T) (tail : list (option T)) i j :
  i ≤ j → j ≤ length l →
  heap_block (heap s) b = Some ((Some <$> l) ++ tail) →
  wp False (rotate (Ptr b i) (Ptr b j) (Ptr b (length l))) s
    (λ _ s', ∃ f, s' = set_faults f
       (set_heap
          (<[b := Some ((Some <$> take i l ++ drop j l
                                  ++ take (j - i) (drop i l)) ++ tail)]>
             (heap s)) s))
    (λ _ s', is_nothrow_move_constructible && is_nothrow_move_assignable
             = false ∧
       ∃ f l', length l' = length l - i ∧
         s' = set_faults f
                (set_heap
                   (<[b := Some ((Some <$> take i l ++ l') ++ tail)]>
                      (heap s)) s)).
Proof.
  intros Hij Hj Hb. unfold rotate.
  assert (Hlen_take : length (Some <$> take i l) = i).
  { rewrite length_fmap, length_take. lia. }
  assert (Hlen_drop : length (drop i l) = length l - i) by apply length_drop.
  assert (Hb' : heap_block (heap s) b
                = Some ((Some <$> take i l) ++ (Some <$> drop i l) ++ tail)).
  { rewrite Hb. f_equal. by rewrite app_assoc, <- fmap_app, take_drop. }
  apply wp_bind. eapply wp_run.
  { replace (length l) with (i + (length l - i)) at 1 by lia. apply range_run. }
  cbv beta iota.
  apply wp_bind. eapply wp_run; [apply ptr_diff_run; lia|]. cbv beta iota.
  apply wp_bind. eapply wp_run.
  { replace (seq i (length l - i))
      with (seq (length (Some <$> take i l)) (length (drop i l)))
      by (by rewrite Hlen_take, Hlen_drop).
    eapply read_all_run. exact Hb'. }
  cbv beta iota.
  assert (Hfinal : ∀ f,
    wp False
      (write_all (Ptr b <$> seq i (length l - i))
         (drop (j - i) (drop i l) ++ take (j - i) (drop i l)))
      (set_faults f s)
      (λ _ s', ∃ f, s' = set_faults f
         (set_heap
            (<[b := Some ((Some <$> take i l ++ drop j l
                                    ++ take (j - i) (drop i l)) ++ tail)]>
               (heap s)) s))
      (λ _ s', is_nothrow_move_constructible && is_nothrow_move_assignable
               = false ∧
         ∃ f l', length l' = length l - i ∧
           s' = set_faults f
                  (set_heap
                     (<[b := Some ((Some <$> take i l ++ l') ++ tail)]>
                        (heap s)) s))).
  { intros f.
    replace (seq i (length l - i))
      with (seq (length (Some <$> take i l))
              (length (drop (j - i) (drop i l) ++ take (j - i) (drop i l)))).
    2: { rewrite Hlen_take, length_app, length_drop, length_take, Hlen_drop.
         f_equal. lia. }
    eapply wp_run.
    { eapply (write_all_run (set_faults f s) b _ (Some <$> drop i l)).
      - exact Hb'.
      - rewrite length_fmap, length_app, !length_drop, length_take,
          !length_drop. lia. }
    cbv beta iota. exists f. cbn [heap set_faults set_heap].
    do 4 f_equal. rewrite drop_drop.
    replace (i + (j - i)) with j by lia.
    by rewrite !fmap_app, <- !app_assoc. }
  apply wp_bind.
  destruct (is_nothrow_move_constructible && is_nothrow_move_assignable)
    eqn:Hnt.
  - apply wp_ret. rewrite <- (set_faults_id s) at 1. apply Hfinal.
  - replace (seq i (length l - i))
      with (seq (length (Some <$> take i l)) (length (drop i l)))
      by (by rewrite Hlen_take, Hlen_drop).
    eapply wp_mono; [apply (rotate_steps_run s b); exact Hb'|..]; cbv beta.
    + intros _ s' [f ->]. rewrite Hlen_drop, Hlen_take. apply Hfinal.
    + intros _ s' (f & l' & Hl' & ->). split; [done|]. exists f, l'.
      split; [by rewrite Hl'|].
      by rewrite fmap_app, <- app_assoc.
Qed.

(** ** Runs without faults *)

Arguments calm : simpl never.

Create HintDb calm discriminated.

Lemma calm_ret {A} (a : A) s : calm (T:=T) (mret a) s.
Proof. by intros H. Qed.

Lemma calm_bind {A B} (m : M A) (f : A → M B) s :
  calm m s → (∀ a s', m s = Ok a s' → calm (f a) s') →
  calm (T:=T) (m ≫= f) s.
Proof.
  intros Hm Hf Hs. specialize (Hm Hs). unfold mbind, M_bind.
  destruct (m s) as [a s'|e s'|] eqn:E; [|done..].
  by apply (Hf a s').
Qed.

Lemma calm_run {A B} (m : M A) (f : A → M B) s a s' :
  m s = Ok a s' → (faults s = [] → faults s' = []) → calm (f a) s' →
  calm (T:=T) (m ≫= f) s.
Proof.
  intros Hm Hf Hk Hs. unfold mbind, M_bind. rewrite Hm. apply Hk. by apply Hf.
Qed.

Lemma calm_data {B} this (f : _darray_data → M B) s :
  calm (f (cpair_second (get_obj this s))) s →
  calm (T:=T) (_data this ≫= f) s.
Proof. intros H. by eapply calm_run. Qed.

Lemma serene_calm {A} (m : M A) s : serene m → calm (T:=T) m s.
Proof. intros H. apply H. Qed.

Lemma serene_ret {A} (a : A) : serene (T:=T) (mret a).
Proof. intros s. apply calm_ret. Qed.

Lemma serene_bind {A B} (m : M A) (f : A → M B) :
  serene m → (∀ a, serene (f a)) → serene (T:=T) (m ≫= f).
Proof. intros Hm Hf s. apply calm_bind; [apply Hm|]. intros a s' _. apply Hf. Qed.

Lemma serene_undefined {A} : serene (T:=T) (A:=A) undefined.
Proof. by intros s H. Qed.

Lemma serene_try_catch {A} (m : M A) h :
  serene m → serene (T:=T) (try_catch m h).
Proof.
  intros Hm s Hs. specialize (Hm s Hs). unfold try_catch.
  by destruct (m s).
Qed.

Lemma serene_try_cleanup {A} (m : M A) c :
  serene m → serene (T:=T) (try_cleanup m c).
Proof. apply serene_try_catch. Qed.

Lemma serene_get_heap : serene (T:=T) get_heap.
Proof. by intros s H. Qed.

Lemma serene_put_heap h : serene (T:=T) (put_heap h).
Proof. by intros s H. Qed.

Lemma serene_may_throw e : serene (T:=T) (may_throw e).
Proof. intros s H. unfold may_throw. by rewrite H. Qed.

Lemma serene_verify b : serene (T:=T) (EXPU_VERIFY_DEBUG b).
Proof. destruct b; [apply serene_ret|apply serene_undefined]. Qed.

Lemma serene_data this : serene (T:=T) (_data this).
Proof. by intros s H. Qed.

Lemma serene_set_data this d : serene (T:=T) (set_data this d).
Proof. intros s H. by destruct this. Qed.

#[local] Hint Resolve serene_ret serene_undefined serene_get_heap
  serene_put_heap serene_may_throw serene_verify serene_data
  serene_set_data : calm.

Ltac serene_step :=
  lazymatch goal with
  | |- serene (_ ≫= _) => apply serene_bind; [|intros ?]
  | |- serene (try_cleanup _ _) => apply serene_try_cleanup
  | |- serene (try_catch _ _) => apply serene_try_catch
  | |- serene (if ?b then _ else _) => destruct b
  | |- serene (match ?x with _ => _ end) => destruct x
  | |- serene _ => solve [eauto with calm]
  end.

Ltac serene_go := repeat serene_step.

Lemma serene_ptr_diff p q : serene (T:=T) (ptr_diff p q).
Proof. unfold ptr_diff. serene_go. Qed.

Lemma serene_ptr_sub p n : serene (T:=T) (ptr_sub p n).
Proof. unfold ptr_sub. serene_go. Qed.

Lemma serene_range p q : serene (T:=T) (range p q).
Proof. unfold range. serene_go. Qed.

Lemma serene_read p : serene (T:=T) (read p).
Proof. unfold read. serene_go. Qed.

Lemma serene_write p c : serene (T:=T) (write p c).
Proof. unfold write. serene_go. Qed.

#[local] Hint Resolve serene_ptr_diff serene_ptr_sub serene_range serene_read
  serene_write : calm.

Lemma serene_fetch x : serene (T:=T) (fetch x).
Proof. unfold fetch. serene_go. Qed.

Lemma serene_consume x v : serene (T:=T) (consume x v).
Proof. unfold consume. serene_go. Qed.

Lemma serene_construct_may_throw x : serene (T:=T) (construct_may_throw x).
Proof. unfold construct_may_throw. serene_go. Qed.

#[local] Hint Resolve serene_fetch serene_consume
  serene_construct_may_throw : calm.

Lemma serene_construct p x : serene (T:=T) (construct p x).
Proof. unfold construct. serene_go. Qed.

Lemma serene_destroy p : serene (T:=T) (destroy p).
Proof. unfold destroy. serene_go. Qed.

Lemma serene_deallocate p n : serene (T:=T) (deallocate p n).
Proof. unfold deallocate. serene_go. Qed.

Lemma serene_for_each {A} (f : A → M unit) (l : list A) :
  (∀ a, serene (f a)) → serene (T:=T) (for_each f l).
Proof.
  intros Hf. induction l as [|a l IH]; simpl; [apply serene_ret|].
  apply serene_bind; [apply Hf|]. by intros _.
Qed.

#[local] Hint Resolve serene_construct serene_destroy serene_deallocate : calm.

Lemma serene_destroy_range p q : serene (T:=T) (destroy_range p q).
Proof.
  unfold destroy_range. serene_go. apply serene_for_each. eauto with calm.
Qed.

#[local] Hint Resolve serene_destroy_range : calm.

Lemma serene_uninitialised_construct r dest cur :
  serene (T:=T) (uninitialised_construct r dest cur).
Proof.
  revert cur. induction r as [|x r IH]; intros cur; simpl; [apply serene_ret|].
  serene_go; try apply IH.
Qed.

#[local] Hint Resolve serene_uninitialised_construct : calm.

Lemma serene_reversible_uninitialised_move p q output :
  serene (T:=T) (_reversible_uninitialised_move p q output).
Proof.
  unfold _reversible_uninitialised_move, uninitialised_move,
    uninitialised_copy, lvalues, rvalues.
  serene_go.
Qed.

Lemma serene_read_all ps : serene (T:=T) (read_all ps).
Proof.
  induction ps as [|p ps IH]; simpl; [apply serene_ret|]. serene_go.
Qed.

Lemma serene_write_all ps (vs : list T) : serene (T:=T) (write_all ps vs).
Proof.
  revert vs. induction ps as [|p ps IH]; intros [|v vs]; simpl;
    try apply serene_ret.
  serene_go; try apply IH.
Qed.

#[local] Hint Resolve serene_reversible_uninitialised_move serene_read_all
  serene_write_all : calm.

Lemma serene_rotate_steps ps m (vs : list T) k n :
  serene (T:=T) (rotate_steps ps m vs k n).
Proof.
  revert k. induction n as [|n IH]; intros k; simpl; [apply serene_ret|].
  serene_go; try apply IH.
Qed.

#[local] Hint Resolve serene_rotate_steps : calm.

Lemma serene_rotate f m l : serene (T:=T) (rotate f m l).
Proof. unfold rotate. serene_go. Qed.

Lemma serene_capacity this : serene (T:=T) (capacity this).
Proof. unfold capacity. serene_go. Qed.

Lemma serene_size this : serene (T:=T) (size this).
Proof. unfold size. serene_go. Qed.

#[local] Hint Resolve serene_rotate serene_capacity serene_size : calm.

Lemma serene_clear_dealloc this : serene (T:=T) (_clear_dealloc this).
Proof. unfold _clear_dealloc. serene_go. Qed.

#[local] Hint Resolve serene_clear_dealloc : calm.

Lemma serene_replace this nf nl nc : serene (T:=T) (_replace this nf nl nc).
Proof. unfold _replace, set_first, set_last, set_end. serene_go. Qed.

Lemma serene_u_emplace_back this x : serene (T:=T) (u_emplace_back this x).
Proof. unfold u_emplace_back, set_last. serene_go. Qed.

#[local] Hint Resolve serene_replace serene_u_emplace_back : calm.

Lemma calm_allocate n s : n ≤ alloc_max_size → calm (T:=T) (allocate n) s.
Proof.
  intros Hn Hs. rewrite allocate_run by done.
  unfold throws_next. rewrite Hs. unfold tick. simpl. by rewrite Hs.
Qed.

Lemma calculate_growth_one_ok this s (l : list T) c :
  holds this s l c → c < alloc_max_size →
  ∃ nc, _calculate_growth this (size_t_add c 1) s = Ok nc s ∧
        c + 1 ≤ nc ∧ nc ≤ alloc_max_size.
Proof.
  intros H Hlt. destruct (calculate_growth_one this s l c H)
    as [Hg|Hg]; [|done].
  exfalso. pose proof max_size_small.
  rewrite size_t_add_small in Hg by lia.
  unfold _calculate_growth, max_size in Hg.
  rewrite (bind_ok (mret alloc_max_size) _ s alloc_max_size s) in Hg by done.
  rewrite decide_False in Hg by lia.
  pose proof (holds_bounds _ _ _ _ H) as [Hlc Hc].
  pose proof (size_run _ _ l c H) as Hsz.
  rewrite (bind_ok _ _ _ _ _ Hsz) in Hg.
  rewrite (bind_ok (mret alloc_max_size) _ s alloc_max_size s) in Hg by done.
  rewrite (bind_ok _ _ _ _ _ Hsz) in Hg.
  case_decide; [done|].
  by rewrite (bind_ok _ _ _ _ _ Hsz) in Hg.
Qed.

(** Appending a value when no fault is scheduled and the allocator can
    address one more element: nothing throws. *)
Lemma emplace_back_calm this s (l : list T) c v :
  holds this s l c → length l < alloc_max_size →
  calm (emplace_back this (Val v)) s.
Proof.
  intros H Hlt. pose proof (holds_bounds _ _ _ _ H) as [Hlc Hc].
  unfold emplace_back, cend.
  eapply (calm_run _ _ s (last (cpair_second (get_obj this s))) s);
    [done..|].
  unfold emplace. cbv zeta. apply calm_data.
  pose proof H as H0.
  apply holds_data in H0 as [(-> & -> & Hd)|(b & Hd & Hb & _)];
    unfold data_of in Hd; rewrite Hd; cbn [first last end_ null_data].
  - rewrite decide_False by (intros Hx; by apply Hx).
    eapply calm_run; [eapply capacity_run; exact H|done|].
    destruct (calculate_growth_one_ok this s [] 0 H) as (nc & Hg & Hnc1 & Hnc2);
      [simpl in Hlt; lia|].
    eapply calm_run; [exact Hg|done|].
    apply calm_bind; [by apply calm_allocate|]. intros nf s1 _.
    apply serene_calm. serene_go.
  - destruct (decide (length l = c)) as [<-|Hne].
    + rewrite decide_False by (intros Hx; by apply Hx).
      eapply calm_run; [eapply capacity_run; exact H|done|].
      destruct (calculate_growth_one_ok this s l (length l) H)
        as (nc & Hg & Hnc1 & Hnc2); [done|].
      eapply calm_run; [exact Hg|done|].
      apply calm_bind; [by apply calm_allocate|]. intros nf s1 _.
      apply serene_calm. serene_go.
    + rewrite decide_True by (intros [=]; lia).
      apply calm_data. rewrite Hd. cbn [first last end_].
      rewrite decide_True by done.
      apply serene_calm. serene_go.
Qed.

(** Appending values when no fault is scheduled and the allocator can
    address them all. *)
Lemma append_all_calm this s (l vs : list T) c :
  holds this s l c → length l + length vs ≤ alloc_max_size →
  calm (for_each (λ x, emplace_back this x;; mret tt) (Val <$> vs)) s.
Proof.
  revert l s c. induction vs as [|v vs IH]; intros l s c H Hlen.
  - apply calm_ret.
  - cbn [fmap list_fmap for_each]. simpl in Hlen.
    apply calm_bind.
    + apply calm_bind; [apply (emplace_back_calm this s l c); [done|lia]|].
      intros _ s' _. apply calm_ret.
    + intros [] s1 Hrun.
      pose proof (emplace_back_run this s l c v H) as Hw. unfold wp in Hw.
      unfold mbind, M_bind in Hrun.
      destruct (emplace_back this (Val v) s) as [p s2|e s2|]; [|done..].
      injection Hrun as ->. destruct Hw as (c1 & H1).
      apply (IH (l ++ [v]) s1 c1 H1). rewrite length_app. simpl. lia.
Qed.

Lemma position_diff_run this s (l : list T) c i :
  holds this s l c → i ≤ length l →
  ptr_diff (ptr_add (first (cpair_second (get_obj this s))) i)
           (first (cpair_second (get_obj this s))) s
  = Ok i s.
Proof.
  intros H Hi.
  apply holds_data in H as [(-> & -> & Hd)|(b & Hd & Hb & Hlc & Hc)];
    unfold data_of in Hd; rewrite Hd; simpl.
  - simpl in Hi. by replace i with 0 by lia.
  - rewrite decide_True by (split; [done|lia]). by rewrite Nat.sub_0_r.
Qed.

Lemma rotated_list (l vs : list T) i :
  i ≤ length l →
  take i (l ++ vs) ++ drop (length l) (l ++ vs)
    ++ take (length l - i) (drop i (l ++ vs))
  = take i l ++ vs ++ drop i l.
Proof.
  intros Hi. rewrite take_app_le by done. rewrite drop_app_length.
  rewrite drop_app_le by done.
  by rewrite take_app_length' by (by rewrite length_drop).
Qed.

(** Appending the range and rotating it into place: what the container
    holds when the insertion returns, when an append throws, and when the
    rotation throws. *)
Lemma insert_input_run this s (l : list T) c i (vs : list T) :
  holds this s l c → i ≤ length l →
  wp False
    (insert_input this (ptr_add (first (data_of this s)) i) (Val <$> vs)) s
    (λ _ s', ∃ c', holds this s' (take i l ++ vs ++ drop i l) c')
    (λ _ s',
       (∃ c' k, k < length vs ∧ holds this s' (l ++ take k vs) c') ∨
       (is_nothrow_move_constructible && is_nothrow_move_assignable = false ∧
        i < length l ∧
        ∃ c' l', length l' = length l - i + length vs ∧
                 holds this s' (take i l ++ l') c')).
Proof.
  intros H Hi. unfold insert_input, data_of. wp_pure.
  eapply wp_run; [by eapply (position_diff_run _ _ l c)|]. cbv beta iota.
  apply wp_bind. eapply wp_run; [by eapply (size_run _ _ l c)|]. cbv beta iota.
  apply wp_bind.
  eapply wp_mono; [by apply (append_all_run _ _ l vs c)|..]; cbv beta;
    [|by left].
  intros ? s1 (c1 & H1).
  case_decide as Hne; last first.
  { apply wp_ret. exists c1. subst i.
    by rewrite take_ge, drop_ge, app_nil_r by lia. }
  apply holds_data in H1 as [(Hnil & _)|(b & Hd & Hb & Hlc & Hc)].
  { apply app_eq_nil in Hnil as [-> _]. simpl in Hi, Hne. lia. }
  unfold data_of in Hd. wp_pure. rewrite Hd. cbn [first last end_ ptr_add].
  rewrite !Nat.add_0_l.
  pose proof (heap_block_lt _ _ _ Hb) as Hlt.
  eapply wp_mono.
  { eapply (rotate_run s1 b (l ++ vs)); [|rewrite length_app|exact Hb]; lia. }
  - cbv beta. intros _ s' [f ->]. rewrite rotated_list by done.
    exists c1. right. exists b. unfold data_of. state_simpl. rewrite Hd.
    assert (Hlen : length (take i l ++ vs ++ drop i l) = length (l ++ vs)).
    { rewrite !length_app, length_take, length_drop. lia. }
    rewrite Hlen. split; [done|]. split; [|done].
    by apply heap_block_insert_eq.
  - cbv beta. intros _ s' (Hnt & f & l' & Hl' & ->). right.
    split; [done|]. split; [lia|].
    rewrite take_app_le by done.
    exists c1, l'. split; [rewrite Hl', length_app; lia|].
    right. exists b. unfold data_of. state_simpl. rewrite Hd.
    assert (Hlen : length (take i l ++ l') = length (l ++ vs)).
    { rewrite !length_app, length_take, Hl', length_app. lia. }
    rewrite Hlen. split; [done|]. split; [|done].
    by apply heap_block_insert_eq.
Qed.

(** Without faults, and within what the allocator can address, the insertion
    returns. *)
Lemma insert_input_calm this s (l : list T) c i (vs : list T) :
  holds this s l c → i ≤ length l →
  length l + length vs ≤ alloc_max_size →
  calm (insert_input this (ptr_add (first (data_of this s)) i) (Val <$> vs)) s.
Proof.
  intros H Hi Hlen. unfold insert_input, data_of. apply calm_data.
  eapply calm_run; [by eapply (position_diff_run _ _ l c)|done|].
  eapply calm_run; [by eapply (size_run _ _ l c)|done|].
  apply calm_bind; [by apply (append_all_calm this s l vs c)|].
  intros _ s1 _. apply serene_calm. serene_go.
Qed.

(** C8. On a container holding the values [l], [insert(at, first, last)] of
    a single-pass range of values [vs] at index [i] (at most [length l]):

    - when it returns, the container holds [l] with [vs] inserted at index
      [i];
    - when it throws while appending, the container holds the values [l],
      each once and in order, followed by the values of the range appended
      so far;
    - when it throws while rotating, which only an element type with a
      throwing move can bring about, the [i] values before the position
      are as they were and the container has its full count of elements,
      [length l + length vs], each of them an object, with the values
      [std::rotate] left: a value may occur twice and another be gone;
    - it never leaves the defined fragment, and it returns whenever no fault
      is scheduled and the allocator can address the elements. *)
Theorem insert_input_spec this s (l : list T) c i (vs : list T) :
  holds this s l c → i ≤ length l →
  match insert_input this (ptr_add (first (data_of this s)) i) (Val <$> vs) s
  with
  | Ok _ s' => ∃ c', holds this s' (take i l ++ vs ++ drop i l) c'
  | Throw _ s' =>
      (∃ c' k, k < length vs ∧ holds this s' (l ++ take k vs) c') ∨
      (is_nothrow_move_constructible && is_nothrow_move_assignable = false ∧
       i < length l ∧
       ∃ c' l', length l' = length l - i + length vs ∧
                holds this s' (take i l ++ l') c')
  | Undefined => False
  end ∧
  (faults s = [] → length l + length vs ≤ alloc_max_size →
   ∃ s', insert_input this (ptr_add (first (data_of this s)) i)
           (Val <$> vs) s = Ok tt s').
Proof.
  intros H Hi. pose proof (insert_input_run this s l c i vs H Hi) as Hw.
  split; [exact Hw|]. intros Hf Hlen.
  pose proof (insert_input_calm this s l c i vs H Hi Hlen Hf) as Hc.
  unfold wp in Hw.
  destruct (insert_input this (ptr_add (first (data_of this s)) i)
              (Val <$> vs) s) as [[] s'|e s'|]; [by exists s'|done..].
Qed.

(** ** Cells, pointwise *)

Arguments cell_at : simpl never.
Arguments offset_in : simpl never.
Arguments same_shape : simpl never.
Arguments same_blocks : simpl never.

Lemma same_shape_refl s : same_shape s s.
Proof. done. Qed.

Lemma same_shape_trans s1 s2 s3 :
  same_shape s1 s2 → same_shape s2 s3 → same_shape s1 s3.
Proof.
  intros (Hx & Hy & Hl & Hb) (Hx' & Hy' & Hl' & Hb').
  repeat split; first [congruence | intros b; by rewrite Hb', Hb].
Qed.

Lemma same_shape_obj s s' v : same_shape s s' → get_obj v s' = get_obj v s.
Proof. intros (Hx & Hy & _). by destruct v. Qed.

Lemma same_shape_data s s' this :
  same_shape s s' → cpair_second (get_obj this s') = cpair_second (get_obj this s).
Proof. intros H. by rewrite (same_shape_obj _ _ _ H). Qed.

Lemma same_shape_tick s : same_shape s (tick s).
Proof. done. Qed.

Lemma same_shape_blocks s s' : same_shape s s' → same_blocks s s'.
Proof. by intros (_ & _ & Hl & Hb). Qed.

Lemma same_blocks_refl s : same_blocks s s.
Proof. done. Qed.

Lemma same_blocks_trans s1 s2 s3 :
  same_blocks s1 s2 → same_blocks s2 s3 → same_blocks s1 s3.
Proof.
  intros (Hl & Hb) (Hl' & Hb'). split; [congruence|].
  intros b. by rewrite Hb', Hb.
Qed.

Lemma same_blocks_set_obj s s' v (d : darray) :
  same_blocks s s' → same_blocks s (set_obj v d s').
Proof. intros (Hl & Hb). split; by rewrite heap_set_obj. Qed.

Lemma same_blocks_tick s s' : same_blocks s s' → same_blocks s (tick s').
Proof. done. Qed.

(** Chains the shape facts of the context up to the state of the goal. *)
Ltac blocks_chain_go :=
  lazymatch goal with
  | |- same_blocks ?s ?s => apply same_blocks_refl
  | |- same_blocks _ (set_obj _ _ _) =>
      apply same_blocks_set_obj; blocks_chain_go
  | |- same_blocks _ (tick _) => apply same_blocks_tick; blocks_chain_go
  | |- same_blocks _ ?s2 =>
      match goal with
      | H : same_shape _ s2 |- _ =>
          first
            [ apply same_shape_blocks; exact H
            | eapply same_blocks_trans; [|apply same_shape_blocks; exact H];
              blocks_chain_go ]
      end
  end.

Ltac blocks_chain :=
  repeat match goal with
         | x := _ |- _ => lazymatch type of x with state => subst x end
         end;
  blocks_chain_go.

Lemma cell_at_tick s q : cell_at (tick s) q = cell_at s q.
Proof. done. Qed.

Lemma heap_cell_store (h : list (option (list (option T)))) p (c : option T) q :
  is_Some (heap_cell h p) →
  heap_cell (heap_store h p c) q
  = if decide (q = p) then Some c else heap_cell h q.
Proof.
  intros [c0 Hp]. destruct p as [|b o]; [done|].
  unfold heap_cell in Hp. unfold heap_store.
  destruct (heap_block h b) as [blk|] eqn:Hb; [|done]. simpl in Hp.
  pose proof (heap_block_lt _ _ _ Hb) as Hlt.
  pose proof (lookup_lt_Some _ _ _ Hp) as Hlo.
  destruct q as [|b' o']; [by rewrite decide_False|].
  unfold heap_cell. destruct (decide (b' = b)) as [->|Hne].
  - rewrite heap_block_insert_eq by done. simpl.
    destruct (decide (o' = o)) as [->|Hno].
    + rewrite decide_True by done. by rewrite list_lookup_insert_eq.
    + rewrite decide_False by congruence. rewrite Hb. simpl.
      by rewrite list_lookup_insert_ne.
  - rewrite decide_False by congruence.
    by rewrite heap_block_insert_ne.
Qed.

Lemma heap_store_shape (h : list (option (list (option T)))) p (c : option T) :
  length (heap_store h p c) = length h ∧
  ∀ b, length <$> heap_block (heap_store h p c) b = length <$> heap_block h b.
Proof.
  destruct p as [|b o]; [done|]. unfold heap_store.
  destruct (heap_block h b) as [blk|] eqn:Hb; [|done].
  pose proof (heap_block_lt _ _ _ Hb) as Hlt.
  split; [by rewrite length_insert|]. intros b'.
  destruct (decide (b' = b)) as [->|Hne].
  - rewrite heap_block_insert_eq, Hb by done. simpl. by rewrite length_insert.
  - by rewrite heap_block_insert_ne.
Qed.

(** Writing a cell of a live block. *)
Lemma write_cells s p (c : option T) :
  is_Some (cell_at s p) →
  ∃ s', write p c s = Ok tt s' ∧ same_shape s s' ∧
        ∀ q, cell_at s' q = if decide (q = p) then Some c else cell_at s q.
Proof.
  intros Hp. eexists. split; [apply write_run|]. split.
  - destruct (heap_store_shape (heap s) p c) as [Hl Hb].
    repeat split; simpl; done.
  - intros q. unfold cell_at. simpl. by apply heap_cell_store.
Qed.

Lemma read_cells s p v : cell_at s p = Some (Some v) → read p s = Ok v s.
Proof.
  intros H. unfold read, get_heap, mbind, M_bind. unfold cell_at in H.
  by rewrite H.
Qed.

(** Constructing from a value. *)
Lemma construct_val_cells s p v :
  cell_at s p = Some None →
  wp False (construct p (Val v)) s
    (λ _ s', same_shape s s' ∧
             ∀ q, cell_at s' q
                  = if decide (q = p) then Some (Some v) else cell_at s q)
    (λ _ s', same_shape s s' ∧ ∀ q, cell_at s' q = cell_at s q).
Proof.
  intros Hp. unfold wp, construct, get_heap, mbind, M_bind.
  unfold cell_at in Hp. rewrite Hp. simpl. rewrite may_throw_run.
  destruct (throws_next s); [done|].
  destruct (write_cells (tick s) p (Some v)) as (s' & Hw & Hsh & Hc).
  { unfold cell_at. simpl. by rewrite Hp. }
  unfold mret, M_ret. rewrite Hw. done.
Qed.

Lemma destroy_cells s p v :
  cell_at s p = Some (Some v) →
  ∃ s', destroy p s = Ok tt s' ∧ same_shape s s' ∧
        ∀ q, cell_at s' q = if decide (q = p) then Some None else cell_at s q.
Proof.
  intros Hp. unfold destroy, get_heap, mbind, M_bind.
  unfold cell_at in Hp. rewrite Hp. apply write_cells.
  unfold cell_at. by rewrite Hp.
Qed.

(** Move construction that cannot throw. *)
Lemma construct_rvalue_cells s p q v :
  is_nothrow_move_constructible = true →
  cell_at s p = Some None → cell_at s q = Some (Some v) →
  ∃ s', construct p (Rvalue q) s = Ok tt s' ∧ same_shape s s' ∧
        ∀ q', cell_at s' q'
              = if decide (q' = p) then Some (Some v)
                else if decide (q' = q) then Some (Some (moved_from v))
                else cell_at s q'.
Proof.
  intros Hnt Hp Hq. unfold construct, get_heap, mbind, M_bind.
  pose proof Hp as Hp'. unfold cell_at in Hp'. rewrite Hp'. simpl.
  rewrite (read_cells _ _ _ Hq). unfold construct_may_throw. rewrite Hnt.
  unfold mret, M_ret.
  destruct (write_cells s q (Some (moved_from v))) as (s1 & Hw1 & Hsh1 & Hc1).
  { by rewrite Hq. }
  rewrite write_run in Hw1. injection Hw1 as Hw1. rewrite Hw1.
  destruct (write_cells s1 p (Some v)) as (s2 & Hw2 & Hsh2 & Hc2).
  { rewrite Hc1. case_decide; [done|]. by rewrite Hp. }
  exists s2. split; [exact Hw2|]. split; [by eapply same_shape_trans|].
  intros q'. rewrite Hc2. case_decide; [done|]. by rewrite Hc1.
Qed.

(** Move assignment that cannot throw. *)
Lemma assign_rvalue_cells s p q v w :
  is_nothrow_move_assignable = true →
  cell_at s p = Some (Some w) → cell_at s q = Some (Some v) →
  ∃ s', assign_elem p (Rvalue q) s = Ok tt s' ∧ same_shape s s' ∧
        ∀ q', cell_at s' q'
              = if decide (q' = p) then Some (Some v)
                else if decide (q' = q) then Some (Some (moved_from v))
                else cell_at s q'.
Proof.
  intros Hnt Hp Hq. unfold assign_elem, get_heap, mbind, M_bind.
  pose proof Hp as Hp'. unfold cell_at in Hp'. rewrite Hp'. simpl.
  rewrite (read_cells _ _ _ Hq). unfold assign_may_throw. rewrite Hnt.
  unfold try_cleanup, try_catch, mret, M_ret.
  destruct (write_cells s q (Some (moved_from v))) as (s1 & Hw1 & Hsh1 & Hc1).
  { by rewrite Hq. }
  rewrite write_run in Hw1. injection Hw1 as Hw1. rewrite Hw1.
  destruct (write_cells s1 p (Some v)) as (s2 & Hw2 & Hsh2 & Hc2).
  { rewrite Hc1. case_decide; [done|]. by rewrite Hp. }
  exists s2. split; [exact Hw2|]. split; [by eapply same_shape_trans|].
  intros q'. rewrite Hc2. case_decide; [done|]. by rewrite Hc1.
Qed.

(** Assignment from a value: it may throw, and the object assigned to is
    then left with what the assignment had made of it. *)
Lemma assign_val_cells s p v w :
  cell_at s p = Some (Some w) →
  wp False (assign_elem p (Val v)) s
    (λ _ s', same_shape s s' ∧
             ∀ q, cell_at s' q
                  = if decide (q = p) then Some (Some v) else cell_at s q)
    (λ _ s', same_shape s s' ∧
             ∀ q, cell_at s' q
                  = if decide (q = p) then Some (Some (assign_unwind w v))
                    else cell_at s q).
Proof.
  intros Hp. unfold wp, assign_elem, get_heap, mbind, M_bind.
  pose proof Hp as Hp'. unfold cell_at in Hp'. rewrite Hp'. simpl.
  unfold try_cleanup, try_catch. rewrite may_throw_run.
  destruct (throws_next s).
  - destruct (write_cells (tick s) p (Some (assign_unwind w v)))
      as (s' & Hw & Hsh & Hc).
    { by rewrite cell_at_tick, Hp. }
    unfold mbind, M_bind. rewrite Hw. unfold throw.
    split; [by eapply same_shape_trans; [apply same_shape_tick|]|].
    intros q. rewrite Hc. case_decide; [done|]. by rewrite cell_at_tick.
  - destruct (write_cells (tick s) p (Some v)) as (s' & Hw & Hsh & Hc).
    { by rewrite cell_at_tick, Hp. }
    unfold mret, M_ret. rewrite Hw.
    split; [by eapply same_shape_trans; [apply same_shape_tick|]|].
    intros q. rewrite Hc. case_decide; [done|]. by rewrite cell_at_tick.
Qed.

Lemma wp_ok {A} U (m : M A) s a s' (Q : A → state → Prop) E :
  m s = Ok a s' → Q a s' → wp U m s Q E.
Proof. intros H HQ. unfold wp. by rewrite H. Qed.

Lemma Ptr_ne b o b' o' : Ptr b o ≠ Ptr b' o' → b ≠ b' ∨ o ≠ o'.
Proof.
  intros H. destruct (decide (b = b')) as [->|]; [|by left].
  right. intros ->. done.
Qed.

Ltac cell_side :=
  first [ lia | done | by (intros [=]; lia) | by (f_equal; lia) ].

(** Settles the first test of the goal, by arithmetic where that decides
    it and by cases where it does not. *)
Ltac cell_step :=
  match goal with
  | |- context [decide ?P] =>
      first
        [ rewrite (decide_True (P:=P)) by cell_side
        | rewrite (decide_False (P:=P)) by cell_side
        | destruct (decide P) ]
  end;
  cbn beta iota; destruct_and?; simplify_eq;
  repeat match goal with
         | H : Ptr _ _ ≠ Ptr _ _ |- _ => apply Ptr_ne in H
         end.

Ltac cell_cases :=
  unfold offset_in; cbn [length] in *;
  repeat cell_step;
  repeat match goal with
         | H : Ptr _ _ ≠ Ptr _ _ |- _ => apply Ptr_ne in H
         end;
  try done; try lia.

(** Destroying a range of objects. *)
Lemma for_each_destroy_cells s b i n :
  (∀ k, i ≤ k < i + n → ∃ v, cell_at s (Ptr b k) = Some (Some v)) →
  ∃ s', for_each destroy (Ptr b <$> seq i n) s = Ok tt s' ∧ same_shape s s' ∧
        ∀ q, cell_at s' q = match offset_in (Ptr b i) n q with
                            | Some _ => Some None
                            | None => cell_at s q
                            end.
Proof.
  revert i s. induction n as [|n IH]; intros i s Hlive.
  - exists s. split; [done|]. split; [done|]. intros [|b' o]; [done|].
    cell_cases.
  - destruct (Hlive i) as [v Hv]; [lia|].
    destruct (destroy_cells _ _ _ Hv) as (s1 & Hd & Hsh1 & Hc1).
    destruct (IH (S i) s1) as (s2 & Hf & Hsh2 & Hc2).
    { intros k Hk. destruct (Hlive k) as [w Hw]; [lia|]. exists w.
      rewrite Hc1. rewrite decide_False by (intros [=]; lia). done. }
    exists s2. split.
    { cbn [seq fmap list_fmap for_each]. by erewrite bind_ok by exact Hd. }
    split; [by eapply same_shape_trans|].
    intros [|b' o]; rewrite Hc2, Hc1; [done|]. cell_cases.
Qed.

Lemma destroy_range_cells s b i n :
  (∀ k, i ≤ k < i + n → ∃ v, cell_at s (Ptr b k) = Some (Some v)) →
  ∃ s', destroy_range (Ptr b i) (Ptr b (i + n)) s = Ok tt s' ∧
        same_shape s s' ∧
        ∀ q, cell_at s' q = match offset_in (Ptr b i) n q with
                            | Some _ => Some None
                            | None => cell_at s q
                            end.
Proof.
  intros H. destruct (for_each_destroy_cells _ _ _ _ H) as (s' & Hf & Hrest).
  exists s'. split; [|done]. unfold destroy_range.
  by erewrite bind_ok by apply range_run.
Qed.

(** [(v :: l) !! a] where [a] is [0] or the successor of an index in the
    goal. *)
Ltac cons_lookup :=
  match goal with
  | |- context [(?v :: ?l) !! ?a] =>
      first
        [ replace a with 0 by lia
        | match goal with
          | |- context [l !! ?c] => replace a with (S c) by lia
          end ]
  end; done.

(** Building the values [vs] in raw storage: all are built, or a
    construction throws and what this call built is destroyed again. *)
Lemma uninitialised_construct_val_cells s b j0 j (vs : list T) :
  j0 ≤ j →
  (∀ k, j0 ≤ k < j → ∃ v, cell_at s (Ptr b k) = Some (Some v)) →
  (∀ k, j ≤ k < j + length vs → cell_at s (Ptr b k) = Some None) →
  wp False (uninitialised_construct (Val <$> vs) (Ptr b j0) (Ptr b j)) s
    (λ p' s', p' = Ptr b (j + length vs) ∧ same_shape s s' ∧
             ∀ q, cell_at s' q = match offset_in (Ptr b j) (length vs) q with
                                 | Some k => Some (vs !! k)
                                 | None => cell_at s q
                                 end)
    (λ _ s', same_shape s s' ∧
             ∀ q, cell_at s' q = match offset_in (Ptr b j0) (j - j0) q with
                                 | Some _ => Some None
                                 | None => cell_at s q
                                 end).
Proof.
  revert j s. induction vs as [|v vs IH]; intros j s Hj Hlive Hraw.
  - apply wp_ret. split; [f_equal; simpl; lia|]. split; [done|].
    intros [|b' o]; [done|]. cell_cases.
  - cbn [fmap list_fmap uninitialised_construct]. simpl in Hraw.
    apply wp_bind, wp_try_cleanup.
    eapply wp_mono; [apply (construct_val_cells s (Ptr b j) v), Hraw; lia|..];
      cbv beta.
    + intros _ s1 (Hsh1 & Hc1). cbn [ptr_add].
      eapply wp_mono; [apply (IH (j + 1) s1)|..]; cbv beta.
      * lia.
      * intros k Hk. rewrite Hc1. case_decide; [by eexists|].
        apply Hlive. cell_cases.
      * intros k Hk. rewrite Hc1. rewrite decide_False by (intros [=]; lia).
        apply Hraw. lia.
      * intros p2 s2 (-> & Hsh2 & Hc2). split; [f_equal; simpl; lia|].
        split; [by eapply same_shape_trans|].
        intros [|b' o]; rewrite Hc2, Hc1; [done|]. cell_cases; cons_lookup.
      * intros e s2 (Hsh2 & Hc2). split; [by eapply same_shape_trans|].
        intros [|b' o]; rewrite Hc2, Hc1; [done|]. cell_cases.
        symmetry. apply Hraw. lia.
    + intros e s1 (Hsh1 & Hc1).
      destruct (destroy_range_cells s1 b j0 (j - j0)) as (s2 & Hd & Hsh2 & Hc2).
      { intros k Hk. rewrite Hc1. apply Hlive. lia. }
      replace (j0 + (j - j0)) with j in Hd by lia.
      eapply wp_ok; [exact Hd|]. split; [by eapply same_shape_trans|].
      intros q. by rewrite Hc2, Hc1.
Qed.

Lemma uninitialised_copy_val_cells s b j (vs : list T) :
  (∀ k, j ≤ k < j + length vs → cell_at s (Ptr b k) = Some None) →
  wp False (uninitialised_copy (Val <$> vs) (Ptr b j)) s
    (λ p' s', p' = Ptr b (j + length vs) ∧ same_shape s s' ∧
             ∀ q, cell_at s' q = match offset_in (Ptr b j) (length vs) q with
                                 | Some k => Some (vs !! k)
                                 | None => cell_at s q
                                 end)
    (λ _ s', same_shape s s' ∧ ∀ q, cell_at s' q = cell_at s q).
Proof.
  intros Hraw. unfold uninitialised_copy.
  eapply wp_mono; [apply uninitialised_construct_val_cells; try done; lia|..];
    cbv beta; [done|].
  intros _ s' (Hsh & Hc). split; [done|]. intros [|b' o]; rewrite Hc; [done|].
  cell_cases.
Qed.

(** Moving a range of objects into raw storage, for an element type whose
    move constructor does not throw. *)
Lemma uninitialised_construct_rvalue_cells s b i b' j p0 (vs : list T) :
  is_nothrow_move_constructible = true →
  (∀ k v, vs !! k = Some v → cell_at s (Ptr b (i + k)) = Some (Some v)) →
  (∀ k, k < length vs → cell_at s (Ptr b' (j + k)) = Some None) →
  ∃ s', uninitialised_construct
          (Rvalue <$> (Ptr b <$> seq i (length vs))) p0 (Ptr b' j) s
        = Ok (Ptr b' (j + length vs)) s' ∧ same_shape s s' ∧
        ∀ q, cell_at s' q
             = match offset_in (Ptr b' j) (length vs) q with
               | Some k => Some (vs !! k)
               | None =>
                   match offset_in (Ptr b i) (length vs) q with
                   | Some k => Some (moved_from <$> vs !! k)
                   | None => cell_at s q
                   end
               end.
Proof.
  intros Hnt. revert i j s. induction vs as [|v vs IH]; intros i j s Hsrc Hraw.
  - exists s. split; [simpl; do 2 f_equal; lia|]. split; [done|].
    intros [|b0 o]; [done|]. cell_cases.
  - cbn [length seq fmap list_fmap uninitialised_construct].
    pose proof (Hsrc 0 v eq_refl) as Hv. rewrite Nat.add_0_r in Hv.
    pose proof (Hraw 0 ltac:(simpl; lia)) as Hr. rewrite Nat.add_0_r in Hr.
    destruct (construct_rvalue_cells s _ _ v Hnt Hr Hv) as (s1 & Hc & Hsh1 & Hc1).
    destruct (IH (S i) (j + 1) s1) as (s2 & Hu & Hsh2 & Hc2).
    { intros k w Hk. rewrite Hc1.
      specialize (Hsrc (S k) w Hk).
      replace (S i + k) with (i + S k) by lia.
      case_decide as E1.
      { rewrite E1, Hr in Hsrc. done. }
      rewrite decide_False by (intros [=]; lia). done. }
    { intros k Hk. rewrite Hc1.
      specialize (Hraw (S k) ltac:(simpl; lia)).
      replace (j + 1 + k) with (j + S k) by lia.
      rewrite decide_False by (intros [=]; lia).
      case_decide as E2; [|done].
      rewrite E2, Hv in Hraw. done. }
    exists s2. split.
    { erewrite bind_ok by (eapply try_cleanup_ok; exact Hc).
      cbn [ptr_add]. rewrite Hu. do 2 f_equal. simpl. lia. }
    split; [by eapply same_shape_trans|].
    assert (Hdisj : ∀ o, b = b' → i ≤ o < i + S (length vs) →
                         j ≤ o < j + S (length vs) → False).
    { intros o -> Ho1 Ho2.
      destruct (lookup_lt_is_Some_2 (v :: vs) (o - i)) as [w Hw];
        [simpl; lia|].
      specialize (Hsrc _ _ Hw). specialize (Hraw (o - j) ltac:(simpl; lia)).
      replace (i + (o - i)) with o in Hsrc by lia.
      replace (j + (o - j)) with o in Hraw by lia. congruence. }
    intros [|b0 o]; rewrite Hc2, Hc1; [done|]. cell_cases.
    all: first [ by (exfalso; eapply (Hdisj o); [done|lia..]) | cons_lookup ].
Qed.

Lemma uninitialised_move_cells s b i b' j (vs : list T) :
  is_nothrow_move_constructible = true →
  (∀ k v, vs !! k = Some v → cell_at s (Ptr b (i + k)) = Some (Some v)) →
  (∀ k, k < length vs → cell_at s (Ptr b' (j + k)) = Some None) →
  ∃ s', uninitialised_move (Ptr b i) (Ptr b (i + length vs)) (Ptr b' j) s
        = Ok (Ptr b' (j + length vs)) s' ∧ same_shape s s' ∧
        ∀ q, cell_at s' q
             = match offset_in (Ptr b' j) (length vs) q with
               | Some k => Some (vs !! k)
               | None =>
                   match offset_in (Ptr b i) (length vs) q with
                   | Some k => Some (moved_from <$> vs !! k)
                   | None => cell_at s q
                   end
               end.
Proof.
  intros Hnt Hsrc Hraw.
  destruct (uninitialised_construct_rvalue_cells s b i b' j (Ptr b' j) vs
              Hnt Hsrc Hraw) as (s' & Hu & Hrest).
  exists s'. split; [|done]. unfold uninitialised_move, rvalues.
  erewrite bind_ok; last first.
  { erewrite bind_ok by apply range_run. reflexivity. }
  exact Hu.
Qed.

(** Shifting objects towards the end of their block by move assignment,
    last object first, for an element type whose move assignment does not
    throw. *)
Lemma assign_backward_rvalue_cells s b i k n (vs : list T) :
  is_nothrow_move_assignable = true →
  (∀ t, t < n → ∃ v, vs !! t = Some v ∧
                     cell_at s (Ptr b (i + t)) = Some (Some v)) →
  (∀ t, t < n → ∃ w, cell_at s (Ptr b (i + k + t)) = Some (Some w)) →
  ∃ s', assign_backward (reverse (Rvalue <$> (Ptr b <$> seq i n)))
          (Ptr b (i + k + n)) s
        = Ok (Ptr b (i + k)) s' ∧ same_shape s s' ∧
        ∀ q, cell_at s' q
             = match offset_in (Ptr b (i + k)) n q with
               | Some t => Some (vs !! t)
               | None =>
                   match offset_in (Ptr b i) n q with
                   | Some t => Some (moved_from <$> vs !! t)
                   | None => cell_at s q
                   end
               end.
Proof.
  intros Hnt. revert s. induction n as [|n IH]; intros s Hsrc Hlive.
  - exists s. split; [simpl; do 2 f_equal; lia|]. split; [done|].
    intros [|b0 o]; [done|]. cell_cases.
  - destruct (Hsrc n) as (v & Hvn & Hv); [lia|].
    destruct (Hlive n) as (w & Hw); [lia|].
    destruct (assign_rvalue_cells s _ _ v w Hnt Hw Hv) as (s1 & Ha & Hsh1 & Hc1).
    destruct (IH s1) as (s2 & Hb & Hsh2 & Hc2).
    { intros t Ht. destruct (Hsrc t) as (v' & Hv' & Hcv'); [lia|].
      exists v'. split; [done|]. rewrite Hc1.
      rewrite !decide_False by (intros [=]; lia). done. }
    { intros t Ht. rewrite Hc1.
      rewrite decide_False by (intros [=]; lia).
      case_decide; [by eexists|]. apply Hlive. lia. }
    exists s2. split.
    { rewrite seq_S, !fmap_app, reverse_app. simpl.
      unfold ptr_sub. rewrite decide_True by lia.
      erewrite bind_ok by done.
      replace (i + k + S n - 1) with (i + k + n) by lia.
      by erewrite bind_ok by exact Ha. }
    split; [by eapply same_shape_trans|].
    intros [|b0 o]; rewrite Hc2, Hc1; [done|]. cell_cases.
    all: repeat match goal with
                | |- context [_ !! ?a] => progress replace a with n by lia
                end; by rewrite ?Hvn.
Qed.

Lemma backward_move_cells s b i k n (vs : list T) :
  is_nothrow_move_assignable = true →
  (∀ t, t < n → ∃ v, vs !! t = Some v ∧
                     cell_at s (Ptr b (i + t)) = Some (Some v)) →
  (∀ t, t < n → ∃ w, cell_at s (Ptr b (i + k + t)) = Some (Some w)) →
  ∃ s', backward_move (Ptr b i) (Ptr b (i + n)) (Ptr b (i + k + n)) s
        = Ok (Ptr b (i + k)) s' ∧ same_shape s s' ∧
        ∀ q, cell_at s' q
             = match offset_in (Ptr b (i + k)) n q with
               | Some t => Some (vs !! t)
               | None =>
                   match offset_in (Ptr b i) n q with
                   | Some t => Some (moved_from <$> vs !! t)
                   | None => cell_at s q
                   end
               end.
Proof.
  intros Hnt Hsrc Hlive.
  destruct (assign_backward_rvalue_cells s b i k n vs Hnt Hsrc Hlive)
    as (s' & Ha & Hrest).
  exists s'. split; [|done]. unfold backward_move, rvalues.
  erewrite bind_ok; last first.
  { erewrite bind_ok by apply range_run. reflexivity. }
  exact Ha.
Qed.

(** Shifting objects towards the start of their block by move assignment,
    first object first. *)
Lemma copy_rvalue_cells s b i k (vs : list T) :
  is_nothrow_move_assignable = true →
  (∀ t v, vs !! t = Some v → cell_at s (Ptr b (i + k + t)) = Some (Some v)) →
  (∀ t, t < length vs → ∃ w, cell_at s (Ptr b (i + t)) = Some (Some w)) →
  ∃ s', copy (Rvalue <$> (Ptr b <$> seq (i + k) (length vs))) (Ptr b i) s
        = Ok (Ptr b (i + length vs)) s' ∧ same_shape s s' ∧
        ∀ q, cell_at s' q
             = match offset_in (Ptr b i) (length vs) q with
               | Some t => Some (vs !! t)
               | None =>
                   match offset_in (Ptr b (i + k)) (length vs) q with
                   | Some t => Some (moved_from <$> vs !! t)
                   | None => cell_at s q
                   end
               end.
Proof.
  intros Hnt. revert i s. induction vs as [|v vs IH]; intros i s Hsrc Hlive.
  - exists s. split; [simpl; do 2 f_equal; lia|]. split; [done|].
    intros [|b0 o]; [done|]. cell_cases.
  - pose proof (Hsrc 0 v eq_refl) as Hv. rewrite Nat.add_0_r in Hv.
    destruct (Hlive 0) as (w & Hw); [simpl; lia|]. rewrite Nat.add_0_r in Hw.
    destruct (assign_rvalue_cells s _ _ v w Hnt Hw Hv) as (s1 & Ha & Hsh1 & Hc1).
    destruct (IH (S i) s1) as (s2 & Hb & Hsh2 & Hc2).
    { intros t v' Ht. rewrite Hc1.
      rewrite !decide_False by (intros [=]; lia).
      specialize (Hsrc (S t) v' Ht).
      by replace (S i + k + t) with (i + k + S t) by lia. }
    { intros t Ht. rewrite Hc1.
      rewrite decide_False by (intros [=]; lia).
      case_decide; [by eexists|].
      replace (S i + t) with (i + S t) by lia. apply Hlive. simpl. lia. }
    exists s2. split.
    { cbn [length seq fmap list_fmap copy].
      erewrite bind_ok by exact Ha. cbn [ptr_add].
      replace (i + 1) with (S i) by lia.
      replace (S (i + k)) with (S i + k) by lia.
      rewrite Hb. do 2 f_equal. lia. }
    split; [by eapply same_shape_trans|].
    intros [|b0 o]; rewrite Hc2, Hc1; [done|]. cell_cases; cons_lookup.
Qed.

Lemma move_cells s b i k (vs : list T) :
  is_nothrow_move_assignable = true →
  (∀ t v, vs !! t = Some v → cell_at s (Ptr b (i + k + t)) = Some (Some v)) →
  (∀ t, t < length vs → ∃ w, cell_at s (Ptr b (i + t)) = Some (Some w)) →
  ∃ s', move (Ptr b (i + k)) (Ptr b (i + k + length vs)) (Ptr b i) s
        = Ok (Ptr b (i + length vs)) s' ∧ same_shape s s' ∧
        ∀ q, cell_at s' q
             = match offset_in (Ptr b i) (length vs) q with
               | Some t => Some (vs !! t)
               | None =>
                   match offset_in (Ptr b (i + k)) (length vs) q with
                   | Some t => Some (moved_from <$> vs !! t)
                   | None => cell_at s q
                   end
               end.
Proof.
  intros Hnt Hsrc Hlive.
  destruct (copy_rvalue_cells s b i k vs Hnt Hsrc Hlive) as (s' & Ha & Hrest).
  exists s'. split; [|done]. unfold move, rvalues.
  erewrite bind_ok; last first.
  { erewrite bind_ok by apply range_run. reflexivity. }
  exact Ha.
Qed.

(** Assigning values over objects, front to back: all are assigned, or an
    assignment throws once those before it are done, leaving its own object
    with some value. *)
Lemma copy_val_cells s b i (vs : list T) :
  (∀ t, t < length vs → ∃ w, cell_at s (Ptr b (i + t)) = Some (Some w)) →
  wp False (copy (Val <$> vs) (Ptr b i)) s
    (λ p' s', p' = Ptr b (i + length vs) ∧ same_shape s s' ∧
              ∀ q, cell_at s' q = match offset_in (Ptr b i) (length vs) q with
                                  | Some t => Some (vs !! t)
                                  | None => cell_at s q
                                  end)
    (λ _ s', same_shape s s' ∧ ∃ m u, m < length vs ∧
              ∀ q, cell_at s' q = match offset_in (Ptr b i) m q with
                                  | Some t => Some (vs !! t)
                                  | None =>
                                      if decide (q = Ptr b (i + m))
                                      then Some (Some u) else cell_at s q
                                  end).
Proof.
  revert i s. induction vs as [|v vs IH]; intros i s Hlive.
  - apply wp_ret. split; [simpl; f_equal; lia|]. split; [done|].
    intros [|b0 o]; [done|]. cell_cases.
  - destruct (Hlive 0) as (w & Hw); [simpl; lia|]. rewrite Nat.add_0_r in Hw.
    cbn [fmap list_fmap copy]. apply wp_bind.
    eapply wp_mono; [apply (assign_val_cells s _ v w Hw)|..]; cbv beta.
    + intros _ s1 (Hsh1 & Hc1). cbn [ptr_add].
      eapply wp_mono; [apply (IH (i + 1) s1)|..]; cbv beta.
      * intros t Ht. rewrite Hc1. case_decide; [by eexists|].
        replace (i + 1 + t) with (i + S t) by lia. apply Hlive. simpl. lia.
      * intros p2 s2 (-> & Hsh2 & Hc2). split; [f_equal; simpl; lia|].
        split; [by eapply same_shape_trans|].
        intros [|b0 o]; rewrite Hc2, Hc1; [done|]. cell_cases; cons_lookup.
      * intros e s2 (Hsh2 & m & u & Hm & Hc2).
        split; [by eapply same_shape_trans|].
        exists (S m), u. split; [simpl; lia|].
        intros [|b0 o]; rewrite Hc2, Hc1; [done|].
        replace (i + 1 + m) with (i + S m) by lia.
        cell_cases; cons_lookup.
    + intros e s1 (Hsh1 & Hc1). split; [done|].
      exists 0, (assign_unwind w v). split; [simpl; lia|].
      rewrite Nat.add_0_r.
      intros [|b0 o]; rewrite Hc1; [done|]. cell_cases.
Qed.

(** Assigning values over a whole destination range; what is left of the
    values is returned. *)
Lemma copy_onto_val_cells s b i m (vs : list T) :
  m ≤ length vs →
  (∀ t, t < m → ∃ w, cell_at s (Ptr b (i + t)) = Some (Some w)) →
  wp False (copy_onto (Val <$> vs) (Ptr b <$> seq i m)) s
    (λ r' s', r' = Val <$> drop m vs ∧ same_shape s s' ∧
              ∀ q, cell_at s' q = match offset_in (Ptr b i) m q with
                                  | Some t => Some (vs !! t)
                                  | None => cell_at s q
                                  end)
    (λ _ s', same_shape s s' ∧ ∃ m' u, m' < m ∧
              ∀ q, cell_at s' q = match offset_in (Ptr b i) m' q with
                                  | Some t => Some (vs !! t)
                                  | None =>
                                      if decide (q = Ptr b (i + m'))
                                      then Some (Some u) else cell_at s q
                                  end).
Proof.
  revert i vs s. induction m as [|m IH]; intros i vs s Hm Hlive.
  - apply wp_ret. split; [by rewrite drop_0|]. split; [done|].
    intros [|b0 o]; [done|]. cell_cases.
  - destruct vs as [|v vs]; [simpl in Hm; lia|].
    destruct (Hlive 0) as (w & Hw); [lia|]. rewrite Nat.add_0_r in Hw.
    cbn [seq fmap list_fmap copy_onto]. apply wp_bind.
    eapply wp_mono; [apply (assign_val_cells s _ v w Hw)|..]; cbv beta.
    + intros _ s1 (Hsh1 & Hc1).
      eapply wp_mono; [apply (IH (S i) vs s1)|..]; cbv beta.
      * simpl in Hm. lia.
      * intros t Ht. rewrite Hc1. case_decide; [by eexists|].
        replace (S i + t) with (i + S t) by lia. apply Hlive. lia.
      * intros r2 s2 (-> & Hsh2 & Hc2). split; [done|].
        split; [by eapply same_shape_trans|].
        intros [|b0 o]; rewrite Hc2, Hc1; [done|]. cell_cases; cons_lookup.
      * intros e s2 (Hsh2 & m' & u & Hm' & Hc2).
        split; [by eapply same_shape_trans|].
        exists (S m'), u. split; [lia|].
        intros [|b0 o]; rewrite Hc2, Hc1; [done|].
        replace (S i + m') with (i + S m') by lia.
        cell_cases; cons_lookup.
    + intros e s1 (Hsh1 & Hc1). split; [done|].
      exists 0, (assign_unwind w v). split; [lia|].
      rewrite Nat.add_0_r.
      intros [|b0 o]; rewrite Hc1; [done|]. cell_cases.
Qed.

Lemma copy_until_sentinel_val_cells s b i m (vs : list T) :
  m ≤ length vs →
  (∀ t, t < m → ∃ w, cell_at s (Ptr b (i + t)) = Some (Some w)) →
  wp False (copy_until_sentinel (Val <$> vs) (Ptr b i) (Ptr b (i + m))) s
    (λ r' s', r' = Val <$> drop m vs ∧ same_shape s s' ∧
              ∀ q, cell_at s' q = match offset_in (Ptr b i) m q with
                                  | Some t => Some (vs !! t)
                                  | None => cell_at s q
                                  end)
    (λ _ s', same_shape s s' ∧ ∃ m' u, m' < m ∧
              ∀ q, cell_at s' q = match offset_in (Ptr b i) m' q with
                                  | Some t => Some (vs !! t)
                                  | None =>
                                      if decide (q = Ptr b (i + m'))
                                      then Some (Some u) else cell_at s q
                                  end).
Proof.
  intros Hm Hlive. unfold copy_until_sentinel. apply wp_bind.
  eapply wp_ok; [apply range_run|]. by apply copy_onto_val_cells.
Qed.

(** ** Containers and cells *)

Lemma holds_block_lookup (l : list T) c o :
  length l ≤ c → o < c →
  ((Some <$> l) ++ replicate (c - length l) None) !! o = Some (l !! o).
Proof.
  intros Hlc Ho. destruct (decide (o < length l)) as [Hlt|Hge].
  - rewrite lookup_app_l by by rewrite length_fmap.
    destruct (lookup_lt_is_Some_2 l o Hlt) as [v Hv].
    by rewrite list_lookup_fmap, Hv.
  - rewrite lookup_app_r by (rewrite length_fmap; lia).
    rewrite length_fmap, lookup_replicate_2 by lia.
    by rewrite lookup_ge_None_2 by lia.
Qed.

(** What [holds] says cell by cell. *)
Lemma holds_cells this s (l : list T) c b :
  holds this s l c → first (data_of this s) = Ptr b 0 →
  cpair_second (get_obj this s)
    = mk_data (Ptr b 0) (Ptr b (length l)) (Ptr b c) ∧
  length l ≤ c ∧ c ≤ alloc_max_size ∧
  length <$> heap_block (heap s) b = Some c ∧
  ∀ o, o < c → cell_at s (Ptr b o) = Some (l !! o).
Proof.
  intros H Hf.
  apply holds_data in H as [(-> & -> & Hd)|(b' & Hd & Hb & Hlc & Hc)];
    rewrite Hd in Hf; [done|]. injection Hf as <-.
  split; [done|]. split; [done|]. split; [done|]. split.
  - rewrite Hb. simpl. rewrite length_app, length_fmap, length_replicate.
    f_equal. lia.
  - intros o Ho. unfold cell_at. rewrite (heap_cell_block _ _ _ _ Hb).
    by apply holds_block_lookup.
Qed.

Lemma holds_from_cells this s (l : list T) c b :
  cpair_second (get_obj this s)
    = mk_data (Ptr b 0) (Ptr b (length l)) (Ptr b c) →
  length l ≤ c → c ≤ alloc_max_size →
  length <$> heap_block (heap s) b = Some c →
  (∀ o, o < c → cell_at s (Ptr b o) = Some (l !! o)) →
  holds this s l c.
Proof.
  intros Hd Hlc Hc Hlen Hcells. right. exists b. split; [done|].
  split; [|done].
  destruct (heap_block (heap s) b) as [blk|] eqn:Hb; [|done].
  injection Hlen as Hlen. f_equal.
  apply (list_eq_same_length _ _ c); [|done|].
  { rewrite length_app, length_fmap, length_replicate. lia. }
  intros o x y Ho Hx Hy.
  specialize (Hcells o Ho). unfold cell_at in Hcells.
  rewrite (heap_cell_block _ _ _ _ Hb) in Hcells.
  rewrite holds_block_lookup in Hy by done. congruence.
Qed.

(** A container holds what it held when its object and the cells of its
    block are what they were. *)
Lemma holds_transport this s s' (l : list T) c :
  holds this s l c →
  get_obj this s' = get_obj this s →
  (∀ b, first (data_of this s) = Ptr b 0 →
        length <$> heap_block (heap s') b = length <$> heap_block (heap s) b ∧
        ∀ o, o < c → cell_at s' (Ptr b o) = cell_at s (Ptr b o)) →
  holds this s' l c.
Proof.
  intros H Hobj Hb.
  pose proof H as H0.
  apply holds_data in H0 as [(-> & -> & Hd)|(b & Hd & _)].
  - left. unfold data_of. by rewrite Hobj.
  - destruct (holds_cells _ _ _ _ b H) as (Hd' & Hlc & Hc & Hlen & Hcells).
    { by rewrite Hd. }
    destruct (Hb b) as [Hlen' Hcells']; [by rewrite Hd|].
    eapply holds_from_cells; try done.
    + by rewrite Hobj.
    + by rewrite Hlen'.
    + intros o Ho. rewrite Hcells' by done. by apply Hcells.
Qed.

(** ** Allocation and release, cell by cell *)

Lemma allocate_cells s n :
  wp False (allocate n) s
    (λ p' s', n ≤ alloc_max_size ∧ p' = Ptr (length (heap s)) 0 ∧
              objX s' = objX s ∧ objY s' = objY s ∧
              heap s' = heap s ++ [Some (replicate n None)])
    (λ e s', (e = bad_alloc ∧ s' = tick s) ∨
             (e = bad_array_new_length ∧ alloc_max_size < n ∧ s' = s)).
Proof.
  destruct (decide (alloc_max_size < n)) as [Hn|Hn].
  - unfold wp, allocate. rewrite decide_True by done. right. done.
  - eapply wp_run; [apply allocate_run; lia|].
    destruct (throws_next s); [by left|]. split; [lia|]. done.
Qed.

Lemma allocated_new s s' n :
  heap s' = heap s ++ [Some (replicate n None)] →
  length <$> heap_block (heap s') (length (heap s)) = Some n ∧
  ∀ o, o < n → cell_at s' (Ptr (length (heap s)) o) = Some None.
Proof.
  intros Hh.
  assert (Hb : heap_block (heap s') (length (heap s))
               = Some (replicate n None)).
  { rewrite Hh. apply heap_block_app_new. }
  split.
  - rewrite Hb. simpl. by rewrite length_replicate.
  - intros o Ho. unfold cell_at. rewrite (heap_cell_block _ _ _ _ Hb).
    by apply lookup_replicate_2.
Qed.

Lemma allocated_old s s' n b :
  heap s' = heap s ++ [Some (replicate n None)] →
  b < length (heap s) →
  heap_block (heap s') b = heap_block (heap s) b ∧
  ∀ o, cell_at s' (Ptr b o) = cell_at s (Ptr b o).
Proof.
  intros Hh Hb.
  assert (H : heap_block (heap s') b = heap_block (heap s) b).
  { unfold heap_block. rewrite Hh. by rewrite lookup_app_l. }
  split; [done|]. intros o. unfold cell_at, heap_cell. by rewrite H.
Qed.

Lemma deallocate_cells s b n :
  length <$> heap_block (heap s) b = Some n →
  deallocate (Ptr b 0) n s = Ok tt (set_heap (<[b := None]> (heap s)) s).
Proof.
  intros H. destruct (heap_block (heap s) b) as [blk|] eqn:Hb; [|done].
  injection H as H. by eapply deallocate_run.
Qed.

Lemma deallocated_other (h : list (option (list (option T)))) b b' :
  b' ≠ b →
  heap_block (<[b := None]> h) b' = heap_block h b' ∧
  ∀ o, heap_cell (<[b := None]> h) (Ptr b' o) = heap_cell h (Ptr b' o).
Proof.
  intros Hne.
  assert (H : heap_block (<[b := None]> h) b' = heap_block h b').
  { by apply heap_block_insert_ne. }
  split; [done|]. intros o. unfold heap_cell. by rewrite H.
Qed.

(** A block that a container owns is a block of the heap. *)
Lemma holds_block_lt this s (l : list T) c b :
  holds this s l c → first (data_of this s) = Ptr b 0 → b < length (heap s).
Proof.
  intros H Hf.
  destruct (holds_cells _ _ _ _ _ H Hf) as (_ & _ & _ & Hlen & _).
  destruct (heap_block (heap s) b) as [blk|] eqn:Hb; [|done].
  by eapply heap_block_lt.
Qed.

(** Installing a new block whose cells are known. *)
Lemma replace_holds this s (l0 : list T) c0 nb (l : list T) nc :
  holds this s l0 c0 →
  first (data_of this s) ≠ Ptr nb 0 →
  length l ≤ nc → nc ≤ alloc_max_size →
  length <$> heap_block (heap s) nb = Some nc →
  (∀ o, o < nc → cell_at s (Ptr nb o) = Some (l !! o)) →
  ∃ s', _replace this (Ptr nb 0) (Ptr nb (length l)) nc s = Ok tt s' ∧
        holds this s' l nc.
Proof.
  intros H Hne Hlc Hnc Hlen Hcells.
  destruct (replace_run this s l0 c0 (Ptr nb 0) (Ptr nb (length l)) nc H)
    as (h' & Hr & Hlen' & Hh').
  eexists. split; [exact Hr|].
  assert (Hnb : heap_block h' nb = heap_block (heap s) nb).
  { unfold heap_block. by rewrite Hh'. }
  eapply (holds_from_cells _ _ _ _ nb); try done.
  - state_simpl. cbn [cpair_second ptr_add]. by rewrite Nat.add_0_l.
  - state_simpl. by rewrite Hnb.
  - intros o Ho. unfold cell_at, heap_cell. state_simpl. rewrite Hnb.
    by apply Hcells.
Qed.

(** ** Lookups in the lists the operations build *)

Lemma lookup_take_if {A} (l : list A) i o :
  take i l !! o = if decide (o < i) then l !! o else None.
Proof.
  case_decide; [by apply lookup_take_lt | by apply lookup_take_ge; lia].
Qed.

Lemma lookup_app_if {A} (l1 l2 : list A) o :
  (l1 ++ l2) !! o
  = if decide (o < length l1) then l1 !! o else l2 !! (o - length l1).
Proof.
  case_decide; [by apply lookup_app_l | apply lookup_app_r; lia].
Qed.

Lemma lookup_cons_if {A} (v : A) (l : list A) o :
  (v :: l) !! o = if decide (o = 0) then Some v else l !! (o - 1).
Proof.
  destruct o as [|o]; simpl; [done|]. by rewrite Nat.sub_0_r.
Qed.

Ltac list_norm :=
  repeat first
    [ rewrite lookup_app_if | rewrite lookup_take_if | rewrite lookup_drop
    | rewrite lookup_cons_if | rewrite list_lookup_fmap
    | rewrite length_take | rewrite length_drop | rewrite length_app
    | rewrite length_fmap | rewrite length_cons ].

(** Lookups at an index that a hypothesis knows. *)
Ltac lookup_known :=
  repeat match goal with
         | H : ?l !! ?a = Some _ |- context [?l !! ?b] =>
             replace (l !! b) with (l !! a) by (f_equal; lia); rewrite H
         end.

(** Two lookups in one list at indices that are equal. *)
Ltac lookup_same :=
  try match goal with
      | |- context [?l !! ?a] =>
          match goal with
          | |- context [l !! ?b] =>
              progress (replace (l !! a) with (l !! b) by (f_equal; lia))
          end
      end.

(** Two hypotheses about one element of a list. *)
Ltac lookup_unify :=
  repeat match goal with
         | H1 : ?l !! ?a = Some ?x, H2 : ?l !! ?b = Some ?y |- _ =>
             tryif constr_eq x y then fail else
               (assert (x = y)
                  by (replace a with b in H1 by lia; congruence);
                subst)
         end.

Ltac lookup_solve :=
  cbn [length] in *; repeat cell_step;
  try done; try lia; lookup_unify; try done;
  repeat match goal with
         | |- context [?l !! ?a] =>
             rewrite (lookup_ge_None_2 l a) by (list_norm; cbn [length]; lia)
         end;
  try done;
  lookup_known; try done;
  lookup_same; try done.

(** [erase(pos, end())]: the elements from [pos] on are destroyed and the
    container keeps its block. *)
Lemma erase_tail_run this s (l : list T) c i :
  holds this s l c → i ≤ length l →
  ∃ s', erase this (ptr_add (first (data_of this s)) i)
          (last (data_of this s)) s = Ok tt s' ∧
        holds this s' (take i l) c ∧
        first (data_of this s') = first (data_of this s) ∧
        length (heap s') = length (heap s).
Proof.
  intros H Hi. pose proof H as H0.
  apply holds_data in H0 as [(-> & -> & Hd)|(b & Hd & _)].
  - rewrite Hd. simpl. eexists. split; [reflexivity|].
    unfold data_of in *. state_simpl. rewrite Hd. cbn [first end_ null_data].
    split; [|by state_simpl]. left. unfold data_of. state_simpl.
    by rewrite take_nil.
  - destruct (holds_cells _ _ _ _ b H) as (Hd' & Hlc & Hc & Hlen & Hcells).
    { by rewrite Hd. }
    rewrite Hd. cbn [first last ptr_add]. rewrite Nat.add_0_l.
    destruct (destroy_range_cells s b i (length l - i))
      as (s1 & Hdr & Hsh1 & Hc1).
    { intros k Hk. rewrite Hcells by lia.
      destruct (lookup_lt_is_Some_2 l k) as [v ->]; [lia|]. by eexists. }
    replace (i + (length l - i)) with (length l) in Hdr by lia.
    eexists. split.
    { unfold erase. erewrite bind_ok by exact Hdr.
      unfold set_last, set_data, _data, mbind, M_bind. reflexivity. }
    pose proof (same_shape_data _ _ this Hsh1) as Hd1.
    destruct Hsh1 as (_ & _ & Hl1 & Hb1).
    split; [|split].
    + eapply (holds_from_cells _ _ _ _ b).
      * state_simpl. rewrite Hd1, Hd'. cbn [first last end_].
        by rewrite length_take_le.
      * rewrite length_take. lia.
      * done.
      * state_simpl. by rewrite Hb1.
      * intros o Ho. unfold cell_at. state_simpl.
        change (heap_cell (heap s1) (Ptr b o)) with (cell_at s1 (Ptr b o)).
        rewrite Hc1. unfold offset_in. rewrite lookup_take_if.
        case_decide; [lookup_solve|].
        rewrite Hcells by done. lookup_solve.
    + unfold data_of. state_simpl. by rewrite Hd1, Hd'.
    + by state_simpl.
Qed.


(** ** [emplace] in the middle of a container *)

Lemma cell_at_set_obj v (d : darray) s q : cell_at (set_obj v d s) q = cell_at s q.
Proof. unfold cell_at. by rewrite heap_set_obj. Qed.


Lemma ptr_sub_run s b o n :
  n ≤ o → ptr_sub (T:=T) (Ptr b o) n s = Ok (Ptr b (o - n)) s.
Proof. intros H. unfold ptr_sub. by rewrite decide_True. Qed.

(** A cell known to hold some value of a list. *)
Ltac live_solve :=
  list_norm;
  lazymatch goal with
  | |- ∃ v, Some (_ <$> ?l !! ?a) = Some (Some v) =>
      let x := fresh "x" in
      destruct (lookup_lt_is_Some_2 l a) as [x ->]; [lia|]; by eexists
  | |- ∃ v, Some (?l !! ?a) = Some (Some v) =>
      let x := fresh "x" in
      destruct (lookup_lt_is_Some_2 l a) as [x ->]; [lia|]; by eexists
  | |- ∃ v, Some (Some _) = Some (Some v) => by eexists
  end.

Ltac wp_ok_step H :=
  lazymatch goal with
  | |- wp _ (_ ≫= _) _ _ _ => apply wp_bind
  | |- _ => idtac
  end;
  eapply wp_ok; [exact H|]; cbv beta.



(** ** [emplace], [emplace_back] and [push_back] *)


(** Appending a value: the container then holds one more value, in the same
    block when a raw cell was left; or the operation throws and the container
    holds what it held. *)
Lemma emplace_back_total this s (l : list T) c v :
  holds this s l c →
  wp False (emplace_back this (Val v)) s
    (λ _ s', ∃ c', holds this s' (l ++ [v]) c' ∧
                   (length l < c →
                    c' = c ∧
                    first (data_of this s') = first (data_of this s) ∧
                    length (heap s') = length (heap s)))
    (λ _ s', holds this s' l c).
Proof.
  intros H. pose proof H as H0.
  apply holds_data in H0 as [(-> & -> & Hd)|(b & Hd & Hb & Hlc & Hc)].
  - eapply wp_mono; [by apply emplace_back_run|..]; cbv beta; [|done].
    intros _ s' (c' & H'). exists c'. split; [done|]. simpl. lia.
  - destruct (decide (length l < c)) as [Hlt|Hge].
    + eapply wp_mono; [by apply (emplace_back_in_place this s l c b v)|..];
        cbv beta; [|done].
      intros _ s' (H' & Hf & Hh). exists c. split; [done|]. intros _.
      rewrite Hd. done.
    + eapply wp_mono; [by apply emplace_back_run|..]; cbv beta; [|done].
      intros _ s' (c' & H'). exists c'. split; [done|]. lia.
Qed.


(** ** [insert] of a multi-pass range *)

Lemma wp_mono_throw {A} U (m : M A) s (Q : A → state → Prop)
    (E E' : exn → state → Prop) :
  wp U m s Q E → (∀ e s', E e s' → E' e s') → wp U m s Q E'.
Proof. intros H HE. eapply wp_mono; [exact H|done|exact HE]. Qed.

Lemma ptr_leb_Ptr b i j : i ≤ j → ptr_leb (Ptr b i) (Ptr b j) = true.
Proof.
  intros H. unfold ptr_leb. rewrite Nat.eqb_refl. simpl.
  by apply Nat.leb_le.
Qed.

(** The range reaches the raw cells: the elements behind the position are
    moved into raw storage, the range is assigned over what they leave and
    built in what is left raw. *)
Lemma insert_near this s (l : list T) c b i (vs : list T) :
  is_nothrow_move_constructible = true →
  is_nothrow_move_assignable = true →
  cpair_second (get_obj this s)
    = mk_data (Ptr b 0) (Ptr b (length l)) (Ptr b c) →
  length <$> heap_block (heap s) b = Some c →
  (∀ o, o < c → cell_at s (Ptr b o) = Some (l !! o)) →
  i ≤ length l → length l - i ≤ length vs → 0 < length vs →
  length l + length vs ≤ c → c ≤ alloc_max_size →
  wp False (insert_forward this (Ptr b i) (Val <$> vs)) s
    (λ _ s', holds this s' (take i l ++ vs ++ drop i l) c ∧
             first (data_of this s') = Ptr b 0 ∧
             length (heap s') = length (heap s))
    (λ _ s', holds this s' l c).
Proof.
  intros Hmc Hma Hd Hlen Hcells Hi Hk Hk0 Hfit Hc.
  unfold insert_forward. cbv zeta. rewrite length_fmap.
  wp_pure. rewrite Hd. cbn [first last end_].
  rewrite !ptr_leb_Ptr by lia. cbn [andb].
  wp_pure. rewrite Hd. cbn [first last end_].
  wp_ok_step (ptr_diff_run s b c (length l) ltac:(lia)).
  rewrite decide_False by lia. rewrite decide_False by lia.
  wp_pure. rewrite Hd. cbn [first last end_].
  wp_ok_step (ptr_diff_run s b (length l) i ltac:(lia)).
  apply wp_bind. rewrite decide_False by lia.
  wp_pure. rewrite Hd. cbn [first last end_ ptr_add].
  (* the elements from [i] on are moved behind the place of the range *)
  unfold _reversible_uninitialised_move. rewrite Hmc.
  destruct (uninitialised_move_cells s b i b (i + length vs) (drop i l) Hmc)
    as (s1 & Hm1 & Hsh1 & Hc1).
  { intros t x Hx. rewrite lookup_drop in Hx.
    pose proof (lookup_lt_Some _ _ _ Hx) as Ht.
    rewrite Hcells by lia. by rewrite Hx. }
  { intros t Ht. rewrite length_drop in Ht. rewrite Hcells by lia.
    by rewrite lookup_ge_None_2 by lia. }
  rewrite length_drop in Hm1, Hc1.
  replace (i + (length l - i)) with (length l) in Hm1 by lia.
  wp_ok_step Hm1.
  pose proof (same_shape_data _ _ this Hsh1) as Hd1. rewrite Hd in Hd1.
  apply wp_bind, wp_try_catch.
  eapply (wp_mono_throw _ _ _ _
            (λ _ st, same_shape s1 st ∧
               (∀ q, offset_in (Ptr b i) (length l - i) q = None →
                     cell_at st q = cell_at s1 q) ∧
               (∀ t, t < length l - i →
                     ∃ w, cell_at st (Ptr b (i + t)) = Some (Some w)))).
  - (* the range is written *)
    wp_pure. rewrite Hd1. cbn [first last end_].
    replace (length l) with (i + (length l - i)) at 1 by lia.
    eapply wp_mono;
      [apply (copy_until_sentinel_val_cells s1 b i (length l - i) vs)|..];
      cbv beta.
    { lia. }
    { intros t Ht. rewrite Hc1. cell_cases. list_norm. live_solve. }
    + intros r' s2 (-> & Hsh2 & Hc2).
      pose proof (same_shape_data _ _ this Hsh2) as Hd2. rewrite Hd1 in Hd2.
      wp_pure. rewrite Hd2. cbn [first last end_].
      eapply wp_mono;
        [apply (uninitialised_copy_val_cells s2 b (length l)
                  (drop (length l - i) vs))|..]; cbv beta.
      { intros t Ht. rewrite length_drop in Ht.
        rewrite Hc2, Hc1. cell_cases. rewrite Hcells by lia.
        by rewrite lookup_ge_None_2 by lia. }
      * intros p3 s3 (-> & Hsh3 & Hc3). wp_pure.
        pose proof (same_shape_data _ _ this Hsh3) as Hd3. rewrite Hd2 in Hd3.
        unfold set_last. wp_pure. rewrite Hd3. cbn [first last end_].
        rewrite length_drop in Hc3.
        assert (Hbl : same_blocks s s3) by blocks_chain.
        destruct Hbl as [Hbl1 Hbl2].
        split; [|split; [by unfold data_of; state_simpl|by state_simpl]].
        eapply (holds_from_cells _ _ _ _ b).
        -- state_simpl. cbn [cpair_second]. do 2 f_equal. list_norm. lia.
        -- list_norm. lia.
        -- done.
        -- state_simpl. by rewrite Hbl2.
        -- intros o Ho. rewrite cell_at_set_obj, Hc3, Hc2, Hc1.
           cell_cases; list_norm; rewrite ?Hcells by lia; lookup_solve.
      * intros e s3 (Hsh3 & Hc3). split; [by eapply same_shape_trans|].
        split.
        -- intros q Hq. rewrite Hc3, Hc2.
           destruct q as [|b' o]; [done|]. revert Hq. cell_cases.
        -- intros t Ht. rewrite Hc3, Hc2. cell_cases. live_solve.
    + intros e s2 (Hsh2 & m' & u & Hm' & Hc2). split; [done|]. split.
      * intros q Hq. rewrite Hc2.
        destruct q as [|b' o]; [done|]. revert Hq. cell_cases.
      * intros t Ht. rewrite Hc2, Hc1.
        cell_cases; list_norm; live_solve.
  - (* writing the range throws: the elements are moved back *)
    intros e st (Hsht & Hout & Hlive). cbv beta.
    pose proof (same_shape_data _ _ this Hsht) as Hdt. rewrite Hd1 in Hdt.
    apply wp_bind, wp_try_catch, wp_bind.
    destruct (move_cells st b i (length vs) (drop i l) Hma)
      as (s4 & Hm4 & Hsh4 & Hc4).
    { intros t x Hx. rewrite lookup_drop in Hx.
      pose proof (lookup_lt_Some _ _ _ Hx) as Ht.
      rewrite Hout by cell_cases. rewrite Hc1. cell_cases.
      list_norm. lookup_solve. }
    { intros t Ht. rewrite length_drop in Ht. by apply Hlive. }
    rewrite length_drop in Hm4, Hc4.
    eapply wp_ok; [exact Hm4|]. cbv beta. wp_pure.
    destruct (destroy_range_cells s4 b (i + length vs) (length l - i))
      as (s5 & Hd5 & Hsh5 & Hc5).
    { intros t Ht. rewrite Hc4. cell_cases. list_norm. live_solve. }
    wp_ok_step Hd5. wp_pure.
    assert (Hbl : same_blocks s s5) by blocks_chain.
    destruct Hbl as [Hbl1 Hbl2].
    eapply (holds_from_cells _ _ _ _ b).
    + rewrite (same_shape_data _ _ this Hsh5), (same_shape_data _ _ this Hsh4).
      exact Hdt.
    + lia.
    + done.
    + by rewrite Hbl2.
    + intros o Ho. rewrite Hc5, Hc4.
      cell_cases; list_norm; rewrite ?Hout by cell_cases;
        rewrite ?Hc1; cell_cases; rewrite ?Hcells by lia; lookup_solve.
Qed.

(** The range stays within the elements: the last elements are moved into
    raw storage, those before them are shifted by assignment, and the range
    is assigned over what they leave. *)
Lemma insert_far this s (l : list T) c b i (vs : list T) :
  is_nothrow_move_constructible = true →
  is_nothrow_move_assignable = true →
  cpair_second (get_obj this s)
    = mk_data (Ptr b 0) (Ptr b (length l)) (Ptr b c) →
  length <$> heap_block (heap s) b = Some c →
  (∀ o, o < c → cell_at s (Ptr b o) = Some (l !! o)) →
  i ≤ length l → length vs < length l - i → 0 < length vs →
  length l + length vs ≤ c → c ≤ alloc_max_size →
  wp False (insert_forward this (Ptr b i) (Val <$> vs)) s
    (λ _ s', holds this s' (take i l ++ vs ++ drop i l) c ∧
             first (data_of this s') = Ptr b 0 ∧
             length (heap s') = length (heap s))
    (λ _ s', holds this s' l c).
Proof.
  intros Hmc Hma Hd Hlen Hcells Hi Hk Hk0 Hfit Hc.
  unfold insert_forward. cbv zeta. rewrite length_fmap.
  wp_pure. rewrite Hd. cbn [first last end_].
  rewrite !ptr_leb_Ptr by lia. cbn [andb].
  wp_pure. rewrite Hd. cbn [first last end_].
  wp_ok_step (ptr_diff_run s b c (length l) ltac:(lia)).
  rewrite decide_False by lia. rewrite decide_False by lia.
  wp_pure. rewrite Hd. cbn [first last end_].
  wp_ok_step (ptr_diff_run s b (length l) i ltac:(lia)).
  apply wp_bind. rewrite decide_True by lia.
  wp_pure. rewrite Hd. cbn [first last end_ ptr_add].
  wp_ok_step (ptr_sub_run s b (length l) (length vs) ltac:(lia)).
  (* the last elements are moved into raw storage *)
  unfold _reversible_uninitialised_move. rewrite Hmc.
  destruct (uninitialised_move_cells s b (length l - length vs) b (length l)
              (drop (length l - length vs) l) Hmc)
    as (s1 & Hm1 & Hsh1 & Hc1).
  { intros t x Hx. rewrite lookup_drop in Hx.
    pose proof (lookup_lt_Some _ _ _ Hx) as Ht.
    rewrite Hcells by lia. by rewrite Hx. }
  { intros t Ht. rewrite length_drop in Ht. rewrite Hcells by lia.
    by rewrite lookup_ge_None_2 by lia. }
  rewrite length_drop in Hm1, Hc1.
  replace (length l - (length l - length vs)) with (length vs) in Hm1, Hc1
    by lia.
  replace (length l - length vs + length vs) with (length l) in Hm1 by lia.
  wp_ok_step Hm1.
  pose proof (same_shape_data _ _ this Hsh1) as Hd1. rewrite Hd in Hd1.
  (* the elements before them are shifted by assignment *)
  rewrite Hma.
  destruct (backward_move_cells s1 b i (length vs)
              (length l - length vs - i) (drop i l) Hma)
    as (s2 & Hm2 & Hsh2 & Hc2).
  { intros t Ht. destruct (lookup_lt_is_Some_2 l (i + t)) as [x Hx]; [lia|].
    exists x. rewrite lookup_drop. split; [done|].
    rewrite Hc1. cell_cases. rewrite Hcells by lia. by rewrite Hx. }
  { intros t Ht. rewrite Hc1.
    cell_cases; list_norm; rewrite ?Hcells by lia; live_solve. }
  replace (i + (length l - length vs - i)) with (length l - length vs)
    in Hm2 by lia.
  replace (i + length vs + (length l - length vs - i)) with (length l)
    in Hm2 by lia.
  wp_ok_step Hm2.
  pose proof (same_shape_data _ _ this Hsh2) as Hd2. rewrite Hd1 in Hd2.
  apply wp_bind, wp_try_catch.
  eapply (wp_mono_throw _ _ _ _
            (λ _ st, same_shape s2 st ∧
               (∀ q, offset_in (Ptr b i) (length vs) q = None →
                     cell_at st q = cell_at s2 q) ∧
               (∀ t, t < length vs →
                     ∃ w, cell_at st (Ptr b (i + t)) = Some (Some w)))).
  - (* the range is assigned *)
    apply wp_bind.
    eapply wp_mono; [apply (copy_val_cells s2 b i vs)|..]; cbv beta.
    { intros t Ht. rewrite Hc2, Hc1.
      cell_cases; list_norm; rewrite ?Hcells by lia; live_solve. }
    + intros p3 s3 (-> & Hsh3 & Hc3). wp_pure.
      pose proof (same_shape_data _ _ this Hsh3) as Hd3. rewrite Hd2 in Hd3.
      unfold set_last. wp_pure. rewrite Hd3. cbn [first last end_].
      assert (Hbl : same_blocks s s3) by blocks_chain.
      destruct Hbl as [Hbl1 Hbl2].
      split; [|split; [by unfold data_of; state_simpl|by state_simpl]].
      eapply (holds_from_cells _ _ _ _ b).
      * state_simpl. cbn [cpair_second]. do 2 f_equal. list_norm. lia.
      * list_norm. lia.
      * done.
      * state_simpl. by rewrite Hbl2.
      * intros o Ho. rewrite cell_at_set_obj, Hc3, Hc2, Hc1.
        cell_cases; list_norm; rewrite ?Hcells by lia; lookup_solve.
    + intros e s3 (Hsh3 & m' & u & Hm' & Hc3). split; [done|]. split.
      * intros q Hq. rewrite Hc3.
        destruct q as [|b' o]; [done|]. revert Hq. cell_cases.
      * intros t Ht. rewrite Hc3, Hc2, Hc1.
        cell_cases; list_norm; rewrite ?Hcells by lia; live_solve.
  - (* an assignment throws: the elements are moved back *)
    intros e st (Hsht & Hout & Hlive). cbv beta.
    pose proof (same_shape_data _ _ this Hsht) as Hdt. rewrite Hd2 in Hdt.
    apply wp_bind, wp_try_catch, wp_bind.
    destruct (move_cells st b i (length vs) (drop i l) Hma)
      as (s4 & Hm4 & Hsh4 & Hc4).
    { intros t x Hx. rewrite lookup_drop in Hx.
      pose proof (lookup_lt_Some _ _ _ Hx) as Ht.
      rewrite Hout by cell_cases. rewrite Hc2, Hc1.
      cell_cases; list_norm; lookup_solve. }
    { intros t Ht. rewrite length_drop in Ht.
      destruct (decide (t < length vs)) as [Hlt|Hge]; [by apply Hlive|].
      rewrite Hout by cell_cases. rewrite Hc2, Hc1.
      cell_cases; list_norm; rewrite ?Hcells by lia; live_solve. }
    rewrite length_drop in Hm4, Hc4.
    replace (i + length vs + (length l - i)) with (length l + length vs)
      in Hm4 by lia.
    eapply wp_ok; [exact Hm4|]. cbv beta. wp_pure.
    pose proof (same_shape_data _ _ this Hsh4) as Hd4. rewrite Hdt in Hd4.
    rewrite Hd4. cbn [first last end_].
    destruct (destroy_range_cells s4 b (length l) (length vs))
      as (s5 & Hd5 & Hsh5 & Hc5).
    { intros t Ht. rewrite Hc4. cell_cases. list_norm. live_solve. }
    wp_ok_step Hd5. wp_pure.
    assert (Hbl : same_blocks s s5) by blocks_chain.
    destruct Hbl as [Hbl1 Hbl2].
    eapply (holds_from_cells _ _ _ _ b).
    + rewrite (same_shape_data _ _ this Hsh5). exact Hd4.
    + lia.
    + done.
    + by rewrite Hbl2.
    + intros o Ho. rewrite Hc5, Hc4.
      cell_cases; list_norm; rewrite ?Hout by cell_cases;
        rewrite ?Hc2, ?Hc1; cell_cases; rewrite ?Hcells by lia; lookup_solve.
Qed.

(** Growth for a given minimum: it throws and leaves the state alone, or
    returns a capacity that is at least the minimum and within what the
    allocator can address. *)
Lemma calculate_growth_bounds this s (l : list T) c m :
  holds this s l c →
  _calculate_growth this m s = Throw bad_array_new_length s ∨
  ∃ nc, _calculate_growth this m s = Ok nc s ∧
        m ≤ nc ∧ nc ≤ alloc_max_size.
Proof.
  intros H. pose proof (holds_bounds _ _ _ _ H) as [Hlc Hc].
  pose proof max_size_small as Hmax.
  pose proof (size_run _ _ l c H) as Hsz.
  unfold _calculate_growth, max_size.
  rewrite (bind_ok (mret alloc_max_size) _ s alloc_max_size s) by done.
  case_decide as Hmin; [by left|]. right.
  rewrite (bind_ok _ _ _ _ _ Hsz).
  rewrite (bind_ok (mret alloc_max_size) _ s alloc_max_size s) by done.
  rewrite (bind_ok _ _ _ _ _ Hsz).
  rewrite Nat.shiftr_div_pow2. change (2 ^ 1) with 2.
  assert (Hhalf : length l / 2 ≤ length l)
    by (apply Nat.Div0.div_le_upper_bound; lia).
  rewrite size_t_sub_small by lia.
  case_decide as H1; [eexists; split; [reflexivity|lia]|].
  rewrite (bind_ok _ _ _ _ _ Hsz).
  rewrite size_t_add_small by lia.
  eexists; split; [reflexivity|lia].
Qed.

Ltac wp_peel :=
  lazymatch goal with
  | |- wp _ (_ ≫= _) _ _ _ => apply wp_bind
  | |- _ => idtac
  end.

(** No room for the range: it is built in a new block at its place, the
    elements are moved around it, and the old block is released. *)
Lemma insert_grow this s (l : list T) c b i (vs : list T) :
  is_nothrow_move_constructible = true →
  holds this s l c → first (data_of this s) = Ptr b 0 →
  i ≤ length l → c - length l < length vs →
  (Z.of_nat (length vs) < 2 ^ 63)%Z →
  wp False (insert_forward this (Ptr b i) (Val <$> vs)) s
    (λ _ s', ∃ c', holds this s' (take i l ++ vs ++ drop i l) c')
    (λ _ s', holds this s' l c).
Proof.
  intros Hmc H Hf Hi Hk Hk63.
  destruct (holds_cells _ _ _ _ _ H Hf) as (Hd & Hlc & Hc & Hlen & Hcells).
  pose proof (holds_block_lt _ _ _ _ _ H Hf) as Hlt.
  pose proof max_size_small as Hmax.
  unfold insert_forward. cbv zeta. rewrite length_fmap.
  wp_pure. rewrite Hd. cbn [first last end_].
  rewrite !ptr_leb_Ptr by lia. cbn [andb].
  wp_pure. rewrite Hd. cbn [first last end_].
  wp_ok_step (ptr_diff_run s b c (length l) ltac:(lia)).
  rewrite decide_False by lia. rewrite decide_True by lia.
  wp_ok_step (size_run _ _ _ _ H).
  rewrite size_t_add_small by lia.
  apply wp_bind.
  destruct (calculate_growth_bounds _ _ _ _ (length l + length vs) H)
    as [Hg|(nc & Hg & Hnc1 & Hnc2)];
    (eapply wp_run; [exact Hg|]); cbv beta iota; [done|].
  apply wp_bind.
  eapply wp_mono; [apply allocate_cells|..]; cbv beta; last first.
  { intros e s' [[_ ->]|(_ & _ & ->)]; [by apply holds_tick|done]. }
  intros _ s1 (_ & -> & HX1 & HY1 & Hh1).
  set (nb := length (heap s)) in *.
  assert (Hne : b ≠ nb) by lia.
  assert (Hobj1 : ∀ w : var, get_obj w s1 = get_obj w s) by (by intros []).
  destruct (allocated_new _ _ _ Hh1) as [Hlen1n Hc1n].
  destruct (allocated_old _ _ _ b Hh1 Hlt) as [Hb1 Hc1b].
  fold nb in Hlen1n, Hc1n.
  wp_pure. rewrite Hobj1, Hd. cbn [first last end_].
  wp_ok_step (ptr_diff_run s1 b i 0 ltac:(lia)).
  rewrite Nat.sub_0_r. cbn [ptr_add]. rewrite Nat.add_0_l.
  wp_peel; apply wp_try_cleanup.
  eapply wp_mono; [apply (uninitialised_copy_val_cells s1 nb i vs)|..];
    cbv beta.
  { intros t Ht. apply Hc1n. lia. }
  - (* the range is built: the elements are moved around it *)
    intros p2 s2 (-> & Hsh2 & Hc2).
    pose proof (same_shape_data _ _ this Hsh2) as Hd2. rewrite Hobj1, Hd in Hd2.
    wp_pure. rewrite Hd2. cbn [first last end_].
    unfold _reversible_uninitialised_move. rewrite Hmc.
    destruct (uninitialised_move_cells s2 b 0 nb 0 (take i l) Hmc)
      as (s3 & Hm3 & Hsh3 & Hc3).
    { intros t x Hx. apply lookup_take_Some in Hx as [Hx Ht].
      rewrite Hc2. cell_cases.
      rewrite Hc1b, Hcells by lia. by rewrite Nat.add_0_l, Hx. }
    { intros t Ht. rewrite length_take in Ht.
      rewrite Hc2. cell_cases. apply Hc1n. lia. }
    rewrite length_take_le in Hm3, Hc3 by lia. rewrite Nat.add_0_l in Hm3.
    wp_peel; apply wp_try_cleanup. eapply wp_ok; [exact Hm3|]. cbv beta.
    pose proof (same_shape_data _ _ this Hsh3) as Hd3. rewrite Hd2 in Hd3.
    wp_pure. rewrite Hd3. cbn [first last end_].
    destruct (uninitialised_move_cells s3 b i nb (i + length vs) (drop i l) Hmc)
      as (s4 & Hm4 & Hsh4 & Hc4).
    { intros t x Hx. rewrite lookup_drop in Hx.
      pose proof (lookup_lt_Some _ _ _ Hx) as Ht.
      rewrite Hc3. cell_cases. rewrite Hc2. cell_cases.
      rewrite Hc1b, Hcells by lia. by rewrite Hx. }
    { intros t Ht. rewrite length_drop in Ht.
      rewrite Hc3. cell_cases. rewrite Hc2. cell_cases. apply Hc1n. lia. }
    rewrite length_drop in Hm4, Hc4.
    replace (i + (length l - i)) with (length l) in Hm4 by lia.
    wp_peel; apply wp_try_cleanup. eapply wp_ok; [exact Hm4|]. cbv beta.
    assert (Hbl : same_blocks s1 s4) by blocks_chain.
    destruct Hbl as [Hbl1 Hbl2].
    assert (H4 : holds this s4 (moved_from <$> l) c).
    { eapply (holds_from_cells _ _ _ _ b).
      - rewrite (same_shape_data _ _ this Hsh4), Hd3. by rewrite length_fmap.
      - by rewrite length_fmap.
      - done.
      - by rewrite Hbl2, Hb1.
      - intros o Ho. rewrite Hc4, Hc3, Hc2.
        cell_cases; list_norm; rewrite ?Hc1b, ?Hcells by lia; lookup_solve. }
    destruct (replace_holds this s4 _ _ nb (take i l ++ vs ++ drop i l) nc H4)
      as (s5 & Hr5 & H5).
    { unfold data_of. rewrite (same_shape_data _ _ this Hsh4), Hd3.
      cbn [first]. congruence. }
    { list_norm. lia. }
    { done. }
    { by rewrite Hbl2. }
    { intros o Ho. rewrite Hc4, Hc3, Hc2.
      cell_cases; list_norm; rewrite ?Hc1n by lia; lookup_solve. }
    replace (length (take i l ++ vs ++ drop i l))
      with (i + length vs + (length l - i)) in Hr5 by (list_norm; lia).
    eapply wp_ok; [exact Hr5|]. by exists nc.
  - (* building the range throws: the new block is released *)
    intros e s2 (Hsh2 & Hc2).
    assert (Hbl : same_blocks s1 s2) by blocks_chain.
    destruct Hbl as [Hbl1 Hbl2].
    eapply wp_ok; [apply (deallocate_cells s2 nb nc); by rewrite Hbl2|].
    eapply holds_transport; [exact H|..].
    + state_simpl. by rewrite (same_shape_obj _ _ _ Hsh2).
    + intros b' Hb'. rewrite Hf in Hb'. injection Hb' as <-.
      destruct (deallocated_other (heap s2) nb b) as [Hdb Hdc]; [done|].
      split.
      * state_simpl. by rewrite Hdb, Hbl2, Hb1.
      * intros o Ho. unfold cell_at at 1. state_simpl.
        rewrite Hdc. fold (cell_at s2 (Ptr b o)). by rewrite Hc2, Hc1b.
Qed.

(** Inserting into a container that owns no block. *)
Lemma insert_null this s (vs : list T) :
  cpair_second (get_obj this s) = null_data →
  0 < length vs → (Z.of_nat (length vs) < 2 ^ 63)%Z →
  wp False (insert_forward this nullptr (Val <$> vs)) s
    (λ _ s', ∃ c', holds this s' vs c')
    (λ _ s', holds this s' [] 0).
Proof.
  intros Hd Hk Hk63.
  assert (H : holds this s [] 0) by by left.
  unfold insert_forward. cbv zeta. rewrite length_fmap.
  wp_pure. rewrite Hd. cbn [first last end_ null_data ptr_leb andb].
  wp_pure. rewrite Hd. cbn [first last end_ null_data].
  eapply (wp_ok _ _ _ 0 s); [reflexivity|].
  rewrite decide_False by lia. rewrite decide_True by lia.
  wp_ok_step (size_run _ _ _ _ H). cbn [length].
  rewrite size_t_add_small by lia. rewrite Nat.add_0_l.
  apply wp_bind.
  destruct (calculate_growth_bounds _ _ _ _ (length vs) H)
    as [Hg|(nc & Hg & Hnc1 & Hnc2)];
    (eapply wp_run; [exact Hg|]); cbv beta iota; [done|].
  apply wp_bind.
  eapply wp_mono; [apply allocate_cells|..]; cbv beta; last first.
  { intros e s' [[_ ->]|(_ & _ & ->)]; [by apply holds_tick|done]. }
  intros _ s1 (_ & -> & HX1 & HY1 & Hh1).
  set (nb := length (heap s)) in *.
  assert (Hobj1 : ∀ w : var, get_obj w s1 = get_obj w s) by (by intros []).
  destruct (allocated_new _ _ _ Hh1) as [Hlen1n Hc1n].
  fold nb in Hlen1n, Hc1n.
  wp_pure. rewrite Hobj1, Hd. cbn [first last end_ null_data].
  eapply (wp_ok _ _ _ 0 s1); [reflexivity|].
  cbn [ptr_add]. rewrite Nat.add_0_l.
  wp_peel; apply wp_try_cleanup.
  eapply wp_mono; [apply (uninitialised_copy_val_cells s1 nb 0 vs)|..];
    cbv beta.
  { intros t Ht. apply Hc1n. lia. }
  - intros p2 s2 (-> & Hsh2 & Hc2).
    pose proof (same_shape_data _ _ this Hsh2) as Hd2. rewrite Hobj1, Hd in Hd2.
    wp_pure. rewrite Hd2. cbn [first last end_ null_data].
    wp_peel; apply wp_try_cleanup.
    eapply wp_ok; [apply reversible_uninitialised_move_null|]. cbv beta.
    wp_pure. rewrite Hd2. cbn [first last end_ null_data].
    wp_peel; apply wp_try_cleanup.
    eapply wp_ok; [apply reversible_uninitialised_move_null|]. cbv beta.
    assert (Hbl : same_blocks s1 s2) by blocks_chain.
    destruct Hbl as [Hbl1 Hbl2].
    assert (H2 : holds this s2 [] 0) by by left.
    destruct (replace_holds this s2 _ _ nb vs nc H2) as (s5 & Hr5 & H5).
    { unfold data_of. by rewrite Hd2. }
    { lia. }
    { done. }
    { by rewrite Hbl2. }
    { intros o Ho. rewrite Hc2. cell_cases; rewrite ?Hc1n by lia; lookup_solve. }
    rewrite Nat.add_0_l.
    eapply wp_ok; [exact Hr5|]. by exists nc.
  - intros e s2 (Hsh2 & Hc2).
    assert (Hbl : same_blocks s1 s2) by blocks_chain.
    destruct Hbl as [Hbl1 Hbl2].
    eapply wp_ok; [apply (deallocate_cells s2 nb nc); by rewrite Hbl2|].
    left. unfold data_of. state_simpl.
    by rewrite (same_shape_data _ _ this Hsh2), Hobj1.
Qed.

(** [insert(at, first, last)] with a multi-pass range of values, for an
    element type whose move operations do not throw: the values are
    inserted at the position, in the same block when it has room for them;
    or the operation throws and the container holds what it held. *)
Lemma insert_forward_total this s (l : list T) c i (vs : list T) :
  is_nothrow_move_constructible = true →
  is_nothrow_move_assignable = true →
  holds this s l c → i ≤ length l →
  (Z.of_nat (length vs) < 2 ^ 63)%Z →
  wp False (insert_forward this (ptr_add (first (data_of this s)) i)
              (Val <$> vs)) s
    (λ _ s', ∃ c', holds this s' (take i l ++ vs ++ drop i l) c' ∧
                   (length l + length vs ≤ c →
                    c' = c ∧
                    first (data_of this s') = first (data_of this s) ∧
                    length (heap s') = length (heap s)))
    (λ _ s', holds this s' l c).
Proof.
  intros Hmc Hma H Hi Hk63. pose proof H as H0.
  apply holds_data in H0 as [(-> & -> & Hd)|(b & Hd & Hb & Hlc & Hc)].
  - rewrite Hd. cbn [first ptr_add null_data]. unfold data_of in Hd.
    destruct vs as [|v vs].
    + unfold insert_forward. cbv zeta.
      wp_pure. rewrite Hd. cbn [first last end_ null_data ptr_leb andb].
      wp_pure. rewrite Hd. cbn [first last end_ null_data].
      eapply (wp_ok _ _ _ 0 s); [reflexivity|].
      rewrite decide_True by done. wp_pure.
      exists 0. rewrite take_nil, drop_nil. simpl. split; [done|].
      intros _. unfold data_of. by rewrite Hd.
    + eapply wp_mono; [apply insert_null; simpl; done || lia|..];
        cbv beta; [|done].
      intros _ s' (c' & H'). exists c'. rewrite take_nil, drop_nil, app_nil_r.
      split; [done|]. simpl. lia.
  - assert (Hf : first (data_of this s) = Ptr b 0) by (by rewrite Hd).
    rewrite Hf. cbn [ptr_add]. rewrite Nat.add_0_l.
    destruct (holds_cells _ _ _ _ _ H Hf) as (Hd' & _ & _ & Hlen & Hcells).
    destruct (decide (length vs = 0)) as [Hz|Hnz].
    { destruct vs; [|done].
      unfold insert_forward. cbv zeta.
      wp_pure. rewrite Hd'. cbn [first last end_].
      rewrite !ptr_leb_Ptr by lia. cbn [andb].
      wp_pure. rewrite Hd'. cbn [first last end_].
      wp_ok_step (ptr_diff_run s b c (length l) ltac:(lia)).
      rewrite decide_True by done. wp_pure.
      exists c. simpl. rewrite take_drop. split; [done|]. by rewrite Hf. }
    destruct (decide (c - length l < length vs)) as [Hgrow|Hfit].
    { eapply wp_mono; [by apply (insert_grow this s l c b i vs)|..];
        cbv beta; [|done].
      intros _ s' (c' & H'). exists c'. split; [done|]. lia. }
    destruct (decide (length vs < length l - i)) as [Hfar|Hnear].
    + eapply wp_mono;
        [apply (insert_far this s l c b i vs); try done; lia|..];
        cbv beta; [|done].
      intros _ s' (H' & Hf' & Hh'). by exists c.
    + eapply wp_mono;
        [apply (insert_near this s l c b i vs); try done; lia|..];
        cbv beta; [|done].
      intros _ s' (H' & Hf' & Hh'). by exists c.
Qed.

(** ** [reserve], [operator[]] and the destructor *)

(** [reserve(n)] within the capacity: nothing happens. *)
Lemma reserve_noop_run this s (l : list T) c n :
  holds this s l c → n ≤ c → reserve this n s = Ok tt s.
Proof.
  intros H Hn. unfold reserve.
  erewrite bind_ok by (eapply capacity_run; exact H).
  by rewrite decide_False by lia.
Qed.

Lemma uninitialised_move_null s dest :
  uninitialised_move (T:=T) nullptr nullptr dest s = Ok dest s.
Proof. done. Qed.

(** [reserve(n)] beyond the capacity, for an element type whose move
    constructor does not throw: the elements are moved to a block of
    exactly [n] cells, or the allocation fails and nothing has changed. *)
Lemma reserve_grow_run this s (l : list T) c n :
  is_nothrow_move_constructible = true →
  holds this s l c → c < n →
  wp False (reserve this n) s
    (λ _ s', holds this s' l n)
    (λ e s', holds this s' l c ∧
             (e = bad_alloc ∨ e = bad_array_new_length ∧ alloc_max_size < n)).
Proof.
  intros Hmc H Hn. unfold reserve.
  wp_ok_step (capacity_run _ _ _ _ H).
  rewrite decide_True by lia.
  unfold _unchecked_grow_exactly. rewrite Hmc.
  apply wp_bind.
  eapply wp_mono; [apply allocate_cells|..]; cbv beta; last first.
  { intros e s' [[-> ->]|(-> & Hbig & ->)].
    - split; [by apply holds_tick|by left].
    - split; [done|by right]. }
  intros _ s1 (Hnmax & -> & HX1 & HY1 & Hh1).
  set (nb := length (heap s)) in *.
  assert (Hobj1 : ∀ w : var, get_obj w s1 = get_obj w s) by (by intros []).
  destruct (allocated_new _ _ _ Hh1) as [Hlen1n Hc1n].
  fold nb in Hlen1n, Hc1n.
  pose proof H as H0.
  apply holds_data in H0 as [(-> & -> & Hd)|(b & Hd & _)].
  - (* nothing to move *)
    unfold data_of in Hd.
    wp_pure. rewrite Hobj1, Hd. cbn [first last end_ null_data].
    wp_ok_step (uninitialised_move_null s1 (Ptr nb 0)).
    assert (H1 : holds this s1 [] 0).
    { left. unfold data_of. by rewrite Hobj1. }
    destruct (replace_holds this s1 _ _ nb [] n H1) as (s2 & Hr & H2).
    { unfold data_of. by rewrite Hobj1, Hd. }
    { simpl. lia. }
    { done. }
    { done. }
    { intros o Ho. by rewrite Hc1n. }
    eapply wp_ok; [exact Hr|]. done.
  - assert (Hf : first (data_of this s) = Ptr b 0) by (by rewrite Hd).
    destruct (holds_cells _ _ _ _ _ H Hf) as (Hd' & Hlc & Hc & Hlen & Hcells).
    pose proof (holds_block_lt _ _ _ _ _ H Hf) as Hlt.
    assert (Hne : b ≠ nb) by lia.
    destruct (allocated_old _ _ _ b Hh1 Hlt) as [Hb1 Hc1b].
    wp_pure. rewrite Hobj1, Hd'. cbn [first last end_].
    destruct (uninitialised_move_cells s1 b 0 nb 0 l Hmc)
      as (s2 & Hm2 & Hsh2 & Hc2).
    { intros t x Hx. pose proof (lookup_lt_Some _ _ _ Hx) as Ht.
      rewrite Hc1b, Hcells by lia. by rewrite Nat.add_0_l, Hx. }
    { intros t Ht. apply Hc1n. lia. }
    rewrite !Nat.add_0_l in Hm2.
    wp_ok_step Hm2.
    assert (Hbl : same_blocks s1 s2) by blocks_chain.
    destruct Hbl as [Hbl1 Hbl2].
    assert (H2 : holds this s2 (moved_from <$> l) c).
    { eapply (holds_from_cells _ _ _ _ b).
      - rewrite (same_shape_data _ _ this Hsh2), Hobj1, Hd'.
        by rewrite length_fmap.
      - by rewrite length_fmap.
      - done.
      - by rewrite Hbl2, Hb1.
      - intros o Ho. rewrite Hc2.
        cell_cases; list_norm; rewrite ?Hc1b, ?Hcells by lia; lookup_solve. }
    destruct (replace_holds this s2 _ _ nb l n H2) as (s3 & Hr & H3).
    { unfold data_of. rewrite (same_shape_data _ _ this Hsh2), Hobj1, Hd'.
      cbn [first]. congruence. }
    { lia. }
    { done. }
    { by rewrite Hbl2. }
    { intros o Ho. rewrite Hc2.
      cell_cases; list_norm; rewrite ?Hc1n by lia; lookup_solve. }
    eapply wp_ok; [exact Hr|]. done.
Qed.

(** [operator[]]: the element at the index, and a failed verification when
    the index is not below the size. *)
Lemma index_run this s (l : list T) c i :
  holds this s l c →
  index this i s = match l !! i with
                   | Some v => Ok v s
                   | None => Undefined
                   end.
Proof.
  intros H. unfold index.
  erewrite bind_ok by (eapply size_run; exact H).
  destruct (l !! i) as [v|] eqn:Hv.
  - pose proof (lookup_lt_Some _ _ _ Hv) as Hi.
    rewrite bool_decide_eq_true_2 by done.
    erewrite bind_ok by done. erewrite bind_ok by apply data_run.
    pose proof H as H0.
    apply holds_data in H0 as [(-> & _)|(b & Hd & _)]; [done|].
    assert (Hf : first (data_of this s) = Ptr b 0) by (by rewrite Hd).
    destruct (holds_cells _ _ _ _ _ H Hf) as (_ & Hlc & _ & _ & Hcells).
    rewrite Hf. cbn [ptr_add]. rewrite Nat.add_0_l.
    apply read_cells. rewrite Hcells by lia. by rewrite Hv.
  - apply lookup_ge_None in Hv.
    rewrite bool_decide_eq_false_2 by lia. done.
Qed.

(** The destructor destroys the elements and releases the block; other
    blocks, the objects and the fault schedule are left alone. *)
Lemma darray_destroy_run this s (l : list T) c :
  holds this s l c →
  ∃ h', darray_destroy this s = Ok tt (set_heap h' s) ∧
        length h' = length (heap s) ∧
        (∀ b, first (data_of this s) = Ptr b 0 → h' !! b = Some None) ∧
        (∀ b, first (data_of this s) ≠ Ptr b 0 → h' !! b = heap s !! b).
Proof.
  intros H. unfold darray_destroy.
  apply holds_data in H as [(-> & -> & Hd)|(b & Hd & Hb & Hlc & Hc)];
    unfold data_of in Hd; unfold _clear_dealloc, capacity, _data, mbind, M_bind;
    rewrite ?Hd; simpl.
  - exists (heap s). rewrite set_heap_id. split; [done|]. split; [done|].
    split; [|done]. intros b. unfold data_of. by rewrite Hd.
  - pose proof (destroy_range_run s b 0 l _ Hb) as Hdr. simpl in Hdr.
    rewrite Hdr. simpl. rewrite !get_obj_set_heap, Hd. simpl.
    rewrite decide_True by (split; [done|lia]). simpl.
    pose proof (heap_block_lt _ _ _ Hb) as Hlt.
    erewrite deallocate_run; simpl.
    + eexists. split; [reflexivity|]. rewrite !length_insert.
      split; [done|]. unfold data_of. rewrite Hd. simpl. split.
      * intros b' [= <-]. rewrite list_lookup_insert_eq; [done|].
        by rewrite length_insert.
      * intros b' Hb'. rewrite !list_lookup_insert_ne; congruence.
    + by rewrite heap_block_insert_eq.
    + rewrite length_app, !length_replicate. lia.
Qed.

(** ** Constructors *)

(** Copy construction of an element: it may throw, before anything is
    written. *)
Lemma construct_lvalue_cells s p q v :
  cell_at s p = Some None → cell_at s q = Some (Some v) →
  wp False (construct p (Lvalue q)) s
    (λ _ s', same_shape s s' ∧
             ∀ q', cell_at s' q'
                   = if decide (q' = p) then Some (Some v) else cell_at s q')
    (λ _ s', same_shape s s' ∧ ∀ q', cell_at s' q' = cell_at s q').
Proof.
  intros Hp Hq. unfold wp, construct, get_heap, mbind, M_bind.
  pose proof Hp as Hp'. unfold cell_at in Hp'. rewrite Hp'. simpl.
  rewrite (read_cells _ _ _ Hq). rewrite may_throw_run.
  destruct (throws_next s); [done|].
  destruct (write_cells (tick s) p (Some v)) as (s' & Hw & Hsh & Hc).
  { rewrite cell_at_tick. by rewrite Hp. }
  unfold mret, M_ret. rewrite Hw. done.
Qed.

(** Copying the objects of one block into raw storage of another: all are
    built, or a construction throws and what this call built is destroyed
    again. The source block is only read. *)
Lemma uninitialised_construct_lvalue_cells s b i nb j0 j (vs : list T) :
  b ≠ nb → j0 ≤ j →
  (∀ t v, vs !! t = Some v → cell_at s (Ptr b (i + t)) = Some (Some v)) →
  (∀ k, j0 ≤ k < j → ∃ v, cell_at s (Ptr nb k) = Some (Some v)) →
  (∀ k, j ≤ k < j + length vs → cell_at s (Ptr nb k) = Some None) →
  wp False (uninitialised_construct
              (Lvalue <$> (Ptr b <$> seq i (length vs)))
              (Ptr nb j0) (Ptr nb j)) s
    (λ p' s', p' = Ptr nb (j + length vs) ∧ same_shape s s' ∧
              ∀ q, cell_at s' q = match offset_in (Ptr nb j) (length vs) q with
                                  | Some k => Some (vs !! k)
                                  | None => cell_at s q
                                  end)
    (λ _ s', same_shape s s' ∧
             ∀ q, cell_at s' q = match offset_in (Ptr nb j0) (j - j0) q with
                                 | Some _ => Some None
                                 | None => cell_at s q
                                 end).
Proof.
  intros Hne. revert i j s.
  induction vs as [|v vs IH]; intros i j s Hj Hsrc Hlive Hraw.
  - apply wp_ret. split; [f_equal; simpl; lia|]. split; [done|].
    intros [|b' o]; [done|]. cell_cases.
  - cbn [length seq fmap list_fmap uninitialised_construct]. simpl in Hraw.
    pose proof (Hsrc 0 v eq_refl) as Hv. rewrite Nat.add_0_r in Hv.
    apply wp_bind, wp_try_cleanup.
    eapply wp_mono;
      [apply (construct_lvalue_cells s (Ptr nb j) (Ptr b i) v); [|exact Hv]|..];
      cbv beta.
    { apply Hraw. lia. }
    + intros _ s1 (Hsh1 & Hc1). cbn [ptr_add].
      eapply wp_mono; [apply (IH (S i) (j + 1) s1)|..]; cbv beta.
      * lia.
      * intros t w Ht. rewrite Hc1.
        rewrite decide_False by (intros [=]; lia).
        specialize (Hsrc (S t) w Ht).
        by replace (S i + t) with (i + S t) by lia.
      * intros k Hk. rewrite Hc1. case_decide; [by eexists|].
        apply Hlive. cell_cases.
      * intros k Hk. rewrite Hc1. rewrite decide_False by (intros [=]; lia).
        apply Hraw. lia.
      * intros p2 s2 (-> & Hsh2 & Hc2). split; [f_equal; simpl; lia|].
        split; [by eapply same_shape_trans|].
        intros [|b' o]; rewrite Hc2, Hc1; [done|]. cell_cases; cons_lookup.
      * intros e s2 (Hsh2 & Hc2). split; [by eapply same_shape_trans|].
        intros [|b' o]; rewrite Hc2, Hc1; [done|]. cell_cases.
        symmetry. apply Hraw. lia.
    + intros e s1 (Hsh1 & Hc1).
      destruct (destroy_range_cells s1 nb j0 (j - j0)) as (s2 & Hd & Hsh2 & Hc2).
      { intros k Hk. rewrite Hc1. apply Hlive. lia. }
      replace (j0 + (j - j0)) with j in Hd by lia.
      eapply wp_ok; [exact Hd|]. split; [by eapply same_shape_trans|].
      intros q. by rewrite Hc2, Hc1.
Qed.

Lemma lvalues_run s b i n :
  lvalues (T:=T) (Ptr b i) (Ptr b (i + n)) s
  = Ok (Lvalue <$> (Ptr b <$> seq i n)) s.
Proof. unfold lvalues. by erewrite bind_ok by apply range_run. Qed.

Lemma get_obj_set_obj_ne v w (d : darray) s :
  v ≠ w → get_obj v (set_obj w d s) = get_obj v s.
Proof. by destruct v, w. Qed.

(** Copy construction: the new container holds the values of the source in
    a block of its own, of the capacity of the source; or an allocation or
    a copy throws, the block is released again and the new container owns
    nothing. The source holds what it held in both cases. *)
(** The destructor that an exception leaving the body of a delegating
    constructor runs, when the container still owns nothing. *)
Lemma wp_destroy_null {A} (m : M A) this s (Q : A → state → Prop)
    (E : exn → state → Prop) :
  wp False m s Q (λ e s', data_of this s' = null_data ∧ E e s') →
  wp False (try_cleanup m (darray_destroy this)) s Q E.
Proof.
  intros H. apply wp_try_cleanup. eapply wp_mono; [exact H|done|].
  intros e s' [Hn HE].
  unfold wp, darray_destroy, _clear_dealloc, _data, mbind, M_bind.
  unfold data_of in Hn. by rewrite Hn.
Qed.

Lemma darray_copy_alloc_run this other s (l : list T) c a :
  this ≠ other → holds other s l c →
  wp False (darray_copy_alloc this other a) s
    (λ _ s', holds this s' l c ∧ holds other s' l c ∧
             first (data_of this s') = Ptr (length (heap s)) 0 ∧
             cpair_first (get_obj this s') = a)
    (λ _ s', holds this s' [] 0 ∧ holds other s' l c).
Proof.
  intros Hneq H. unfold darray_copy_alloc, darray_alloc.
  set (s0 := set_obj this (mk_darray a null_data) s).
  assert (Hobj0 : get_obj other s0 = get_obj other s).
  { subst s0. by rewrite get_obj_set_obj_ne. }
  assert (Hd0 : get_obj this s0 = mk_darray a null_data).
  { subst s0. by state_simpl. }
  assert (H0 : holds other s0 l c).
  { eapply holds_transport; [exact H|done|]. intros b _. subst s0.
    split; [by state_simpl|]. intros o _. by rewrite cell_at_set_obj. }
  assert (Hthis0 : holds this s0 [] 0) by (left; unfold data_of; by rewrite Hd0).
  apply wp_bind. eapply (wp_ok _ _ _ tt s0); [done|].
  apply wp_destroy_null.
  wp_pure. rewrite Hobj0.
  wp_ok_step (capacity_run _ _ _ _ H0).
  pose proof (holds_bounds _ _ _ _ H) as [Hlc Hc].
  assert (Hframe : ∀ s1 s2, heap s1 = heap s0 ++ [Some (replicate c None)] →
            get_obj other s2 = get_obj other s0 →
            (∀ b, b < length (heap s0) →
                  length <$> heap_block (heap s2) b
                  = length <$> heap_block (heap s1) b ∧
                  ∀ o, cell_at s2 (Ptr b o) = cell_at s1 (Ptr b o)) →
            holds other s2 l c).
  { intros s1 s2 Hh1 Hobj2 Hc2.
    eapply holds_transport; [exact H0|done|].
    intros b Hb. pose proof (holds_block_lt _ _ _ _ _ H0 Hb) as Hlt.
    destruct (allocated_old _ _ _ b Hh1 Hlt) as [Hb1 Hc1b].
    destruct (Hc2 b Hlt) as [Hl2 Hc2'].
    split; [by rewrite Hl2, Hb1|].
    intros o _. by rewrite Hc2', Hc1b. }
  pose proof H0 as H0'.
  apply holds_data in H0' as [(-> & -> & Hd)|(b & Hd & _)].
  - (* the source owns nothing: a block of no cells is allocated *)
    unfold data_of in Hd. rewrite Hobj0 in Hd. rewrite Hd.
    cbn [first last end_ null_data].
    apply wp_bind. eapply (wp_ok _ _ _ [] s0); [done|].
    unfold _unallocated_assign, _ctg_duplicate. wp_pure.
    eapply wp_mono; [apply allocate_cells|..]; cbv beta; last first.
    { intros e s' [[_ ->]|(_ & Hbig & ->)]; [|lia].
      split; [by unfold data_of; rewrite get_obj_tick, Hd0|].
      split; by apply holds_tick. }
    intros _ s1 (_ & -> & HX1 & HY1 & Hh1).
    assert (Hobj1 : ∀ w : var, get_obj w s1 = get_obj w s0) by (by intros []).
    destruct (allocated_new _ _ _ Hh1) as [Hlen1n Hc1n].
    apply wp_bind, wp_try_cleanup. eapply wp_ok; [done|]. cbv beta.
    wp_pure. unfold set_first, set_last, set_end. wp_pure. state_simpl.
    cbn [first last end_ cpair_second ptr_add].
    assert (Hh : length (heap s0) = length (heap s)) by (subst s0; by state_simpl).
    split; [|split; [|split]].
    + eapply (holds_from_cells _ _ _ _ (length (heap s0))); try done.
      * by state_simpl.
      * by state_simpl.
      * intros o Ho. lia.
    + eapply (Hframe s1); try done.
      * rewrite !get_obj_set_obj_ne by done. apply Hobj1.
      * intros b Hb. split; [by state_simpl|].
        intros o. by rewrite !cell_at_set_obj.
    + unfold data_of. state_simpl. cbn [cpair_second first]. by rewrite Hh.
    + state_simpl. cbn [cpair_first]. rewrite Hobj1, Hd0. done.
  - assert (Hf : first (data_of other s0) = Ptr b 0) by (by rewrite Hd).
    destruct (holds_cells _ _ _ _ _ H0 Hf) as (Hd' & _ & _ & Hlen & Hcells).
    pose proof (holds_block_lt _ _ _ _ _ H0 Hf) as Hlt.
    rewrite Hobj0 in Hd'. rewrite Hd'. cbn [first last end_].
    replace (length l) with (0 + length l) at 1 by lia.
    wp_ok_step (lvalues_run s0 b 0 (length l)).
    unfold _unallocated_assign, _ctg_duplicate. wp_pure.
    eapply wp_mono; [apply allocate_cells|..]; cbv beta; last first.
    { intros e s' [[_ ->]|(_ & Hbig & ->)]; [|lia].
      split; [by unfold data_of; rewrite get_obj_tick, Hd0|].
      split; by apply holds_tick. }
    intros _ s1 (_ & -> & HX1 & HY1 & Hh1).
    set (nb := length (heap s0)) in *.
    assert (Hne : b ≠ nb) by lia.
    assert (Hobj1 : ∀ w : var, get_obj w s1 = get_obj w s0) by (by intros []).
    destruct (allocated_new _ _ _ Hh1) as [Hlen1n Hc1n].
    destruct (allocated_old _ _ _ b Hh1 Hlt) as [Hb1 Hc1b].
    fold nb in Hlen1n, Hc1n.
    assert (Hh : length (heap s0) = length (heap s)) by (subst s0; by state_simpl).
    apply wp_bind, wp_try_cleanup. unfold uninitialised_copy.
    eapply wp_mono;
      [apply (uninitialised_construct_lvalue_cells s1 b 0 nb 0 0 l)|..];
      cbv beta.
    { done. }
    { done. }
    { intros t v Hv. pose proof (lookup_lt_Some _ _ _ Hv) as Ht.
      rewrite Hc1b, Hcells by lia. by rewrite Nat.add_0_l, Hv. }
    { intros k Hk. lia. }
    { intros k Hk. apply Hc1n. lia. }
    + intros p2 s2 (-> & Hsh2 & Hc2).
      wp_pure. unfold set_first, set_last, set_end. wp_pure. state_simpl.
      cbn [first last end_ cpair_second ptr_add].
      assert (Hbl : same_blocks s1 s2) by blocks_chain.
      destruct Hbl as [Hbl1 Hbl2].
      split; [|split; [|split]].
      * eapply (holds_from_cells _ _ _ _ nb); try done.
        -- by state_simpl.
        -- state_simpl. by rewrite Hbl2.
        -- intros o Ho. rewrite !cell_at_set_obj, Hc2.
           cell_cases; rewrite ?Hc1n by lia; lookup_solve.
      * eapply (Hframe s1); try done.
        -- rewrite !get_obj_set_obj_ne by done.
           by rewrite (same_shape_obj _ _ _ Hsh2).
        -- intros b' Hb'. split; [state_simpl; by rewrite Hbl2|].
           intros o. rewrite !cell_at_set_obj, Hc2. cell_cases.
      * unfold data_of. state_simpl. cbn [cpair_second first].
        subst nb. by rewrite Hh.
      * state_simpl. cbn [cpair_first].
        rewrite (same_shape_obj _ _ _ Hsh2), Hobj1, Hd0. done.
    + intros e s2 (Hsh2 & Hc2).
      assert (Hbl : same_blocks s1 s2) by blocks_chain.
      destruct Hbl as [Hbl1 Hbl2].
      eapply wp_ok; [apply (deallocate_cells s2 nb c); by rewrite Hbl2|].
      assert (Hnull : data_of this (set_heap (<[nb:=None]> (heap s2)) s2)
                      = null_data).
      { unfold data_of. state_simpl.
        by rewrite (same_shape_obj _ _ _ Hsh2), Hobj1, Hd0. }
      split; [exact Hnull|]. split.
      * by left.
      * eapply (Hframe s1); try done.
        -- state_simpl. by rewrite (same_shape_obj _ _ _ Hsh2).
        -- intros b' Hb'.
           destruct (deallocated_other (heap s2) nb b') as [Hdb Hdc];
             [subst nb; lia|].
           split; [state_simpl; by rewrite Hdb, Hbl2|].
           intros o. unfold cell_at at 1. state_simpl. rewrite Hdc.
           fold (cell_at s2 (Ptr b' o)). rewrite Hc2. cell_cases.
Qed.

Lemma darray_copy_run this other s (l : list T) c :
  this ≠ other → holds other s l c →
  wp False (darray_copy this other) s
    (λ _ s', holds this s' l c ∧ holds other s' l c ∧
             first (data_of this s') = Ptr (length (heap s)) 0 ∧
             cpair_first (get_obj this s') = cpair_first (get_obj other s))
    (λ _ s', holds this s' [] 0 ∧ holds other s' l c).
Proof.
  intros Hneq H. unfold darray_copy, _alloc.
  apply wp_bind. eapply wp_ok; [done|]. cbv beta.
  by apply darray_copy_alloc_run.
Qed.

(** Construction from a multi-pass range of values: the container holds the
    values in a block of exactly as many cells; or an allocation or a
    construction throws and the container owns nothing. *)
Lemma darray_from_forward_run this s (vs : list T) a :
  wp False (darray_from_forward this (Val <$> vs) a) s
    (λ _ s', holds this s' vs (length vs) ∧
             cpair_first (get_obj this s') = a)
    (λ _ s', holds this s' [] 0).
Proof.
  unfold darray_from_forward, darray_alloc. rewrite length_fmap.
  set (s0 := set_obj this (mk_darray a null_data) s).
  assert (Hd0 : get_obj this s0 = mk_darray a null_data).
  { subst s0. by state_simpl. }
  assert (Hthis0 : holds this s0 [] 0) by (left; unfold data_of; by rewrite Hd0).
  apply wp_bind. eapply (wp_ok _ _ _ tt s0); [done|].
  apply wp_destroy_null.
  unfold _unallocated_assign, _ctg_duplicate. wp_pure.
  eapply wp_mono; [apply allocate_cells|..]; cbv beta; last first.
  { intros e s' [[_ ->]|(_ & Hbig & ->)];
      (split; [by unfold data_of; rewrite ?get_obj_tick, Hd0|]);
      [by apply holds_tick|done]. }
  intros _ s1 (Hmax & -> & HX1 & HY1 & Hh1).
  set (nb := length (heap s0)) in *.
  assert (Hobj1 : ∀ w : var, get_obj w s1 = get_obj w s0) by (by intros []).
  destruct (allocated_new _ _ _ Hh1) as [Hlen1n Hc1n].
  fold nb in Hlen1n, Hc1n.
  apply wp_bind, wp_try_cleanup.
  eapply wp_mono; [apply (uninitialised_copy_val_cells s1 nb 0 vs)|..];
    cbv beta.
  { intros k Hk. apply Hc1n. lia. }
  - intros p2 s2 (-> & Hsh2 & Hc2).
    wp_pure. unfold set_first, set_last, set_end. wp_pure. state_simpl.
    cbn [first last end_ cpair_second cpair_first ptr_add].
    assert (Hbl : same_blocks s1 s2) by blocks_chain.
    destruct Hbl as [Hbl1 Hbl2].
    split.
    + eapply (holds_from_cells _ _ _ _ nb); try done.
      * by state_simpl.
      * state_simpl. by rewrite Hbl2.
      * intros o Ho. rewrite !cell_at_set_obj, Hc2.
        cell_cases; rewrite ?Hc1n by lia; lookup_solve.
    + by rewrite (same_shape_obj _ _ _ Hsh2), Hobj1, Hd0.
  - intros e s2 (Hsh2 & Hc2).
    assert (Hbl : same_blocks s1 s2) by blocks_chain.
    destruct Hbl as [Hbl1 Hbl2].
    eapply wp_ok; [apply (deallocate_cells s2 nb (length vs)); by rewrite Hbl2|].
    assert (Hnull : data_of this (set_heap (<[nb:=None]> (heap s2)) s2)
                    = null_data).
    { unfold data_of. state_simpl.
      by rewrite (same_shape_obj _ _ _ Hsh2), Hobj1, Hd0. }
    split; [exact Hnull|]. by left.
Qed.

(** Construction from a single-pass range of values: the container holds the
    values; or the append of some value throws once those before it are in,
    and the destructor then runs on the container as that left it: the
    elements are destroyed and the block is released. *)
Lemma darray_from_input_run this s (vs : list T) a :
  wp False (darray_from_input this (Val <$> vs) a) s
    (λ _ s', ∃ c', holds this s' vs c')
    (λ _ s', ∃ s1 c' k,
       k < length vs ∧ holds this s1 (take k vs) c' ∧
       darray_destroy this s1 = Ok tt s' ∧
       ∀ b, first (data_of this s') = Ptr b 0 → heap s' !! b = Some None).
Proof.
  unfold darray_from_input, darray_alloc.
  set (s0 := set_obj this (mk_darray a null_data) s).
  assert (Hd0 : get_obj this s0 = mk_darray a null_data).
  { subst s0. by state_simpl. }
  assert (Hthis0 : holds this s0 [] 0) by (left; unfold data_of; by rewrite Hd0).
  apply wp_bind. eapply (wp_ok _ _ _ tt s0); [done|].
  apply wp_try_cleanup.
  eapply wp_mono; [by apply (append_all_run this s0 [] vs 0)|..]; cbv beta;
    [done|].
  intros e s1 (c' & k & Hk & H1). simpl in H1.
  destruct (darray_destroy_run this s1 _ c' H1)
    as (h' & Hrun & Hlen & Hown & Hother).
  eapply wp_ok; [exact Hrun|].
  exists s1, c', k. split; [done|]. split; [done|]. split; [done|].
  intros b Hb. apply Hown. unfold data_of in *. by rewrite get_obj_set_heap in Hb.
Qed.

(** ** [assign] *)

(** A container holds what it held after an allocation and changes in the
    cells of the new block. *)
Lemma holds_beside_new this s s1 s2 (l : list T) c n :
  holds this s l c →
  heap s1 = heap s ++ [Some (replicate n None)] →
  get_obj this s2 = get_obj this s →
  (∀ b, b < length (heap s) →
        length <$> heap_block (heap s2) b = length <$> heap_block (heap s1) b ∧
        ∀ o, cell_at s2 (Ptr b o) = cell_at s1 (Ptr b o)) →
  holds this s2 l c.
Proof.
  intros H Hh1 Hobj Hc2.
  eapply holds_transport; [exact H|done|].
  intros b Hb. pose proof (holds_block_lt _ _ _ _ _ H Hb) as Hlt.
  destruct (allocated_old _ _ _ b Hh1 Hlt) as [Hb1 Hc1b].
  destruct (Hc2 b Hlt) as [Hl2 Hc2'].
  split; [by rewrite Hl2, Hb1|].
  intros o _. by rewrite Hc2', Hc1b.
Qed.

(** Case 1 of [assign]: the values are built in a new block of exactly as
    many cells, which replaces the old one; or this throws and nothing has
    changed. *)
Lemma resize_assign_run this s (l : list T) c (vs : list T) a :
  holds this s l c →
  wp False (_resize_assign this a (Val <$> vs) (length vs)) s
    (λ _ s', holds this s' vs (length vs))
    (λ _ s', holds this s' l c).
Proof.
  intros H. unfold _resize_assign, _ctg_duplicate. wp_pure.
  eapply wp_mono; [apply allocate_cells|..]; cbv beta; last first.
  { intros e s' [[_ ->]|(_ & Hbig & ->)]; [by apply holds_tick|done]. }
  intros _ s1 (Hmax & -> & HX1 & HY1 & Hh1).
  set (nb := length (heap s)) in *.
  assert (Hobj1 : ∀ w : var, get_obj w s1 = get_obj w s) by (by intros []).
  destruct (allocated_new _ _ _ Hh1) as [Hlen1n Hc1n].
  fold nb in Hlen1n, Hc1n.
  apply wp_bind, wp_try_cleanup.
  eapply wp_mono; [apply (uninitialised_copy_val_cells s1 nb 0 vs)|..];
    cbv beta.
  { intros k Hk. apply Hc1n. lia. }
  - intros p2 s2 (-> & Hsh2 & Hc2). wp_pure.
    assert (Hbl : same_blocks s1 s2) by blocks_chain.
    destruct Hbl as [Hbl1 Hbl2].
    assert (H2 : holds this s2 l c).
    { eapply (holds_beside_new _ s s1); try done.
      - by rewrite (same_shape_obj _ _ _ Hsh2).
      - intros b Hb. split; [done|]. intros o. rewrite Hc2. cell_cases. }
    destruct (replace_holds this s2 _ _ nb vs (length vs) H2)
      as (s3 & Hr & H3).
    { intros Hf. pose proof (holds_block_lt _ _ _ _ _ H2 Hf) as Hlt.
      rewrite Hbl1, Hh1, length_app in Hlt. simpl in Hlt.
      pose proof (holds_block_lt _ _ _ _ nb H) as Hlt'.
      unfold data_of in Hf, Hlt'.
      rewrite (same_shape_obj _ _ _ Hsh2), Hobj1 in Hf.
      specialize (Hlt' Hf). subst nb. lia. }
    { done. }
    { done. }
    { by rewrite Hbl2. }
    { intros o Ho. rewrite Hc2. cell_cases; rewrite ?Hc1n by lia; lookup_solve. }
    rewrite Nat.add_0_l. eapply wp_ok; [exact Hr|]. done.
  - intros e s2 (Hsh2 & Hc2).
    assert (Hbl : same_blocks s1 s2) by blocks_chain.
    destruct Hbl as [Hbl1 Hbl2].
    eapply wp_ok; [apply (deallocate_cells s2 nb (length vs)); by rewrite Hbl2|].
    eapply (holds_beside_new _ s s1); try done.
    + state_simpl. by rewrite (same_shape_obj _ _ _ Hsh2).
    + intros b Hb.
      destruct (deallocated_other (heap s2) nb b) as [Hdb Hdc];
        [subst nb; lia|].
      split; [state_simpl; by rewrite Hdb, Hbl2|].
      intros o. unfold cell_at at 1. state_simpl. rewrite Hdc.
      fold (cell_at s2 (Ptr b o)). rewrite Hc2. cell_cases.
Qed.

(** The cells of a block whose first [m] objects have been overwritten by
    the values [vs] and whose object number [m] holds [u]. *)
Lemma overwritten_lookup s b (l vs : list T) c m u o :
  m < length l → m < length vs → o < c →
  (∀ o, o < c → cell_at s (Ptr b o) = Some (l !! o)) →
  match offset_in (Ptr b 0) m (Ptr b o) with
  | Some t => Some (vs !! t)
  | None =>
      if decide (Ptr b o = Ptr b (0 + m)) then Some (Some u)
      else cell_at s (Ptr b o)
  end = Some ((take m vs ++ u :: drop (S m) l) !! o).
Proof.
  intros Hm Hm' Ho Hcells. unfold offset_in.
  assert (Hlt : length (take m vs) = m) by (rewrite length_take; lia).
  destruct (decide (o < m)) as [Hlo|Hlo].
  - rewrite decide_True by (split; [done|lia]). f_equal.
    rewrite lookup_app_l by lia. rewrite lookup_take_lt by lia.
    f_equal. lia.
  - rewrite decide_False by lia.
    rewrite lookup_app_r by lia. rewrite Hlt.
    destruct (decide (o = m)) as [->|Hne].
    + rewrite decide_True by (f_equal; lia). by rewrite Nat.sub_diag.
    + rewrite decide_False by (intros [=]; lia).
      rewrite Hcells by done.
      destruct (o - m) as [|k] eqn:Hk; [lia|]. simpl.
      rewrite lookup_drop. do 2 f_equal. lia.
Qed.

(** [assign(first, last)] with a multi-pass range of values: the container
    holds the values, in its block when that is large enough and else in a
    new block of exactly as many cells; or the operation throws. Then, when
    the range did not fit, nothing has changed; otherwise the first [m]
    elements have been overwritten by the values of the range, the element
    behind them is what the assignment that threw made of it, and the
    elements further on are as they were. *)
Lemma assign_forward_run this s (l : list T) c (vs : list T) :
  holds this s l c →
  wp False (assign_forward this (Val <$> vs)) s
    (λ _ s', holds this s' vs (if decide (c < length vs) then length vs else c))
    (λ _ s', ∃ m l', m ≤ length l ∧ m ≤ length vs ∧
                     length l' = length l - m ∧
                     drop 1 l' = drop (S m) l ∧
                     (c < length vs → m = 0 ∧ l' = l) ∧
                     holds this s' (take m vs ++ l') c).
Proof.
  intros H. unfold assign_forward, _alloc.
  apply wp_bind. eapply (wp_ok _ _ _ _ s); [reflexivity|].
  unfold _alt_alloc_assign. cbv zeta. rewrite length_fmap.
  wp_ok_step (capacity_run _ _ _ _ H).
  wp_ok_step (size_run _ _ _ _ H).
  destruct (decide (c < length vs)) as [Hc1|Hc1].
  { eapply wp_mono; [by apply resize_assign_run|..]; cbv beta; [done|].
    intros _ s' H'. exists 0, l. rewrite take_0. simpl.
    split; [lia|]. split; [lia|]. split; [lia|]. by repeat split. }
  pose proof H as H0.
  apply holds_data in H0 as [(-> & -> & Hd)|(b & Hd & _)].
  { (* nothing held and nothing to assign *)
    assert (vs = []) as -> by (destruct vs; [done|simpl in Hc1; lia]).
    unfold data_of in Hd. simpl.
    wp_pure. rewrite Hd. cbn [first last end_ null_data].
    eapply (wp_ok _ _ _ tt s); [reflexivity|].
    unfold set_last. wp_pure. rewrite Hd. cbn [first last end_ null_data].
    left. unfold data_of. by state_simpl. }
  assert (Hf : first (data_of this s) = Ptr b 0) by (by rewrite Hd).
  destruct (holds_cells _ _ _ _ _ H Hf) as (Hd' & Hlc & Hc & Hlen & Hcells).
  destruct (decide (length l < length vs)) as [Hc2|Hc2].
  - (* Case 2: the elements are assigned over, the rest is built *)
    wp_pure. rewrite Hd'. cbn [first last end_].
    replace (length l) with (0 + length l) at 1 by lia.
    eapply wp_mono;
      [apply (copy_until_sentinel_val_cells s b 0 (length l) vs)|..];
      cbv beta.
    { lia. }
    { intros t Ht. rewrite Hcells by lia. live_solve. }
    + intros r' s1 (-> & Hsh1 & Hc1').
      pose proof (same_shape_data _ _ this Hsh1) as Hd1. rewrite Hd' in Hd1.
      wp_pure. rewrite Hd1. cbn [first last end_].
      eapply wp_mono;
        [apply (uninitialised_copy_val_cells s1 b (length l)
                  (drop (length l) vs))|..]; cbv beta.
      { intros t Ht. rewrite length_drop in Ht. rewrite Hc1'. cell_cases.
        rewrite Hcells by lia. by rewrite lookup_ge_None_2 by lia. }
      * intros p2 s2 (-> & Hsh2 & Hc2').
        pose proof (same_shape_data _ _ this Hsh2) as Hd2. rewrite Hd1 in Hd2.
        unfold set_last. wp_pure. rewrite Hd2. cbn [first last end_].
        rewrite length_drop in Hc2'.
        assert (Hbl : same_blocks s s2) by blocks_chain.
        destruct Hbl as [Hbl1 Hbl2].
        eapply (holds_from_cells _ _ _ _ b).
        -- state_simpl. cbn [cpair_second]. do 2 f_equal.
           rewrite length_drop. lia.
        -- lia.
        -- done.
        -- state_simpl. by rewrite Hbl2.
        -- intros o Ho. rewrite cell_at_set_obj, Hc2', Hc1'.
           cell_cases; list_norm; rewrite ?Hcells by lia; lookup_solve.
      * intros e s2 (Hsh2 & Hc2').
        exists (length l), (drop (length l) l).
        split; [lia|]. split; [lia|].
        split; [rewrite length_drop; lia|].
        split; [rewrite drop_drop; f_equal; lia|]. split; [lia|].
        assert (Hbl : same_blocks s s2) by blocks_chain.
        destruct Hbl as [Hbl1 Hbl2].
        eapply (holds_from_cells _ _ _ _ b).
        -- rewrite (same_shape_data _ _ this Hsh2), Hd1. do 2 f_equal.
           list_norm. lia.
        -- list_norm. lia.
        -- done.
        -- by rewrite Hbl2.
        -- intros o Ho. rewrite Hc2', Hc1'.
           cell_cases; list_norm; rewrite ?Hcells by lia; lookup_solve.
    + intros e s1 (Hsh1 & m' & u & Hm' & Hc1').
      exists m', (u :: drop (S m') l). split; [lia|]. split; [lia|].
      split; [simpl; rewrite length_drop; lia|].
      split; [done|]. split; [lia|].
      assert (Hbl : same_blocks s s1) by blocks_chain.
      destruct Hbl as [Hbl1 Hbl2].
      assert (Hlen' : length (take m' vs ++ u :: drop (S m') l) = length l).
      { rewrite length_app, length_take. simpl. rewrite length_drop. lia. }
      eapply (holds_from_cells _ _ _ _ b).
      * rewrite (same_shape_data _ _ this Hsh1), Hd'. by rewrite Hlen'.
      * by rewrite Hlen'.
      * done.
      * by rewrite Hbl2.
      * intros o Ho. rewrite Hc1'.
        apply (overwritten_lookup s b l vs c); [lia|lia|done|done].
  - (* Case 3: the values are assigned, the elements behind are destroyed *)
    wp_pure. rewrite Hd'. cbn [first last end_].
    eapply wp_mono; [apply (copy_val_cells s b 0 vs)|..]; cbv beta.
    { intros t Ht. rewrite Hcells by lia. live_solve. }
    + intros p1 s1 (-> & Hsh1 & Hc1').
      pose proof (same_shape_data _ _ this Hsh1) as Hd1. rewrite Hd' in Hd1.
      wp_pure. rewrite Hd1. cbn [first last end_].
      destruct (destroy_range_cells s1 b (0 + length vs) (length l - length vs))
        as (s2 & Hdr & Hsh2 & Hc2').
      { intros k Hk. rewrite Hc1'. cell_cases. rewrite Hcells by lia.
        live_solve. }
      replace (0 + length vs + (length l - length vs)) with (length l)
        in Hdr by lia.
      wp_ok_step Hdr.
      pose proof (same_shape_data _ _ this Hsh2) as Hd2. rewrite Hd1 in Hd2.
      unfold set_last. wp_pure. rewrite Hd2. cbn [first last end_].
      assert (Hbl : same_blocks s s2) by blocks_chain.
      destruct Hbl as [Hbl1 Hbl2].
      eapply (holds_from_cells _ _ _ _ b).
      * by state_simpl.
      * lia.
      * done.
      * state_simpl. by rewrite Hbl2.
      * intros o Ho. rewrite cell_at_set_obj, Hc2', Hc1'.
        cell_cases; list_norm; rewrite ?Hcells by lia; lookup_solve.
    + intros e s1 (Hsh1 & m' & u & Hm' & Hc1').
      exists m', (u :: drop (S m') l). split; [lia|]. split; [lia|].
      split; [simpl; rewrite length_drop; lia|].
      split; [done|]. split; [lia|].
      assert (Hbl : same_blocks s s1) by blocks_chain.
      destruct Hbl as [Hbl1 Hbl2].
      assert (Hlen' : length (take m' vs ++ u :: drop (S m') l) = length l).
      { rewrite length_app, length_take. simpl. rewrite length_drop. lia. }
      eapply (holds_from_cells _ _ _ _ b).
      * rewrite (same_shape_data _ _ this Hsh1), Hd'. by rewrite Hlen'.
      * by rewrite Hlen'.
      * done.
      * by rewrite Hbl2.
      * intros o Ho. rewrite Hc1'.
        apply (overwritten_lookup s b l vs c); [lia|lia|done|done].
Qed.

(** The first loop of case 4 of [assign]: values are assigned over the
    elements until either side is exhausted. *)
Lemma assign_overwrite_val_cells this s b j n (vs : list T) :
  last (cpair_second (get_obj this s)) = Ptr b n → j ≤ n →
  (∀ k, j ≤ k < n → ∃ w, cell_at s (Ptr b k) = Some (Some w)) →
  wp False (assign_overwrite this (Val <$> vs) (Ptr b j)) s
    (λ pr s', pr = (Ptr b (j + (n - j) `min` length vs),
                    Val <$> drop ((n - j) `min` length vs) vs) ∧
              same_shape s s' ∧
              ∀ q, cell_at s' q
                   = match offset_in (Ptr b j) ((n - j) `min` length vs) q with
                     | Some t => Some (vs !! t)
                     | None => cell_at s q
                     end)
    (λ _ s', same_shape s s' ∧ ∃ m u, m < (n - j) `min` length vs ∧
              ∀ q, cell_at s' q = match offset_in (Ptr b j) m q with
                                  | Some t => Some (vs !! t)
                                  | None =>
                                      if decide (q = Ptr b (j + m))
                                      then Some (Some u) else cell_at s q
                                  end).
Proof.
  revert j s. induction vs as [|v vs IH]; intros j s Hl Hj Hlive.
  - cbn [fmap list_fmap assign_overwrite]. wp_pure. rewrite Hl.
    replace ((n - j) `min` length []) with 0 by (simpl; lia).
    rewrite Nat.add_0_r.
    case_decide; apply wp_ret; (split; [done|split; [done|]]);
      intros [|b' o]; try done; cell_cases.
  - cbn [fmap list_fmap assign_overwrite]. wp_pure. rewrite Hl.
    destruct (decide (Ptr b j = Ptr b n)) as [Heq|Hne].
    + injection Heq as ->. apply wp_ret.
      replace ((n - n) `min` length (v :: vs)) with 0 by lia.
      rewrite Nat.add_0_r, drop_0. split; [done|]. split; [done|].
      intros [|b' o]; [done|]. cell_cases.
    + assert (j < n) by (apply Ptr_ne in Hne; lia).
      destruct (Hlive j) as (w & Hw); [lia|].
      apply wp_bind.
      eapply wp_mono; [apply (assign_val_cells s _ v w Hw)|..]; cbv beta.
      * intros _ s1 (Hsh1 & Hc1). cbn [ptr_add].
        eapply wp_mono; [apply (IH (j + 1) s1)|..]; cbv beta.
        -- by rewrite (same_shape_data _ _ this Hsh1).
        -- lia.
        -- intros k Hk. rewrite Hc1. rewrite decide_False by (intros [=]; lia).
           apply Hlive. lia.
        -- intros pr s2 (-> & Hsh2 & Hc2).
           replace ((n - j) `min` length (v :: vs))
             with (S ((n - (j + 1)) `min` length vs)) by (simpl; lia).
           split; [f_equal; f_equal; lia|].
           split; [by eapply same_shape_trans|].
           intros [|b' o]; rewrite Hc2, Hc1; [done|]. cell_cases; cons_lookup.
        -- intros e s2 (Hsh2 & m & u & Hm & Hc2).
           split; [by eapply same_shape_trans|].
           exists (S m), u. split; [simpl; lia|].
           intros [|b' o]; rewrite Hc2, Hc1; [done|].
           replace (j + 1 + m) with (j + S m) by lia.
           cell_cases; cons_lookup.
      * intros e s1 (Hsh1 & Hc1). split; [done|].
        exists 0, (assign_unwind w v). split; [simpl; lia|].
        rewrite Nat.add_0_r.
        intros [|b' o]; rewrite Hc1; [done|]. cell_cases.
Qed.

(** [assign(first, last)] with a single-pass range of values: the container
    holds the values; or the operation throws, and then some of the first
    values of the range have taken the place of as many elements, or have
    been appended when there were fewer elements. *)
Lemma assign_input_run this s (l : list T) c (vs : list T) :
  holds this s l c →
  wp False (assign_input this (Val <$> vs)) s
    (λ _ s', ∃ c', holds this s' vs c')
    (λ _ s', ∃ m l' c', m < length vs ∧
                        length l' = length l - m ∧
                        drop 1 l' = drop (S m) l ∧
                        holds this s' (take m vs ++ l') c').
Proof.
  intros H. unfold assign_input. pose proof H as H0.
  apply holds_data in H0 as [(-> & -> & Hd)|(b & Hd & _)].
  - (* nothing held: the values are appended *)
    unfold data_of in Hd. wp_pure. rewrite Hd. cbn [first last end_ null_data].
    destruct vs as [|v vs]; cbn [fmap list_fmap assign_overwrite];
      wp_pure; rewrite Hd; cbn [first last end_ null_data];
      rewrite decide_True by done; wp_pure; rewrite Hd;
      cbn [first last end_ null_data];
      (wp_peel; eapply (wp_ok _ _ _ tt s); [reflexivity|]);
      unfold set_last; wp_pure; rewrite Hd; cbn [first last end_ null_data].
    + apply wp_ret. exists 0. left. unfold data_of. by state_simpl.
    + set (s0 := set_obj this _ s).
      assert (H0 : holds this s0 [] 0).
      { left. unfold data_of. subst s0. by state_simpl. }
      eapply wp_mono; [apply (append_all_run this s0 [] (v :: vs) 0 H0)|..];
        cbv beta.
      * intros _ s' (c' & H'). by exists c'.
      * intros _ s' (c' & k & Hk & H'). exists k, [], c'.
        split; [done|]. split; [done|]. split; [done|].
        by rewrite app_nil_r.
  - assert (Hf : first (data_of this s) = Ptr b 0) by (by rewrite Hd).
    destruct (holds_cells _ _ _ _ _ H Hf) as (Hd' & Hlc & Hc & Hlen & Hcells).
    wp_pure. rewrite Hd'. cbn [first last end_].
    eapply wp_mono;
      [apply (assign_overwrite_val_cells this s b 0 (length l) vs)|..];
      cbv beta.
    { by rewrite Hd'. }
    { lia. }
    { intros k Hk. rewrite Hcells by lia. live_solve. }
    + intros pr s1 (-> & Hsh1 & Hc1).
      rewrite Nat.sub_0_r, Nat.add_0_l in *.
      set (m := length l `min` length vs) in *.
      pose proof (same_shape_data _ _ this Hsh1) as Hd1. rewrite Hd' in Hd1.
      wp_pure. rewrite Hd1. cbn [first last end_].
      destruct (destroy_range_cells s1 b m (length l - m))
        as (s2 & Hdr & Hsh2 & Hc2).
      { intros k Hk. rewrite Hc1. cell_cases. rewrite Hcells by lia.
        live_solve. }
      replace (m + (length l - m)) with (length l) in Hdr by lia.
      wp_ok_step Hdr.
      pose proof (same_shape_data _ _ this Hsh2) as Hd2. rewrite Hd1 in Hd2.
      unfold set_last. wp_pure. rewrite Hd2. cbn [first last end_].
      set (s3 := set_obj this _ s2).
      assert (H3 : holds this s3 (take m vs) c).
      { assert (Hbl : same_blocks s s3) by blocks_chain.
        destruct Hbl as [Hbl1 Hbl2].
        eapply (holds_from_cells _ _ _ _ b).
        - subst s3. state_simpl. cbn [cpair_second]. do 2 f_equal.
          list_norm. lia.
        - list_norm. lia.
        - done.
        - by rewrite Hbl2.
        - intros o Ho. subst s3. rewrite cell_at_set_obj, Hc2, Hc1.
          cell_cases; list_norm; rewrite ?Hcells by lia; lookup_solve. }
      eapply wp_mono;
        [apply (append_all_run this s3 (take m vs) (drop m vs) c H3)|..];
        cbv beta.
      * intros _ s' (c' & H'). exists c'. by rewrite take_drop in H'.
      * intros _ s' (c' & k & Hk & H'). rewrite length_drop in Hk.
        destruct (decide (length vs ≤ length l)) as [Hle|Hgt]; [lia|].
        assert (Hm : m = length l) by (subst m; lia).
        exists (m + k), [], c'. split; [lia|].
        split; [simpl; lia|].
        split; [simpl; by rewrite (drop_ge l) by lia|].
        rewrite app_nil_r.
        by rewrite take_take_drop in H'.
    + intros e s1 (Hsh1 & m' & u & Hm' & Hc1).
      rewrite Nat.sub_0_r in Hm'.
      exists m', (u :: drop (S m') l), c. split; [lia|].
      split; [simpl; rewrite length_drop; lia|]. split; [done|].
      assert (Hbl : same_blocks s s1) by blocks_chain.
      destruct Hbl as [Hbl1 Hbl2].
      assert (Hlen' : length (take m' vs ++ u :: drop (S m') l) = length l).
      { rewrite length_app, length_take. simpl. rewrite length_drop. lia. }
      eapply (holds_from_cells _ _ _ _ b).
      * rewrite (same_shape_data _ _ this Hsh1), Hd'. by rewrite Hlen'.
      * by rewrite Hlen'.
      * done.
      * by rewrite Hbl2.
      * intros o Ho. rewrite Hc1.
        apply (overwritten_lookup s b l vs c); [lia|lia|done|done].
Qed.

(** ** Operations in sequence *)

(** [back()] on a container whose last value is known. *)
Lemma back_run this s (l : list T) c v :
  holds this s (l ++ [v]) c → back this s = Ok v s.
Proof.
  intros H. pose proof H as H0.
  apply holds_data in H0 as [(Hnil & _)|(b & Hd & _)].
  { by destruct l. }
  assert (Hf : first (data_of this s) = Ptr b 0) by (by rewrite Hd).
  destruct (holds_cells _ _ _ _ _ H Hf) as (Hd' & Hlc & Hc & Hlen & Hcells).
  rewrite length_app in *. simpl in *.
  unfold back, unchecked_back, empty, _data, mbind, M_bind. simpl.
  rewrite Hd'. cbn [first last end_].
  rewrite bool_decide_eq_false_2 by (intros [=]; lia). simpl.
  rewrite Hd'. cbn [first last end_].
  rewrite bool_decide_eq_false_2 by (intros [=]; lia). simpl.
  rewrite Hd'. cbn [first last end_]. unfold ptr_sub.
  rewrite decide_True by lia. simpl.
  apply read_cells. rewrite Hcells by lia.
  replace (length l + 1 - 1) with (length l) by lia.
  by rewrite list_lookup_middle.
Qed.

(** [push_back(v)] and then [back()]: the value comes back; or [push_back]
    throws and the container holds what it held. *)
Lemma push_back_back_run this s (l : list T) c v :
  holds this s l c →
  wp False (push_back this (Val v);; back this) s
    (λ w s', w = v ∧ ∃ c', holds this s' (l ++ [v]) c')
    (λ _ s', holds this s' l c).
Proof.
  intros H. unfold push_back. apply wp_bind, wp_bind.
  eapply wp_mono; [by apply emplace_back_run|..]; cbv beta; [|done].
  intros _ s1 (c1 & H1). apply wp_ret.
  eapply wp_ok; [by eapply back_run|]. split; [done|]. by exists c1.
Qed.

(** [push_back(v)] and then [erase(end() - 1, end())]: the container holds
    what it held, possibly in a larger block. *)
Lemma push_back_erase_run this s (l : list T) c v :
  holds this s l c →
  wp False (push_back this (Val v);;
            d ← _data this;
            p ← ptr_sub (last d) 1;
            erase this p (last d)) s
    (λ _ s', ∃ c', c ≤ c' ∧ holds this s' l c')
    (λ _ s', holds this s' l c).
Proof.
  intros H. unfold push_back. apply wp_bind, wp_bind.
  eapply wp_mono; [by apply emplace_back_total|..]; cbv beta; [|done].
  intros _ s1 (c1 & H1 & Hin). apply wp_ret. wp_pure.
  pose proof H1 as H1'.
  apply holds_data in H1' as [(Hnil & _)|(b & Hd & _)].
  { by destruct l. }
  unfold data_of in Hd. rewrite Hd. cbn [first last end_].
  rewrite length_app. simpl.
  wp_ok_step (ptr_sub_run s1 b (length l + 1) 1 ltac:(lia)).
  destruct (erase_tail_run this s1 (l ++ [v]) c1 (length l) H1)
    as (s2 & He & H2 & _); [rewrite length_app; lia|].
  unfold data_of in He. rewrite Hd in He. cbn [first last ptr_add] in He.
  rewrite length_app in He. simpl in He.
  replace (length l + 1 - 1) with (0 + length l) by lia.
  eapply wp_ok; [exact He|].
  rewrite take_app_length in H2. exists c1. split; [|done].
  destruct (decide (length l < c)) as [Hlt|Hge]; [by destruct (Hin Hlt) as [-> _]|].
  pose proof (holds_bounds _ _ _ _ H) as [Hlc _].
  pose proof (holds_bounds _ _ _ _ H1) as [Hlc1 _].
  rewrite length_app in Hlc1. simpl in Hlc1. lia.
Qed.

(** ** Unchecked append; move construction with an allocator *)

(** [u_emplace_back]: the value is built in the raw cell behind the last
    element; without such a cell the verification fails. *)
Lemma u_emplace_back_run this s (l : list T) c v :
  holds this s l c →
  match u_emplace_back this (Val v) s with
  | Ok _ s' => length l < c ∧ holds this s' (l ++ [v]) c ∧
               first (data_of this s') = first (data_of this s)
  | Throw _ s' => length l < c ∧ holds this s' l c
  | Undefined => length l = c
  end.
Proof.
  intros H. pose proof H as H0.
  apply holds_data in H0 as [(-> & -> & Hd)|(b & Hd & _)].
  - unfold u_emplace_back, _data, mbind, M_bind. unfold data_of in Hd.
    rewrite Hd. done.
  - assert (Hf : first (data_of this s) = Ptr b 0) by (by rewrite Hd).
    destruct (holds_cells _ _ _ _ _ H Hf) as (Hd' & Hlc & Hc & Hlen & Hcells).
    destruct (decide (length l = c)) as [<-|Hne].
    { unfold u_emplace_back, _data, mbind, M_bind. rewrite Hd'.
      cbn [first last end_]. by rewrite bool_decide_eq_false_2 by naive_solver. }
    change (wp (length l = c) (u_emplace_back this (Val v)) s
              (λ _ s', length l < c ∧ holds this s' (l ++ [v]) c ∧
                       first (data_of this s') = first (data_of this s))
              (λ _ s', length l < c ∧ holds this s' l c)).
    unfold u_emplace_back. wp_pure. rewrite Hd'. cbn [first last end_].
    rewrite bool_decide_eq_true_2 by (intros [=]; lia).
    wp_pure. rewrite Hd'. cbn [first last end_].
    assert (Hraw : cell_at s (Ptr b (length l)) = Some None).
    { rewrite Hcells by lia. by rewrite lookup_ge_None_2. }
    pose proof (construct_val_cells s (Ptr b (length l)) v Hraw) as Hcv.
    unfold wp in Hcv |- *.
    destruct (construct (Ptr b (length l)) (Val v) s) as [u s1|e s1|];
      [| |done]; destruct Hcv as (Hsh1 & Hc1).
    + pose proof (same_shape_data _ _ this Hsh1) as Hd1. rewrite Hd' in Hd1.
      fold (wp (length l = c)
              (d ← _data this; set_last this (ptr_add (last d) 1)) s1
              (λ _ s', length l < c ∧ holds this s' (l ++ [v]) c ∧
                       first (data_of this s') = first (data_of this s))
              (λ _ s', length l < c ∧ holds this s' l c)).
      unfold set_last. wp_pure. rewrite Hd1. cbn [first last end_ ptr_add].
      assert (Hbl : same_blocks s s1) by blocks_chain.
      destruct Hbl as [Hbl1 Hbl2].
      split; [lia|]. split; [|rewrite Hf; unfold data_of; by state_simpl].
      eapply (holds_from_cells _ _ _ _ b).
      * state_simpl. cbn [cpair_second]. by rewrite length_app.
      * rewrite length_app. simpl. lia.
      * done.
      * state_simpl. by rewrite Hbl2.
      * intros o Ho. rewrite cell_at_set_obj, Hc1.
        cell_cases; list_norm; rewrite ?Hcells by lia; lookup_solve.
    + split; [lia|].
      eapply holds_transport; [exact H|by rewrite (same_shape_obj _ _ _ Hsh1)|].
      intros b' Hb'. destruct Hsh1 as (_ & _ & _ & Hbl). split; [done|].
      intros o _. by rewrite Hc1.
Qed.

Lemma rvalues_run s b i n :
  rvalues (T:=T) (Ptr b i) (Ptr b (i + n)) s
  = Ok (Rvalue <$> (Ptr b <$> seq i n)) s.
Proof. unfold rvalues. by erewrite bind_ok by apply range_run. Qed.

(** [darray(darray&&, const Alloc&)] with an allocator that differs from
    the one of the source, for an element type whose move constructor does
    not throw: the elements are moved one by one into a new block of the
    capacity of the source, and the source keeps its block with the
    moved-from objects; or the allocation throws and nothing has moved. *)
Lemma darray_move_alloc_elementwise this other s (l : list T) c a :
  this ≠ other → holds other s l c →
  is_always_equal = false → a ≠ cpair_first (get_obj other s) →
  is_nothrow_move_constructible = true →
  wp False (darray_move_alloc this other a) s
    (λ _ s', holds this s' l c ∧ holds other s' (moved_from <$> l) c ∧
             cpair_first (get_obj this s') = a)
    (λ _ s', holds this s' [] 0 ∧ holds other s' l c).
Proof.
  intros Hneq H Hae Ha Hmc. unfold darray_move_alloc, darray_alloc, _alloc.
  set (s0 := set_obj this (mk_darray a null_data) s).
  assert (Hobj0 : get_obj other s0 = get_obj other s).
  { subst s0. by rewrite get_obj_set_obj_ne. }
  assert (Hd0 : get_obj this s0 = mk_darray a null_data).
  { subst s0. by state_simpl. }
  assert (H0 : holds other s0 l c).
  { eapply holds_transport; [exact H|done|]. intros b _. subst s0.
    split; [by state_simpl|]. intros o _. by rewrite cell_at_set_obj. }
  apply wp_bind. eapply (wp_ok _ _ _ tt s0); [done|].
  apply wp_destroy_null.
  apply wp_bind. eapply (wp_ok _ _ _ a s0); [by cbv beta; rewrite ?Hd0|].
  apply wp_bind.
  eapply (wp_ok _ _ _ (cpair_first (get_obj other s)) s0);
    [by cbv beta; rewrite ?Hobj0|].
  rewrite Hae. replace (a =? cpair_first (get_obj other s)) with false
    by (symmetry; by apply Nat.eqb_neq).
  cbn [negb andb].
  wp_pure. rewrite Hobj0.
  wp_ok_step (capacity_run _ _ _ _ H0).
  pose proof (holds_bounds _ _ _ _ H) as [Hlc Hc].
  pose proof H0 as H0'.
  apply holds_data in H0' as [(-> & -> & Hd)|(b & Hd & _)].
  - unfold data_of in Hd. rewrite Hobj0 in Hd. rewrite Hd.
    cbn [first last end_ null_data].
    apply wp_bind. eapply (wp_ok _ _ _ [] s0); [done|].
    unfold _unallocated_assign, _ctg_duplicate. wp_pure.
    eapply wp_mono; [apply allocate_cells|..]; cbv beta; last first.
    { intros e s' [[_ ->]|(_ & Hbig & ->)]; [|lia].
      split; [by unfold data_of; rewrite get_obj_tick, Hd0|].
      split; apply holds_tick; [|done]. left. unfold data_of. by rewrite Hd0. }
    intros _ s1 (_ & -> & HX1 & HY1 & Hh1).
    assert (Hobj1 : ∀ w : var, get_obj w s1 = get_obj w s0) by (by intros []).
    destruct (allocated_new _ _ _ Hh1) as [Hlen1n Hc1n].
    apply wp_bind, wp_try_cleanup. eapply wp_ok; [done|]. cbv beta.
    wp_pure. unfold set_first, set_last, set_end. wp_pure. state_simpl.
    cbn [first last end_ cpair_second cpair_first ptr_add].
    split; [|split].
    + eapply (holds_from_cells _ _ _ _ (length (heap s0))); try done.
      * by state_simpl.
      * by state_simpl.
      * intros o Ho. lia.
    + left. unfold data_of. rewrite !get_obj_set_obj_ne by done.
      by rewrite Hobj1, Hobj0, Hd.
    + by rewrite Hobj1, Hd0.
  - assert (Hf : first (data_of other s0) = Ptr b 0) by (by rewrite Hd).
    destruct (holds_cells _ _ _ _ _ H0 Hf) as (Hd' & _ & _ & Hlen & Hcells).
    pose proof (holds_block_lt _ _ _ _ _ H0 Hf) as Hlt.
    rewrite Hobj0 in Hd'. rewrite Hd'. cbn [first last end_].
    replace (length l) with (0 + length l) at 1 by lia.
    wp_ok_step (rvalues_run s0 b 0 (length l)).
    unfold _unallocated_assign, _ctg_duplicate. wp_pure.
    eapply wp_mono; [apply allocate_cells|..]; cbv beta; last first.
    { intros e s' [[_ ->]|(_ & Hbig & ->)]; [|lia].
      split; [by unfold data_of; rewrite get_obj_tick, Hd0|].
      split; apply holds_tick; [|done]. left. unfold data_of. by rewrite Hd0. }
    intros _ s1 (_ & -> & HX1 & HY1 & Hh1).
    set (nb := length (heap s0)) in *.
    assert (Hne : b ≠ nb) by lia.
    assert (Hobj1 : ∀ w : var, get_obj w s1 = get_obj w s0) by (by intros []).
    destruct (allocated_new _ _ _ Hh1) as [Hlen1n Hc1n].
    destruct (allocated_old _ _ _ b Hh1 Hlt) as [Hb1 Hc1b].
    fold nb in Hlen1n, Hc1n.
    apply wp_bind, wp_try_cleanup. unfold uninitialised_copy.
    destruct (uninitialised_construct_rvalue_cells s1 b 0 nb 0 (Ptr nb 0) l Hmc)
      as (s2 & Hm2 & Hsh2 & Hc2).
    { intros t v Hv. pose proof (lookup_lt_Some _ _ _ Hv) as Ht.
      rewrite Hc1b, Hcells by lia. by rewrite Nat.add_0_l, Hv. }
    { intros k Hk. apply Hc1n. lia. }
    eapply wp_ok; [exact Hm2|]. cbv beta.
    wp_pure. unfold set_first, set_last, set_end. wp_pure. state_simpl.
    cbn [first last end_ cpair_second cpair_first ptr_add].
    assert (Hbl : same_blocks s1 s2) by blocks_chain.
    destruct Hbl as [Hbl1 Hbl2].
    split; [|split].
    + eapply (holds_from_cells _ _ _ _ nb); try done.
      * by state_simpl.
      * state_simpl. by rewrite Hbl2.
      * intros o Ho. rewrite !cell_at_set_obj, Hc2.
        cell_cases; rewrite ?Hc1n by lia; lookup_solve.
    + eapply (holds_from_cells _ _ _ _ b).
      * rewrite !get_obj_set_obj_ne by done.
        rewrite (same_shape_obj _ _ _ Hsh2), Hobj1, Hobj0, Hd'.
        by rewrite length_fmap.
      * by rewrite length_fmap.
      * done.
      * state_simpl. by rewrite Hbl2, Hb1.
      * intros o Ho. rewrite !cell_at_set_obj, Hc2.
        cell_cases; list_norm; rewrite ?Hc1b, ?Hcells by lia; lookup_solve.
    + by rewrite (same_shape_obj _ _ _ Hsh2), Hobj1, Hd0.
Qed.

(** The same constructor with allocators that compare equal: the block is
    taken over as a whole. *)
Lemma darray_move_alloc_steal this other s a :
  this ≠ other →
  is_always_equal = true ∨ a = cpair_first (get_obj other s) →
  ∃ s', darray_move_alloc (T:=T) this other a s = Ok tt s' ∧
        data_of this s' = data_of other s ∧
        data_of other s' = null_data ∧
        cpair_first (get_obj this s') = a ∧
        heap s' = heap s ∧ faults s' = faults s.
Proof.
  intros Hneq Heq. unfold darray_move_alloc, darray_alloc, _alloc.
  set (s0 := set_obj this (mk_darray a null_data) s).
  assert (Hobj0 : get_obj other s0 = get_obj other s).
  { subst s0. by rewrite get_obj_set_obj_ne. }
  assert (Hd0 : get_obj this s0 = mk_darray a null_data).
  { subst s0. by state_simpl. }
  erewrite bind_ok by (by instantiate (1 := s0)).
  unfold try_cleanup, try_catch.
  erewrite bind_ok by (by instantiate (1 := s0)).
  erewrite bind_ok by (by instantiate (1 := s0)).
  rewrite Hd0, Hobj0. cbn [cpair_first].
  assert (negb is_always_equal && negb (a =? cpair_first (get_obj other s))
          = false) as ->.
  { destruct Heq as [->| <-]; [done|].
    rewrite Nat.eqb_refl. by destruct is_always_equal. }
  rewrite (steal_run _ _ _ Hneq).
  eexists. split; [reflexivity|]. unfold data_of. state_simpl.
  rewrite get_obj_set_obj_ne by done. state_simpl.
  rewrite Hd0, Hobj0. subst s0. by destruct this, other.
Qed.

(** [unchecked_front] and [unchecked_back]: the first and the last value
    with the state as it was; on an empty container the verification
    fails. *)
Lemma unchecked_front_back_run this s (l : list T) c :
  holds this s l c →
  unchecked_front this s = match l with
                           | [] => Undefined
                           | v :: _ => Ok v s
                           end ∧
  unchecked_back this s = match reverse l with
                          | [] => Undefined
                          | v :: _ => Ok v s
                          end.
Proof.
  intros H. apply holds_data in H as [(-> & -> & Hd)|(b & Hd & Hb & Hlc & Hc)];
    unfold data_of in Hd;
    unfold unchecked_front, unchecked_back, empty, _data,
      mbind, M_bind; simpl; rewrite ?Hd; simpl.
  - split; reflexivity.
  - destruct l as [|v l]; simpl.
    { rewrite bool_decide_eq_true_2 by done. split; reflexivity. }
    repeat (rewrite bool_decide_eq_false_2 by done; simpl; rewrite ?Hd; simpl).
    split.
    + by erewrite read_live.
    + destruct (reverse (v :: l)) as [|w l'] eqn:Hrev.
      { apply (f_equal length) in Hrev. rewrite length_reverse in Hrev. done. }
      assert (Hw : (v :: l) !! length l = Some w).
      { pose proof (head_reverse (v :: l)) as Hh. rewrite Hrev in Hh.
        rewrite last_lookup in Hh. done. }
      replace (length l - 0) with (length l) by lia.
      erewrite read_live; [done|exact Hb|].
      rewrite lookup_app_l by (rewrite length_fmap; simpl; lia).
      by rewrite list_lookup_fmap, Hw.
Qed.

(** * Further properties of the members

    Each statement is about a container that holds a list of values
    ([holds]), and covers every fault schedule: where a constructor of an
    element or the allocator may throw, both outcomes are described, and
    the run is shown never to be undefined. *)

(** X1. [push_back(v)] on a container holding [l] either returns with the
    container holding [l ++ [v]], or throws with the container holding [l]
    with its capacity as before (strong guarantee), for every element type.
    With spare capacity the value is built in place: capacity, block and
    number of blocks are as before. *)
Theorem push_back_appends this s (l : list T) c v :
  holds this s l c →
  match push_back this (Val v) s with
  | Ok _ s' =>
      ∃ c', holds this s' (l ++ [v]) c' ∧
            (length l < c →
             c' = c ∧
             first (data_of this s') = first (data_of this s) ∧
             length (heap s') = length (heap s))
  | Throw _ s' => holds this s' l c
  | Undefined => False
  end.
Proof.
  intros H. pose proof (emplace_back_total this s l c v H) as Hw.
  unfold wp in Hw. unfold push_back, mbind, M_bind.
  by destruct (emplace_back this (Val v) s).
Qed.


(** X3. [insert(begin() + i, first, last)] of a multi-pass range of values
    [vs] with [i ≤ size()], for an element type whose moves do not throw:
    the container then holds [vs] between the first [i] values and the
    rest, in place when the capacity sufficed; or the call throws and the
    container holds what it held. *)
Theorem insert_forward_inserts_range this s (l : list T) c i (vs : list T) :
  is_nothrow_move_constructible = true →
  is_nothrow_move_assignable = true →
  holds this s l c → i ≤ length l →
  (Z.of_nat (length vs) < 2 ^ 63)%Z →
  match insert_forward this (ptr_add (first (data_of this s)) i)
          (Val <$> vs) s with
  | Ok _ s' =>
      ∃ c', holds this s' (take i l ++ vs ++ drop i l) c' ∧
            (length l + length vs ≤ c →
             c' = c ∧
             first (data_of this s') = first (data_of this s) ∧
             length (heap s') = length (heap s))
  | Throw _ s' => holds this s' l c
  | Undefined => False
  end.
Proof.
  intros Hmc Hma H Hi Hk.
  exact (insert_forward_total this s l c i vs Hmc Hma H Hi Hk).
Qed.

(** X4. [erase(begin() + i, end())] with [i ≤ size()] returns with the
    container holding the first [i] values, in the same block with the same
    capacity. *)
Theorem erase_to_end_truncates this s (l : list T) c i :
  holds this s l c → i ≤ length l →
  ∃ s', erase this (ptr_add (first (data_of this s)) i)
          (last (data_of this s)) s = Ok tt s' ∧
        holds this s' (take i l) c ∧
        first (data_of this s') = first (data_of this s) ∧
        length (heap s') = length (heap s).
Proof. intros H Hi. exact (erase_tail_run this s l c i H Hi). Qed.

(** X5. [reserve(n)]: with [n ≤ capacity()] nothing happens. Otherwise,
    for an element type whose move constructor does not throw, the
    container holds the same values with capacity exactly [n]; or the
    allocation throws ([bad_array_new_length] only for an [n] above the
    allocator's [max_size]) and the container is as before. *)
Theorem reserve_exact this s (l : list T) c n :
  holds this s l c →
  (c < n → is_nothrow_move_constructible = true) →
  match reserve this n s with
  | Ok _ s' => holds this s' l (c `max` n) ∧ (n ≤ c → s' = s)
  | Throw e s' =>
      c < n ∧ holds this s' l c ∧
      (e = bad_alloc ∨ e = bad_array_new_length ∧ alloc_max_size < n)
  | Undefined => False
  end.
Proof.
  intros H Hmc. destruct (decide (n ≤ c)) as [Hn|Hn].
  - rewrite (reserve_noop_run this s l c n H Hn).
    by rewrite Nat.max_l by done.
  - assert (Hlt : c < n) by lia.
    pose proof (reserve_grow_run this s l c n (Hmc Hlt) H Hlt) as Hw.
    unfold wp in Hw. destruct (reserve this n s) as [u s'|e s'|]; [| |done].
    + rewrite Nat.max_r by lia. split; [done|lia].
    + by split.
Qed.

(** X6. The unchecked accessors leave the state as it was: [operator[]]
    returns the value at the index, [unchecked_front] the first and
    [unchecked_back] the last value. An index that is not below the size,
    and an empty container, fail the verification of the accessor. *)
Theorem unchecked_access this s (l : list T) c i :
  holds this s l c →
  index this i s = match l !! i with
                   | Some v => Ok v s
                   | None => Undefined
                   end ∧
  unchecked_front this s = match l with
                           | [] => Undefined
                           | v :: _ => Ok v s
                           end ∧
  unchecked_back this s = match reverse l with
                          | [] => Undefined
                          | v :: _ => Ok v s
                          end.
Proof.
  intros H. split; [exact (index_run this s l c i H)|].
  exact (unchecked_front_back_run this s l c H).
Qed.

(** X7. The destructor returns normally; the block of the container is
    released, every other block of the heap is as before, and so are both
    objects and the fault schedule. *)
Theorem destructor_releases_block this s (l : list T) c :
  holds this s l c →
  ∃ h', darray_destroy this s = Ok tt (set_heap h' s) ∧
        length h' = length (heap s) ∧
        (∀ b, first (data_of this s) = Ptr b 0 → h' !! b = Some None) ∧
        (∀ b, first (data_of this s) ≠ Ptr b 0 → h' !! b = heap s !! b).
Proof. intros H. exact (darray_destroy_run this s l c H). Qed.

(** X8. Copy construction, with the allocator [a] or with the one of the
    source: the new container holds the values of the source in a block of
    its own, with the capacity of the source (not its size) and the
    allocator [a], and the source is as before; or the call throws, the new
    container owns nothing and the source is as before. *)
Theorem copy_construct_duplicates this other s (l : list T) c a :
  this ≠ other → holds other s l c →
  match darray_copy_alloc this other a s with
  | Ok _ s' =>
      holds this s' l c ∧ holds other s' l c ∧
      first (data_of this s') = Ptr (length (heap s)) 0 ∧
      cpair_first (get_obj this s') = a
  | Throw _ s' => holds this s' [] 0 ∧ holds other s' l c
  | Undefined => False
  end ∧
  darray_copy this other s
  = darray_copy_alloc this other (cpair_first (get_obj other s)) s.
Proof.
  intros Hne H. split; [|reflexivity].
  exact (darray_copy_alloc_run this other s l c a Hne H).
Qed.

(** X9. [darray(darray&&, const Alloc&)] with an allocator that differs
    from the one of the source (and allocators that are not always equal),
    for an element type whose move constructor does not throw: the elements
    are moved one by one into a new block of the capacity of the source,
    and the source keeps its block, its size and its capacity, now holding
    the moved-from objects. If the allocation throws, nothing has moved. *)
Theorem move_construct_other_allocator this other s (l : list T) c a :
  this ≠ other → holds other s l c →
  is_always_equal = false → a ≠ cpair_first (get_obj other s) →
  is_nothrow_move_constructible = true →
  match darray_move_alloc this other a s with
  | Ok _ s' =>
      holds this s' l c ∧ holds other s' (moved_from <$> l) c ∧
      cpair_first (get_obj this s') = a
  | Throw _ s' => holds this s' [] 0 ∧ holds other s' l c
  | Undefined => False
  end.
Proof.
  intros Hne H Hae Ha Hmc.
  exact (darray_move_alloc_elementwise this other s l c a Hne H Hae Ha Hmc).
Qed.

(** X10. [darray(darray&&, const Alloc&)] with allocators that are always
    equal, or with the allocator of the source: the new container takes
    over the three pointers of the source, whose pointers become null; the
    heap and the fault schedule are as before. *)
Theorem move_construct_same_allocator this other s a :
  this ≠ other →
  is_always_equal = true ∨ a = cpair_first (get_obj other s) →
  ∃ s', darray_move_alloc (T:=T) this other a s = Ok tt s' ∧
        data_of this s' = data_of other s ∧
        data_of other s' = null_data ∧
        cpair_first (get_obj this s') = a ∧
        heap s' = heap s ∧ faults s' = faults s.
Proof. intros Hne Ha. exact (darray_move_alloc_steal this other s a Hne Ha). Qed.

(** X11. Construction from a multi-pass range of values [vs]: the container
    holds [vs] with capacity exactly the length of the range and the
    allocator given; or the call throws and the container owns nothing. *)
Theorem construct_from_forward_range this s (vs : list T) a :
  match darray_from_forward this (Val <$> vs) a s with
  | Ok _ s' =>
      holds this s' vs (length vs) ∧ cpair_first (get_obj this s') = a
  | Throw _ s' => holds this s' [] 0
  | Undefined => False
  end.
Proof. exact (darray_from_forward_run this s vs a). Qed.

(** X12. Construction from a single-pass range of values [vs]: the
    container holds [vs]; or the append of some value throws, and the
    destructor then runs on the container as that append left it, holding
    a proper prefix of [vs]: the block the container owned is released, so
    that none of the elements built stays constructed. *)
Theorem construct_from_input_range this s (vs : list T) a :
  match darray_from_input this (Val <$> vs) a s with
  | Ok _ s' => ∃ c', holds this s' vs c'
  | Throw _ s' =>
      ∃ s1 c' k,
        k < length vs ∧ holds this s1 (take k vs) c' ∧
        darray_destroy this s1 = Ok tt s' ∧
        ∀ b, first (data_of this s') = Ptr b 0 → heap s' !! b = Some None
  | Undefined => False
  end.
Proof. exact (darray_from_input_run this s vs a). Qed.

(** X13. [assign(first, last)] with a multi-pass range of values [vs]: the
    container holds [vs], with the capacity it had when the range fits and
    with capacity exactly the length of the range otherwise; or the call
    throws, with the size and the capacity it had. Then nothing has changed
    when the range did not fit; otherwise the first [m] elements, for some
    [m], are the first [m] values of the range, the elements from position
    [m + 1] on are as they were, and the element at position [m] is still
    an object, with the value the assignment that threw left it. *)
Theorem assign_forward_replaces this s (l : list T) c (vs : list T) :
  holds this s l c →
  match assign_forward this (Val <$> vs) s with
  | Ok _ s' =>
      holds this s' vs (if decide (c < length vs) then length vs else c)
  | Throw _ s' =>
      ∃ m l', m ≤ length l ∧ m ≤ length vs ∧
              length l' = length l - m ∧
              drop 1 l' = drop (S m) l ∧
              (c < length vs → m = 0 ∧ l' = l) ∧
              holds this s' (take m vs ++ l') c
  | Undefined => False
  end.
Proof. intros H. exact (assign_forward_run this s l c vs H). Qed.

(** X14. [assign(first, last)] with a single-pass range of values [vs]:
    the container holds [vs]; or the call throws, and then the first [m]
    elements, for some [m] below the length of the range, are the first [m]
    values of the range, and what follows them is as long as what followed
    the first [m] elements before and equal to it from its second element
    on: the element whose assignment threw is still an object, with the
    value that assignment left it. *)
Theorem assign_input_replaces this s (l : list T) c (vs : list T) :
  holds this s l c →
  match assign_input this (Val <$> vs) s with
  | Ok _ s' => ∃ c', holds this s' vs c'
  | Throw _ s' =>
      ∃ m l' c', m < length vs ∧
                 length l' = length l - m ∧
                 drop 1 l' = drop (S m) l ∧
                 holds this s' (take m vs ++ l') c'
  | Undefined => False
  end.
Proof. intros H. exact (assign_input_run this s l c vs H). Qed.

(** X15. [u_emplace_back(v)] (and [upush_back], which forwards to it)
    requires spare capacity: on a full container, and on one that owns
    nothing, its verification fails. With spare capacity the value is built
    behind the last element, in the same block with the same capacity; or
    its constructor throws and the container holds what it held. *)
Theorem u_emplace_back_needs_capacity this s (l : list T) c v :
  holds this s l c →
  upush_back this (Val v) s = u_emplace_back this (Val v) s ∧
  match u_emplace_back this (Val v) s with
  | Ok _ s' =>
      length l < c ∧ holds this s' (l ++ [v]) c ∧
      first (data_of this s') = first (data_of this s)
  | Throw _ s' => length l < c ∧ holds this s' l c
  | Undefined => length l = c
  end.
Proof.
  intros H. split; [reflexivity|]. exact (u_emplace_back_run this s l c v H).
Qed.

(** X16. [push_back(v)] followed by [back()] returns [v], with the
    container holding the old values and [v]; or [push_back] throws and the
    container holds what it held. *)
Theorem push_back_then_back this s (l : list T) c v :
  holds this s l c →
  match (push_back this (Val v);; back this) s with
  | Ok w s' => w = v ∧ ∃ c', holds this s' (l ++ [v]) c'
  | Throw _ s' => holds this s' l c
  | Undefined => False
  end.
Proof. intros H. exact (push_back_back_run this s l c v H). Qed.

(** X17. [push_back(v)] followed by [erase(end() - 1, end())] leaves the
    container holding what it held, with a capacity that is not smaller;
    or [push_back] throws and the container is as it was. *)
Theorem push_back_then_erase_last this s (l : list T) c v :
  holds this s l c →
  match (push_back this (Val v);;
         d ← _data this;
         p ← ptr_sub (last d) 1;
         erase this p (last d)) s with
  | Ok _ s' => ∃ c', c ≤ c' ∧ holds this s' l c'
  | Throw _ s' => holds this s' l c
  | Undefined => False
  end.
Proof. intros H. exact (push_back_erase_run this s l c v H). Qed.

(** X22. The observers read the container without changing the state:
    [size()] is the number of values held, [capacity()] the number of cells
    of the block, [empty()] tells whether no value is held, and [end()] is
    [size()] positions behind [begin()]. *)
Theorem observers_read this s (l : list T) c :
  holds this s l c →
  size this s = Ok (length l) s ∧
  capacity this s = Ok c s ∧
  empty this s = Ok (bool_decide (l = [])) s ∧
  ∃ p q, begin this s = Ok p s ∧ end' this s = Ok q s ∧
         ptr_diff (T:=T) q p s = Ok (length l) s.
Proof.
  intros H. split; [exact (size_run this s l c H)|].
  split; [exact (capacity_run this s l c H)|].
  pose proof (size_run this s l c H) as Hs.
  apply holds_data in H as [(-> & -> & Hd)|(b & Hd & Hb & Hlc & Hc)];
    unfold data_of in Hd;
    unfold empty, begin, end', size, _data, mbind, M_bind in *;
    rewrite Hd in *; cbn [first last end_ null_data] in *.
  - split; [done|]. by eexists _, _.
  - split; [|by eexists _, _]. simpl. f_equal. apply bool_decide_ext.
    split; [intros [=]; by destruct l|by intros ->].
Qed.

End proofs.

(** * [seq_iter]: proofs *)
Section seq_iter_proofs.
Import iterators.

Lemma mod_window (m x : Z) :
  (0 < m)%Z → (- m ≤ x < 2 * m)%Z →
  (x mod m = if x <? 0 then x + m else if x <? m then x else x - m)%Z.
Proof.
  intros Hm Hx. destruct (Z.ltb_spec x 0); [|destruct (Z.ltb_spec x m)].
  - symmetry. apply (Z.mod_unique_pos _ _ (-1)); lia.
  - by apply Z.mod_small.
  - symmetry. apply (Z.mod_unique_pos _ _ 1); lia.
Qed.

Lemma pow2_half (w : Z) : (0 < w)%Z → (2 ^ w = 2 * 2 ^ (w - 1))%Z.
Proof.
  intros Hw. rewrite <- Z.pow_succ_r by lia. f_equal. lia.
Qed.

Lemma pow2_half_pos (w : Z) : (0 < w)%Z → (0 < 2 ^ (w - 1))%Z.
Proof. intros Hw. apply Z.pow_pos_nonneg; lia. Qed.

(** Unfolds the conversions of a goal about counters within their ranges
    and decides it by cases on where the sums fall. *)
Ltac seq_iter_step :=
  first
    [ match goal with
      | |- context [(?x mod ?m)%Z] => rewrite (mod_window m x) by lia
      end
    | match goal with
      | |- context [(?a <? ?b)%Z] =>
          lazymatch a with
          | context [Z.modulo _ _] => fail
          | _ => destruct (Z.ltb_spec a b)
          end
      end ].

Ltac seq_iter_arith w Hw :=
  pose proof (pow2_half w Hw); pose proof (pow2_half_pos w Hw);
  unfold difference, plus, plus_left, minus, add_assign, sub_assign,
    pre_increment, pre_decrement, subscript, deref, compare, equal,
    to_signed, to_unsigned, in_range in *;
  cbn [_curr] in *;
  repeat seq_iter_step;
  try lia.

(** X18. Advancing an iterator by [n] and taking the distance from where it
    was gives [n] back, whatever wrap-around the advance met. *)
Theorem seq_iter_advance_distance (w : Z) (it : seq_iter) (n : Z) :
  (0 < w)%Z → in_range w it → (- 2 ^ (w - 1) ≤ n < 2 ^ (w - 1))%Z →
  in_range w (plus w it n) ∧ difference w (plus w it n) it = n.
Proof.
  intros Hw Hit Hn. destruct it as [c]. split; seq_iter_arith w Hw.
Qed.

(** X19. Advancing an iterator by its distance to another one reaches the
    other one, whatever the two counters. *)
Theorem seq_iter_distance_advance (w : Z) (a b : seq_iter) :
  (0 < w)%Z → in_range w a → in_range w b →
  (- 2 ^ (w - 1) ≤ difference w b a < 2 ^ (w - 1))%Z ∧
  plus w a (difference w b a) = b.
Proof.
  intros Hw Ha Hb. destruct a as [x], b as [y].
  split; [seq_iter_arith w Hw|].
  unfold plus, add_assign. f_equal. seq_iter_arith w Hw.
Qed.

(** X20. Increment and decrement undo each other, also across the ends of
    the range of [IntType]: the successor of the largest value is [0]. The
    postfix forms return the iterator as it was. *)
Theorem seq_iter_increment_decrement (w : Z) (it : seq_iter) :
  (0 < w)%Z → in_range w it →
  pre_decrement w (pre_increment w it) = it ∧
  pre_increment w (pre_decrement w it) = it ∧
  post_increment w it = (it, pre_increment w it) ∧
  post_decrement w it = (it, pre_decrement w it) ∧
  (deref it = 2 ^ w - 1 → deref (pre_increment w it) = 0)%Z ∧
  (deref it = 0 → deref (pre_decrement w it) = 2 ^ w - 1)%Z.
Proof.
  intros Hw Hit. destruct it as [c].
  repeat split; try (intros Hc); try reflexivity;
    unfold pre_decrement, pre_increment; try f_equal; seq_iter_arith w Hw.
Qed.

(** X21. The order of two iterators and the sign of their distance agree
    while the counters are less than half the range of [IntType] apart, and
    disagree beyond: the larger iterator is then at a negative distance. *)
Theorem seq_iter_order_distance (w : Z) (a b : seq_iter) :
  (0 < w)%Z → in_range w a → in_range w b →
  ((deref b - deref a < 2 ^ (w - 1) →
    deref a - deref b < 2 ^ (w - 1) →
    (compare a b = Lt ↔ 0 < difference w b a))%Z) ∧
  ((2 ^ (w - 1) ≤ deref b - deref a →
    compare a b = Lt ∧ difference w b a < 0)%Z).
Proof.
  intros Hw Ha Hb. destruct a as [x], b as [y].
  unfold compare, deref. cbn [_curr]. rewrite Z.compare_lt_iff. split.
  - intros H1 H2. seq_iter_arith w Hw.
  - intros H1. split; seq_iter_arith w Hw.
Qed.

End seq_iter_proofs.

(** * The operations on concrete containers *)

(** C1. [erase(begin() + 1, begin() + 3)] on the container [[1,2,3,4,5]]
    of capacity 5: the code destroys the two elements of the range and sets
    [last] to the start of the range, so that the container holds [[1]] and
    has size 1, where the specification has [[1,4,5]] and size 3; the
    elements 4 and 5 stay constructed behind [last]. *)
Theorem erase_truncates_at_first :
  erase X (Ptr 0 1) (Ptr 0 3) (state_with [1; 2; 3; 4; 5] 0 [])
  = Ok tt
      (mk_state [Some [Some 1; None; None; Some 4; Some 5]]
         (mk_darray 0 (mk_data (Ptr 0 0) (Ptr 0 1) (Ptr 0 5)))
         (mk_darray 0 null_data) []) ∧
  contents X
    (mk_state [Some [Some 1; None; None; Some 4; Some 5]]
       (mk_darray 0 (mk_data (Ptr 0 0) (Ptr 0 1) (Ptr 0 5)))
       (mk_darray 0 null_data) [])
  = Some [1] ∧
  capacity X
    (mk_state [Some [Some 1; None; None; Some 4; Some 5]]
       (mk_darray 0 (mk_data (Ptr 0 0) (Ptr 0 1) (Ptr 0 5)))
       (mk_darray 0 null_data) [])
  = Ok 5
      (mk_state [Some [Some 1; None; None; Some 4; Some 5]]
         (mk_darray 0 (mk_data (Ptr 0 0) (Ptr 0 1) (Ptr 0 5)))
         (mk_darray 0 null_data) []).
Proof. repeat split; reflexivity. Qed.

(** C2. Copy construction from the container [[1]] of capacity 2 yields a
    container holding [[1]] in a block of its own; copy assignment from the
    same container, with [std::allocator], assigns the range
    [[first, end)] instead of [[first, last)] and so reads the raw cell
    behind the last element. *)
Theorem copy_assign_reads_past_last :
  contents Y
    (match darray_copy (ET:=trivial_element) (AT:=std_allocator) Y X
             (state_with [1] 1 []) with
     | Ok _ s' => s'
     | _ => state_with [] 0 []
     end) = Some [1] ∧
  copy_assign (ET:=trivial_element) (AT:=std_allocator) Y X
    (state_with [1] 1 [])
  = Undefined.
Proof. split; reflexivity. Qed.

(** C3. [emplace(begin() + 1, 9)] on the full container [[1,2]] of an
    element type that is migrated by copy. When the copy of the prefix
    throws, the new block is unwound and freed and the container is as
    before. When the copy of the suffix throws, the handler destroys
    [[new_first, new_last)], which by then includes the directly constructed
    element, and then destroys that element a second time. *)
Theorem emplace_unwind_destroys_twice :
  emplace (ET:=throwing_element) (AT:=std_allocator) X (Ptr 0 1) (Val 9)
    (state_with [1; 2] 0 [false; false; true])
  = Throw element_exception
      (mk_state [Some [Some 1; Some 2]; None]
         (mk_darray 0 (mk_data (Ptr 0 0) (Ptr 0 2) (Ptr 0 2)))
         (mk_darray 0 null_data) []) ∧
  emplace (ET:=throwing_element) (AT:=std_allocator) X (Ptr 0 1) (Val 9)
    (state_with [1; 2] 0 [false; false; false; true])
  = Undefined.
Proof. split; reflexivity. Qed.

(** C7. [reserve(3)] on the container [[1]] of capacity 2. For an element
    type with a non-throwing move constructor the container then holds
    [[1]] in a block of capacity 3. For an element type migrated by copy,
    the code copies the range [[first, end)] instead of [[first, last)] and
    so reads the raw cell behind the last element. *)
Theorem reserve_copy_reads_past_last :
  reserve (ET:=trivial_element) (AT:=std_allocator) X 3 (state_with [1] 1 [])
  = Ok tt
      (mk_state [None; Some [Some 1; None; None]]
         (mk_darray 0 (mk_data (Ptr 1 0) (Ptr 1 1) (Ptr 1 3)))
         (mk_darray 0 null_data) []) ∧
  reserve (ET:=throwing_element) (AT:=std_allocator) X 3 (state_with [1] 1 [])
  = Undefined.
Proof. split; reflexivity. Qed.

(** C9. Move assignment of a container to itself, [a = std::move(a)] on
    the container [[1,2,3]] of capacity 4 with [std::allocator]: the
    operator releases the block and then takes the three pointers from its
    own object, where each [std::exchange] writes null and the assignment
    writes the old pointer back. The container is left with its three
    pointers into the released block, where the specification has the
    source empty, its pointers null, and safely destructible: its size is
    still 3 and its destructor leaves the defined fragment. Between two
    distinct objects the same assignment transfers the pointers and nulls
    those of the source. *)
Theorem self_move_assign_keeps_freed_block :
  move_assign (ET:=trivial_element) (AT:=std_allocator) X X
    (state_with [1; 2; 3] 1 [])
  = Ok tt
      (mk_state [None]
         (mk_darray 0 (mk_data (Ptr 0 0) (Ptr 0 3) (Ptr 0 4)))
         (mk_darray 0 null_data) []) ∧
  size X
    (mk_state (T:=nat) [None]
       (mk_darray 0 (mk_data (Ptr 0 0) (Ptr 0 3) (Ptr 0 4)))
       (mk_darray 0 null_data) [])
  = Ok 3
      (mk_state [None]
         (mk_darray 0 (mk_data (Ptr 0 0) (Ptr 0 3) (Ptr 0 4)))
         (mk_darray 0 null_data) []) ∧
  darray_destroy X
    (mk_state (T:=nat) [None]
       (mk_darray 0 (mk_data (Ptr 0 0) (Ptr 0 3) (Ptr 0 4)))
       (mk_darray 0 null_data) [])
  = Undefined ∧
  move_assign (ET:=trivial_element) (AT:=std_allocator) Y X
    (state_with [1; 2; 3] 1 [])
  = Ok tt
      (mk_state [Some [Some 1; Some 2; Some 3; None]]
         (mk_darray 0 null_data)
         (mk_darray 0 (mk_data (Ptr 0 0) (Ptr 0 3) (Ptr 0 4))) []).
Proof. repeat split; reflexivity. Qed.

(** ** The theorems at concrete inputs *)

Lemma state_with_layout (l : list nat) (spare : nat) (f : list bool) :
  length l + spare ≤ 1000 →
  ∀ v, layout_invariant (AT:=std_allocator) (data_of v (state_with l spare f)).
Proof.
  intros H [|]; (split; [|split; [|split]]); simpl.
  - apply andb_true_intro. split; [reflexivity | apply Nat.leb_le; lia].
  - apply andb_true_intro. split; [reflexivity | apply Nat.leb_le; lia].
  - discriminate.
  - intros b o b' o' [= <- <-] [= <- <-]. lia.
  - reflexivity.
  - reflexivity.
  - split; reflexivity.
  - discriminate.
Defined.

Lemma state_with_holds (l : list nat) (spare : nat) (f : list bool) :
  length l + spare ≤ 1000 →
  holds (AT:=std_allocator) X (state_with l spare f) l (length l + spare).
Proof.
  intros H. right. exists 0. split; [reflexivity|]. split; [|split].
  - replace (length l + spare - length l) with spare by lia. reflexivity.
  - lia.
  - exact H.
Defined.

Lemma public_operations_preserve_layout_witness :
  (∀ v, layout_invariant (AT:=std_allocator)
          (data_of v (state_with [1; 2; 3] 1 []))) ∧
  op_valid X (op_emplace (Ptr 0 1) (Val 9))
    (state_with [1; 2; 3] 1 []) ∧
  match exec (ET:=trivial_element) (AT:=std_allocator) X Y
          (op_emplace (Ptr 0 1) (Val 9)) (state_with [1; 2; 3] 1 []) with
  | Ok _ s' | Throw _ s' =>
      ∀ v, layout_invariant (AT:=std_allocator) (data_of v s')
  | Undefined => True
  end.
Proof.
  assert (H1 : ∀ v, layout_invariant (AT:=std_allocator)
                      (data_of v (state_with [1; 2; 3] 1 []))).
  { apply state_with_layout. simpl. lia. }
  assert (H2 : op_valid X (op_emplace (Ptr 0 1) (Val 9))
                 (state_with [1; 2; 3] 1 [])).
  { split; reflexivity. }
  split; [exact H1|]. split; [exact H2|].
  exact (public_operations_preserve_layout (ET:=trivial_element)
           (AT:=std_allocator) X Y (op_emplace (Ptr 0 1) (Val 9))
           (state_with [1; 2; 3] 1 []) H1 H2).
Defined.

Lemma calculate_growth_spec_witness :
  size X (state_with [1; 2; 3; 4; 5] 0 [])
    = Ok 5 (state_with [1; 2; 3; 4; 5] 0 []) ∧
  5 ≤ alloc_max_size (AllocTraits:=std_allocator) ∧
  _calculate_growth (AT:=std_allocator) X 6 (state_with [1; 2; 3; 4; 5] 0 [])
    = Ok 7 (state_with [1; 2; 3; 4; 5] 0 []).
Proof.
  assert (H : 5 ≤ alloc_max_size (AllocTraits:=std_allocator))
    by (simpl; lia).
  split; [reflexivity|]. split; [exact H|].
  exact (calculate_growth_spec (AT:=std_allocator) X
           (state_with [1; 2; 3; 4; 5] 0 []) 5 6 eq_refl H).
Defined.

Lemma front_back_spec_witness :
  holds (AT:=std_allocator) X (state_with [1; 2; 3] 0 []) [1; 2; 3] 3 ∧
  front X (state_with [1; 2; 3] 0 []) = Ok 1 (state_with [1; 2; 3] 0 []) ∧
  back X (state_with [1; 2; 3] 0 []) = Ok 3 (state_with [1; 2; 3] 0 []).
Proof.
  assert (H : holds (AT:=std_allocator) X (state_with [1; 2; 3] 0 [])
                [1; 2; 3] 3).
  { apply (state_with_holds [1; 2; 3] 0 []). simpl. lia. }
  split; [exact H|].
  exact (front_back_spec (AT:=std_allocator) X (state_with [1; 2; 3] 0 [])
           [1; 2; 3] 3 H).
Defined.

Lemma insert_input_spec_witness :
  holds (AT:=std_allocator) X (state_with [1; 2; 3] 0 []) [1; 2; 3] 3 ∧
  1 ≤ length [1; 2; 3] ∧
  match insert_input (ET:=trivial_element) (AT:=std_allocator) X
          (ptr_add (first (data_of X (state_with [1; 2; 3] 0 []))) 1)
          (Val <$> [7; 8]) (state_with [1; 2; 3] 0 []) with
  | Ok _ s' =>
      ∃ c', holds (AT:=std_allocator) X s'
              (take 1 [1; 2; 3] ++ [7; 8] ++ drop 1 [1; 2; 3]) c'
  | Throw _ s' =>
      (∃ c' k, k < length [7; 8] ∧
         holds (AT:=std_allocator) X s' ([1; 2; 3] ++ take k [7; 8]) c') ∨
      (is_nothrow_move_constructible (ElementTraits:=trivial_element)
         && is_nothrow_move_assignable (ElementTraits:=trivial_element)
       = false ∧
       1 < length [1; 2; 3] ∧
       ∃ c' l', length l' = length [1; 2; 3] - 1 + length [7; 8] ∧
                holds (AT:=std_allocator) X s' (take 1 [1; 2; 3] ++ l') c')
  | Undefined => False
  end ∧
  (faults (state_with [1; 2; 3] 0 []) = [] →
   length [1; 2; 3] + length [7; 8]
     ≤ alloc_max_size (AllocTraits:=std_allocator) →
   ∃ s', insert_input (ET:=trivial_element) (AT:=std_allocator) X
           (ptr_add (first (data_of X (state_with [1; 2; 3] 0 []))) 1)
           (Val <$> [7; 8]) (state_with [1; 2; 3] 0 [])
         = Ok tt s').
Proof.
  assert (H : holds (AT:=std_allocator) X (state_with [1; 2; 3] 0 [])
                [1; 2; 3] 3).
  { apply (state_with_holds [1; 2; 3] 0 []). simpl. lia. }
  assert (H' : 1 ≤ length [1; 2; 3]) by (simpl; lia).
  split; [exact H|]. split; [exact H'|].
  exact (insert_input_spec (ET:=trivial_element) (AT:=std_allocator) X
           (state_with [1; 2; 3] 0 []) [1; 2; 3] 3 1 [7; 8] H H').
Defined.

(** The failure clause of [insert] for single-pass ranges, read of the
    values. [insert] of the single-pass range [[7,8]] at index 1 of the
    container [[1,2,3]] of capacity 5, for an element type whose copies may
    throw: both appends go through, and the rotation of [[2,3,7,8]] begins
    with the exchange of 2 and 7, whose third operation, the assignment of
    the temporary to the second element, throws. The container is left
    holding [[1,7,3,7,8]]: the value 7 twice, and the value 2, an element
    of the container before the call, nowhere; so what it holds is no
    rearrangement of the old elements and of the elements appended. *)
Lemma insert_input_rotation_duplicates :
  insert_input (ET:=throwing_element) (AT:=std_allocator) X (Ptr 0 1)
    (Val <$> [7; 8])
    (state_with [1; 2; 3] 2 [false; false; false; false; true])
  = Throw element_exception (state_with [1; 7; 3; 7; 8] 0 []) ∧
  holds (AT:=std_allocator) X (state_with [1; 7; 3; 7; 8] 0 [])
    [1; 7; 3; 7; 8] 5 ∧
  ∀ k, ¬ [1; 7; 3; 7; 8] ≡ₚ [1; 2; 3] ++ take k [7; 8].
Proof.
  split; [reflexivity|]. split.
  - apply (state_with_holds [1; 7; 3; 7; 8] 0 []). simpl. lia.
  - intros k Hp.
    assert (Hin : 2 ∈ [1; 7; 3; 7; 8]).
    { rewrite Hp. apply elem_of_app. left.
      rewrite !elem_of_cons. auto. }
    rewrite !elem_of_cons, elem_of_nil in Hin.
    destruct Hin as [?|[?|[?|[?|[?|[]]]]]]; lia.
Qed.

Lemma move_transfers_block_witness :
  Y ≠ X ∧
  holds (AT:=std_allocator) Y (state_with [1; 2; 3] 1 []) [] 0 ∧
  propagate_on_container_move_assignment (AllocTraits:=std_allocator) = true ∧
  (∃ s', darray_move Y X (state_with [1; 2; 3] 1 []) = Ok tt s' ∧
         data_of Y s' = mk_data (Ptr 0 0) (Ptr 0 3) (Ptr 0 4) ∧
         data_of X s' = null_data) ∧
  (∃ s', move_assign (ET:=trivial_element) (AT:=std_allocator) Y X
           (state_with [1; 2; 3] 1 [])
           = Ok tt s' ∧
         data_of Y s' = mk_data (Ptr 0 0) (Ptr 0 3) (Ptr 0 4) ∧
         data_of X s' = null_data ∧
         heap s' = [Some [Some 1; Some 2; Some 3; None]]).
Proof.
  assert (Hne : Y ≠ X) by discriminate.
  assert (H : holds (AT:=std_allocator) Y (state_with [1; 2; 3] 1 []) [] 0).
  { left. repeat split. }
  split; [exact Hne|]. split; [exact H|]. split; [reflexivity|].
  destruct (move_transfers_block (ET:=trivial_element) (AT:=std_allocator) Y X
              (state_with [1; 2; 3] 1 []) [] 0 Hne H (or_introl eq_refl))
    as [(s1 & Hs1 & Hd1 & Hn1 & _) (s2 & Hs2 & Hd2 & Hn2 & Hh2 & _)].
  split.
  - exists s1. repeat split; assumption.
  - exists s2. repeat split; try assumption.
    injection Hs2 as <-. reflexivity.
Defined.

Lemma insert_forward_empty_witness :
  valid_position (data_of X (state_with [1; 2; 3] 1 [])) (Ptr 0 1) ∧
  ptr_le (last (data_of X (state_with [1; 2; 3] 1 [])))
         (end_ (data_of X (state_with [1; 2; 3] 1 []))) ∧
  insert_forward (ET:=trivial_element) (AT:=std_allocator) X (Ptr 0 1) []
    (state_with [1; 2; 3] 1 [])
  = Ok tt (state_with [1; 2; 3] 1 []).
Proof.
  assert (H1 : valid_position (data_of X (state_with [1; 2; 3] 1 []))
                 (Ptr 0 1)) by (split; reflexivity).
  assert (H2 : ptr_le (last (data_of X (state_with [1; 2; 3] 1 [])))
                      (end_ (data_of X (state_with [1; 2; 3] 1 []))))
    by reflexivity.
  split; [exact H1|]. split; [exact H2|].
  exact (insert_forward_empty (ET:=trivial_element) (AT:=std_allocator) X
           (state_with [1; 2; 3] 1 []) (Ptr 0 1) H1 H2).
Defined.

(** ** The further properties at concrete inputs *)

Lemma state_with_holds_any (AT : AllocTraits) (l : list nat) (spare : nat)
    (f : list bool) :
  length l + spare ≤ alloc_max_size →
  holds (AT:=AT) X (state_with l spare f) l (length l + spare).
Proof.
  intros H. right. exists 0. split; [reflexivity|]. split; [|split].
  - replace (length l + spare - length l) with spare by lia. reflexivity.
  - lia.
  - exact H.
Defined.

Lemma move_construct_other_allocator_witness :
  Y ≠ X ∧
  holds (AT:=stateful_allocator) X (state_with [1; 2; 3] 1 []) [1; 2; 3] 4 ∧
  is_always_equal (AllocTraits:=stateful_allocator) = false ∧
  5 ≠ cpair_first (get_obj X (state_with [1; 2; 3] 1 [])) ∧
  is_nothrow_move_constructible (ElementTraits:=trivial_element) = true ∧
  match darray_move_alloc (ET:=trivial_element) (AT:=stateful_allocator)
          Y X 5 (state_with [1; 2; 3] 1 []) with
  | Ok _ s' =>
      holds (AT:=stateful_allocator) Y s' [1; 2; 3] 4 ∧
      holds (AT:=stateful_allocator) X s'
        (moved_from (ElementTraits:=trivial_element) <$> [1; 2; 3]) 4 ∧
      cpair_first (get_obj Y s') = 5
  | Throw _ s' =>
      holds (AT:=stateful_allocator) Y s' [] 0 ∧
      holds (AT:=stateful_allocator) X s' [1; 2; 3] 4
  | Undefined => False
  end.
Proof.
  assert (h1 : Y ≠ X)
    by (discriminate).
  assert (h2 : holds (AT:=stateful_allocator) X (state_with [1; 2; 3] 1 []) [1; 2; 3] 4)
    by (apply (state_with_holds_any stateful_allocator [1; 2; 3] 1 []); simpl; lia).
  assert (h3 : is_always_equal (AllocTraits:=stateful_allocator) = false)
    by (reflexivity).
  assert (h4 : 5 ≠ cpair_first (get_obj X (state_with [1; 2; 3] 1 [])))
    by (discriminate).
  assert (h5 : is_nothrow_move_constructible (ElementTraits:=trivial_element) = true)
    by (reflexivity).
  split; [exact h1|].
  split; [exact h2|].
  split; [exact h3|].
  split; [exact h4|].
  split; [exact h5|].
  exact (move_construct_other_allocator (ET:=trivial_element)
           (AT:=stateful_allocator) Y X (state_with [1; 2; 3] 1 []) [1; 2; 3] 4 5 h1 h2 h3 h4 h5).
Defined.

Section examples.
#[local] Existing Instance trivial_element.
#[local] Existing Instance std_allocator.

Lemma push_back_appends_witness :
  holds X (state_with [1; 2; 3] 1 []) [1; 2; 3] 4 ∧
  match push_back X (Val 9) (state_with [1; 2; 3] 1 []) with
  | Ok _ s' =>
      ∃ c', holds X s' ([1; 2; 3] ++ [9]) c' ∧
            (length [1; 2; 3] < 4 →
             c' = 4 ∧
             first (data_of X s') = first (data_of X (state_with [1; 2; 3] 1 [])) ∧
             length (heap s') = length (heap (state_with [1; 2; 3] 1 [])))
  | Throw _ s' => holds X s' [1; 2; 3] 4
  | Undefined => False
  end.
Proof.
  assert (h1 : holds X (state_with [1; 2; 3] 1 []) [1; 2; 3] 4)
    by (apply (state_with_holds [1; 2; 3] 1 []); simpl; lia).
  split; [exact h1|].
  exact (push_back_appends X (state_with [1; 2; 3] 1 []) [1; 2; 3] 4 9 h1).
Defined.


Lemma insert_forward_inserts_range_witness :
  is_nothrow_move_constructible (T:=nat) = true ∧
  is_nothrow_move_assignable (T:=nat) = true ∧
  holds X (state_with [1; 2; 3] 1 []) [1; 2; 3] 4 ∧
  1 ≤ length [1; 2; 3] ∧
  (Z.of_nat (length [7; 8]) < 2 ^ 63)%Z ∧
  match insert_forward X (ptr_add (first (data_of X (state_with [1; 2; 3] 1 []))) 1)
          (Val <$> [7; 8]) (state_with [1; 2; 3] 1 []) with
  | Ok _ s' =>
      ∃ c', holds X s' (take 1 [1; 2; 3] ++ [7; 8] ++ drop 1 [1; 2; 3]) c' ∧
            (length [1; 2; 3] + length [7; 8] ≤ 4 →
             c' = 4 ∧
             first (data_of X s') = first (data_of X (state_with [1; 2; 3] 1 [])) ∧
             length (heap s') = length (heap (state_with [1; 2; 3] 1 [])))
  | Throw _ s' => holds X s' [1; 2; 3] 4
  | Undefined => False
  end.
Proof.
  assert (h1 : is_nothrow_move_constructible (T:=nat) = true)
    by (reflexivity).
  assert (h2 : is_nothrow_move_assignable (T:=nat) = true)
    by (reflexivity).
  assert (h3 : holds X (state_with [1; 2; 3] 1 []) [1; 2; 3] 4)
    by (apply (state_with_holds [1; 2; 3] 1 []); simpl; lia).
  assert (h4 : 1 ≤ length [1; 2; 3])
    by (simpl; lia).
  assert (h5 : (Z.of_nat (length [7; 8]) < 2 ^ 63)%Z)
    by (vm_compute; reflexivity).
  split; [exact h1|].
  split; [exact h2|].
  split; [exact h3|].
  split; [exact h4|].
  split; [exact h5|].
  exact (insert_forward_inserts_range X (state_with [1; 2; 3] 1 []) [1; 2; 3] 4 1 [7; 8] h1 h2 h3 h4 h5).
Defined.

Lemma erase_to_end_truncates_witness :
  holds X (state_with [1; 2; 3] 1 []) [1; 2; 3] 4 ∧
  1 ≤ length [1; 2; 3] ∧
  (∃ s', erase X (ptr_add (first (data_of X (state_with [1; 2; 3] 1 []))) 1)
            (last (data_of X (state_with [1; 2; 3] 1 []))) (state_with [1; 2; 3] 1 [])
          = Ok tt s' ∧
          holds X s' (take 1 [1; 2; 3]) 4 ∧
          first (data_of X s') = first (data_of X (state_with [1; 2; 3] 1 [])) ∧
          length (heap s') = length (heap (state_with [1; 2; 3] 1 []))).
Proof.
  assert (h1 : holds X (state_with [1; 2; 3] 1 []) [1; 2; 3] 4)
    by (apply (state_with_holds [1; 2; 3] 1 []); simpl; lia).
  assert (h2 : 1 ≤ length [1; 2; 3])
    by (simpl; lia).
  split; [exact h1|].
  split; [exact h2|].
  exact (erase_to_end_truncates X (state_with [1; 2; 3] 1 []) [1; 2; 3] 4 1 h1 h2).
Defined.

Lemma reserve_exact_witness :
  holds X (state_with [1; 2; 3] 1 []) [1; 2; 3] 4 ∧
  (4 < 6 → is_nothrow_move_constructible (T:=nat) = true) ∧
  match reserve X 6 (state_with [1; 2; 3] 1 []) with
  | Ok _ s' => holds X s' [1; 2; 3] (4 `max` 6) ∧ (6 ≤ 4 → s' = (state_with [1; 2; 3] 1 []))
  | Throw e s' =>
      4 < 6 ∧ holds X s' [1; 2; 3] 4 ∧
      (e = bad_alloc ∨ e = bad_array_new_length ∧ alloc_max_size < 6)
  | Undefined => False
  end.
Proof.
  assert (h1 : holds X (state_with [1; 2; 3] 1 []) [1; 2; 3] 4)
    by (apply (state_with_holds [1; 2; 3] 1 []); simpl; lia).
  assert (h2 : (4 < 6 → is_nothrow_move_constructible (T:=nat) = true))
    by (intros _; reflexivity).
  split; [exact h1|].
  split; [exact h2|].
  exact (reserve_exact X (state_with [1; 2; 3] 1 []) [1; 2; 3] 4 6 h1 h2).
Defined.

Lemma unchecked_access_witness :
  holds X (state_with [1; 2; 3] 1 []) [1; 2; 3] 4 ∧
  index X 2 (state_with [1; 2; 3] 1 [])
  = match [1; 2; 3] !! 2 with
    | Some v => Ok v (state_with [1; 2; 3] 1 [])
    | None => Undefined
    end ∧
  unchecked_front X (state_with [1; 2; 3] 1 [])
  = match [1; 2; 3] with
    | [] => Undefined
    | v :: _ => Ok v (state_with [1; 2; 3] 1 [])
    end ∧
  unchecked_back X (state_with [1; 2; 3] 1 [])
  = match reverse [1; 2; 3] with
    | [] => Undefined
    | v :: _ => Ok v (state_with [1; 2; 3] 1 [])
    end.
Proof.
  assert (h1 : holds X (state_with [1; 2; 3] 1 []) [1; 2; 3] 4)
    by (apply (state_with_holds [1; 2; 3] 1 []); simpl; lia).
  split; [exact h1|].
  exact (unchecked_access X (state_with [1; 2; 3] 1 []) [1; 2; 3] 4 2 h1).
Defined.

Lemma destructor_releases_block_witness :
  holds X (state_with [1; 2; 3] 1 []) [1; 2; 3] 4 ∧
  (∃ h', darray_destroy X (state_with [1; 2; 3] 1 []) = Ok tt (set_heap h' (state_with [1; 2; 3] 1 [])) ∧
          length h' = length (heap (state_with [1; 2; 3] 1 [])) ∧
          (∀ b, first (data_of X (state_with [1; 2; 3] 1 [])) = Ptr b 0 → h' !! b = Some None) ∧
          (∀ b, first (data_of X (state_with [1; 2; 3] 1 [])) ≠ Ptr b 0 →
                h' !! b = heap (state_with [1; 2; 3] 1 []) !! b)).
Proof.
  assert (h1 : holds X (state_with [1; 2; 3] 1 []) [1; 2; 3] 4)
    by (apply (state_with_holds [1; 2; 3] 1 []); simpl; lia).
  split; [exact h1|].
  exact (destructor_releases_block X (state_with [1; 2; 3] 1 []) [1; 2; 3] 4 h1).
Defined.

Lemma copy_construct_duplicates_witness :
  Y ≠ X ∧
  holds X (state_with [1; 2; 3] 1 []) [1; 2; 3] 4 ∧
  match darray_copy_alloc Y X 5 (state_with [1; 2; 3] 1 []) with
  | Ok _ s' =>
      holds Y s' [1; 2; 3] 4 ∧ holds X s' [1; 2; 3] 4 ∧
      first (data_of Y s') = Ptr (length (heap (state_with [1; 2; 3] 1 []))) 0 ∧
      cpair_first (get_obj Y s') = 5
  | Throw _ s' => holds Y s' [] 0 ∧ holds X s' [1; 2; 3] 4
  | Undefined => False
  end ∧
  darray_copy Y X (state_with [1; 2; 3] 1 [])
  = darray_copy_alloc Y X (cpair_first (get_obj X (state_with [1; 2; 3] 1 []))) (state_with [1; 2; 3] 1 []).
Proof.
  assert (h1 : Y ≠ X)
    by (discriminate).
  assert (h2 : holds X (state_with [1; 2; 3] 1 []) [1; 2; 3] 4)
    by (apply (state_with_holds [1; 2; 3] 1 []); simpl; lia).
  split; [exact h1|].
  split; [exact h2|].
  exact (copy_construct_duplicates Y X (state_with [1; 2; 3] 1 []) [1; 2; 3] 4 5 h1 h2).
Defined.

Lemma move_construct_same_allocator_witness :
  Y ≠ X ∧
  (is_always_equal = true ∨ 5 = cpair_first (get_obj X (state_with [1; 2; 3] 1 []))) ∧
  (∃ s', darray_move_alloc Y X 5 (state_with [1; 2; 3] 1 []) = Ok tt s' ∧
          data_of Y s' = data_of X (state_with [1; 2; 3] 1 []) ∧
          data_of X s' = null_data ∧
          cpair_first (get_obj Y s') = 5 ∧
          heap s' = heap (state_with [1; 2; 3] 1 []) ∧ faults s' = faults (state_with [1; 2; 3] 1 [])).
Proof.
  assert (h1 : Y ≠ X)
    by (discriminate).
  assert (h2 : (is_always_equal = true ∨ 5 = cpair_first (get_obj X (state_with [1; 2; 3] 1 []))))
    by (left; reflexivity).
  split; [exact h1|].
  split; [exact h2|].
  exact (move_construct_same_allocator Y X (state_with [1; 2; 3] 1 []) 5 h1 h2).
Defined.

Lemma assign_forward_replaces_witness :
  holds X (state_with [1; 2; 3] 1 []) [1; 2; 3] 4 ∧
  match assign_forward X (Val <$> [7; 8]) (state_with [1; 2; 3] 1 []) with
  | Ok _ s' =>
      holds X s' [7; 8] (if decide (4 < length [7; 8]) then length [7; 8] else 4)
  | Throw _ s' =>
      ∃ m l', m ≤ length [1; 2; 3] ∧ m ≤ length [7; 8] ∧
              length l' = length [1; 2; 3] - m ∧
              drop 1 l' = drop (S m) [1; 2; 3] ∧
              (4 < length [7; 8] → m = 0 ∧ l' = [1; 2; 3]) ∧
              holds X s' (take m [7; 8] ++ l') 4
  | Undefined => False
  end.
Proof.
  assert (h1 : holds X (state_with [1; 2; 3] 1 []) [1; 2; 3] 4)
    by (apply (state_with_holds [1; 2; 3] 1 []); simpl; lia).
  split; [exact h1|].
  exact (assign_forward_replaces X (state_with [1; 2; 3] 1 []) [1; 2; 3] 4 [7; 8] h1).
Defined.

Lemma assign_input_replaces_witness :
  holds X (state_with [1; 2; 3] 1 []) [1; 2; 3] 4 ∧
  match assign_input X (Val <$> [7; 8]) (state_with [1; 2; 3] 1 []) with
  | Ok _ s' => ∃ c', holds X s' [7; 8] c'
  | Throw _ s' =>
      ∃ m l' c', m < length [7; 8] ∧
                 length l' = length [1; 2; 3] - m ∧
                 drop 1 l' = drop (S m) [1; 2; 3] ∧
                 holds X s' (take m [7; 8] ++ l') c'
  | Undefined => False
  end.
Proof.
  assert (h1 : holds X (state_with [1; 2; 3] 1 []) [1; 2; 3] 4)
    by (apply (state_with_holds [1; 2; 3] 1 []); simpl; lia).
  split; [exact h1|].
  exact (assign_input_replaces X (state_with [1; 2; 3] 1 []) [1; 2; 3] 4 [7; 8] h1).
Defined.

Lemma u_emplace_back_needs_capacity_witness :
  holds X (state_with [1; 2; 3] 1 []) [1; 2; 3] 4 ∧
  upush_back X (Val 9) (state_with [1; 2; 3] 1 []) = u_emplace_back X (Val 9) (state_with [1; 2; 3] 1 []) ∧
  match u_emplace_back X (Val 9) (state_with [1; 2; 3] 1 []) with
  | Ok _ s' =>
      length [1; 2; 3] < 4 ∧ holds X s' ([1; 2; 3] ++ [9]) 4 ∧
      first (data_of X s') = first (data_of X (state_with [1; 2; 3] 1 []))
  | Throw _ s' => length [1; 2; 3] < 4 ∧ holds X s' [1; 2; 3] 4
  | Undefined => length [1; 2; 3] = 4
  end.
Proof.
  assert (h1 : holds X (state_with [1; 2; 3] 1 []) [1; 2; 3] 4)
    by (apply (state_with_holds [1; 2; 3] 1 []); simpl; lia).
  split; [exact h1|].
  exact (u_emplace_back_needs_capacity X (state_with [1; 2; 3] 1 []) [1; 2; 3] 4 9 h1).
Defined.

Lemma push_back_then_back_witness :
  holds X (state_with [1; 2; 3] 0 []) [1; 2; 3] 3 ∧
  match (push_back X (Val 9);; back X) (state_with [1; 2; 3] 0 []) with
  | Ok w s' => w = 9 ∧ ∃ c', holds X s' ([1; 2; 3] ++ [9]) c'
  | Throw _ s' => holds X s' [1; 2; 3] 3
  | Undefined => False
  end.
Proof.
  assert (h1 : holds X (state_with [1; 2; 3] 0 []) [1; 2; 3] 3)
    by (apply (state_with_holds [1; 2; 3] 0 []); simpl; lia).
  split; [exact h1|].
  exact (push_back_then_back X (state_with [1; 2; 3] 0 []) [1; 2; 3] 3 9 h1).
Defined.

Lemma push_back_then_erase_last_witness :
  holds X (state_with [1; 2; 3] 0 []) [1; 2; 3] 3 ∧
  match (push_back X (Val 9);;
         d ← _data X;
         p ← ptr_sub (last d) 1;
         erase X p (last d)) (state_with [1; 2; 3] 0 []) with
  | Ok _ s' => ∃ c', 3 ≤ c' ∧ holds X s' [1; 2; 3] c'
  | Throw _ s' => holds X s' [1; 2; 3] 3
  | Undefined => False
  end.
Proof.
  assert (h1 : holds X (state_with [1; 2; 3] 0 []) [1; 2; 3] 3)
    by (apply (state_with_holds [1; 2; 3] 0 []); simpl; lia).
  split; [exact h1|].
  exact (push_back_then_erase_last X (state_with [1; 2; 3] 0 []) [1; 2; 3] 3 9 h1).
Defined.

Lemma observers_read_witness :
  holds X (state_with [1; 2; 3] 1 []) [1; 2; 3] 4 ∧
  size X (state_with [1; 2; 3] 1 []) = Ok (length [1; 2; 3]) (state_with [1; 2; 3] 1 []) ∧
  capacity X (state_with [1; 2; 3] 1 []) = Ok 4 (state_with [1; 2; 3] 1 []) ∧
  empty X (state_with [1; 2; 3] 1 []) = Ok (bool_decide ([1; 2; 3] = [])) (state_with [1; 2; 3] 1 []) ∧
  (∃ p q, begin X (state_with [1; 2; 3] 1 []) = Ok p (state_with [1; 2; 3] 1 []) ∧ end' X (state_with [1; 2; 3] 1 []) = Ok q (state_with [1; 2; 3] 1 []) ∧
          ptr_diff (T:=nat) q p (state_with [1; 2; 3] 1 []) = Ok (length [1; 2; 3]) (state_with [1; 2; 3] 1 [])).
Proof.
  assert (h1 : holds X (state_with [1; 2; 3] 1 []) [1; 2; 3] 4)
    by (apply (state_with_holds [1; 2; 3] 1 []); simpl; lia).
  split; [exact h1|].
  exact (observers_read X (state_with [1; 2; 3] 1 []) [1; 2; 3] 4 h1).
Defined.

End examples.

Section seq_iter_examples.
Import iterators.

Lemma seq_iter_advance_distance_witness :
  (0 < 32)%Z ∧
  in_range 32 (mk_seq_iter 4294967290) ∧
  (- 2 ^ (32 - 1) ≤ 10 < 2 ^ (32 - 1))%Z ∧
  in_range 32 (plus 32 (mk_seq_iter 4294967290) 10) ∧
  difference 32 (plus 32 (mk_seq_iter 4294967290) 10) (mk_seq_iter 4294967290) = 10%Z.
Proof.
  assert (h1 : (0 < 32)%Z)
    by (lia).
  assert (h2 : in_range 32 (mk_seq_iter 4294967290))
    by (unfold in_range; simpl; lia).
  assert (h3 : (- 2 ^ (32 - 1) ≤ 10 < 2 ^ (32 - 1))%Z)
    by (simpl; lia).
  split; [exact h1|].
  split; [exact h2|].
  split; [exact h3|].
  exact (seq_iter_advance_distance 32 (mk_seq_iter 4294967290) 10 h1 h2 h3).
Defined.

Lemma seq_iter_distance_advance_witness :
  (0 < 32)%Z ∧
  in_range 32 (mk_seq_iter 4294967290) ∧
  in_range 32 (mk_seq_iter 4) ∧
  (- 2 ^ (32 - 1) ≤ difference 32 (mk_seq_iter 4) (mk_seq_iter 4294967290) < 2 ^ (32 - 1))%Z ∧
  plus 32 (mk_seq_iter 4294967290) (difference 32 (mk_seq_iter 4) (mk_seq_iter 4294967290)) = (mk_seq_iter 4).
Proof.
  assert (h1 : (0 < 32)%Z)
    by (lia).
  assert (h2 : in_range 32 (mk_seq_iter 4294967290))
    by (unfold in_range; simpl; lia).
  assert (h3 : in_range 32 (mk_seq_iter 4))
    by (unfold in_range; simpl; lia).
  split; [exact h1|].
  split; [exact h2|].
  split; [exact h3|].
  exact (seq_iter_distance_advance 32 (mk_seq_iter 4294967290) (mk_seq_iter 4) h1 h2 h3).
Defined.

Lemma seq_iter_increment_decrement_witness :
  (0 < 32)%Z ∧
  in_range 32 (mk_seq_iter 4294967295) ∧
  pre_decrement 32 (pre_increment 32 (mk_seq_iter 4294967295)) = (mk_seq_iter 4294967295) ∧
  pre_increment 32 (pre_decrement 32 (mk_seq_iter 4294967295)) = (mk_seq_iter 4294967295) ∧
  post_increment 32 (mk_seq_iter 4294967295) = ((mk_seq_iter 4294967295), pre_increment 32 (mk_seq_iter 4294967295)) ∧
  post_decrement 32 (mk_seq_iter 4294967295) = ((mk_seq_iter 4294967295), pre_decrement 32 (mk_seq_iter 4294967295)) ∧
  (deref (mk_seq_iter 4294967295) = 2 ^ 32 - 1 → deref (pre_increment 32 (mk_seq_iter 4294967295)) = 0)%Z ∧
  (deref (mk_seq_iter 4294967295) = 0 → deref (pre_decrement 32 (mk_seq_iter 4294967295)) = 2 ^ 32 - 1)%Z.
Proof.
  assert (h1 : (0 < 32)%Z)
    by (lia).
  assert (h2 : in_range 32 (mk_seq_iter 4294967295))
    by (unfold in_range; simpl; lia).
  split; [exact h1|].
  split; [exact h2|].
  exact (seq_iter_increment_decrement 32 (mk_seq_iter 4294967295) h1 h2).
Defined.

Lemma seq_iter_order_distance_witness :
  (0 < 32)%Z ∧
  in_range 32 (mk_seq_iter 4) ∧
  in_range 32 (mk_seq_iter 4294967290) ∧
  ((deref (mk_seq_iter 4294967290) - deref (mk_seq_iter 4) < 2 ^ (32 - 1) →
    deref (mk_seq_iter 4) - deref (mk_seq_iter 4294967290) < 2 ^ (32 - 1) →
    (compare (mk_seq_iter 4) (mk_seq_iter 4294967290) = Lt ↔ 0 < difference 32 (mk_seq_iter 4294967290) (mk_seq_iter 4)))%Z) ∧
  ((2 ^ (32 - 1) ≤ deref (mk_seq_iter 4294967290) - deref (mk_seq_iter 4) →
    compare (mk_seq_iter 4) (mk_seq_iter 4294967290) = Lt ∧ difference 32 (mk_seq_iter 4294967290) (mk_seq_iter 4) < 0)%Z).
Proof.
  assert (h1 : (0 < 32)%Z)
    by (lia).
  assert (h2 : in_range 32 (mk_seq_iter 4))
    by (unfold in_range; simpl; lia).
  assert (h3 : in_range 32 (mk_seq_iter 4294967290))
    by (unfold in_range; simpl; lia).
  split; [exact h1|].
  split; [exact h2|].
  split; [exact h3|].
  exact (seq_iter_order_distance 32 (mk_seq_iter 4) (mk_seq_iter 4294967290) h1 h2 h3).
Defined.

End seq_iter_examples.

End expu.
